(** * Passenger application pool: a shallow embedding of
      [ext/common/ApplicationPool/Pool.h], of the string and number
      utilities of [ext/common/Utils/StrIntUtils.cpp] and of
      [src/cxx_supportlib/Utils/Cgroup.cpp], with the properties of the
      pool's specification, and further properties of the code, proved
      over it. *)

From Stdlib Require Import ZArith Lia Ascii DecimalString.
From stdpp Require Import gmap strings list fin_maps.

#[local] Open Scope Z_scope.

(** ** Machine integers *)

(** [unsigned int] is 32 bits wide; arithmetic on it wraps around. *)
Definition UINT_BITS : Z := 32.
Definition UINT_MOD : Z := 2 ^ UINT_BITS.
Definition wrap32 (x : Z) : Z := x mod UINT_MOD.

(** [x++] and [x--] on an [unsigned int]. *)
Definition uincr (x : Z) : Z := wrap32 (x + 1).
Definition udecr (x : Z) : Z := wrap32 (x - 1).

Definition is_uint (x : Z) : Prop := 0 <= x < UINT_MOD.

(** [std::string::size()] as a [size_t] value. *)
Definition ssize (s : string) : Z := Z.of_nat (String.length s).

(** ** StrIntUtils.cpp *)

Module StrIntUtils.

Inductive Exception := ArgumentException (msg : string).

Fixpoint take_str (n : nat) (s : string) : string :=
  match n, s with
  | S k, String c r => String c (take_str k r)
  | _, _ => EmptyString
  end.

(** [s.substr(0, n)]: the first [n] characters, or all of [s] when it is
    shorter. *)
Definition substr0 (s : string) (n : Z) : string := take_str (Z.to_nat n) s.

Definition fillInMiddle (max : Z) (prefix middle postfix : string)
  : Exception + string :=
  if max <=? ssize prefix + ssize postfix then
    inl (ArgumentException
           "Impossible to build string with the given size constraint.")
  else
    let fillSize := wrap32 (max - (ssize prefix + ssize postfix)) in
    if ssize middle <? fillSize then
      inr (prefix +:+ middle +:+ postfix)
    else
      inr (prefix +:+ substr0 middle fillSize +:+ postfix).

Definition throws {A} (r : Exception + A) : Prop :=
  match r with inl _ => True | inr _ => False end.

(** [starts_with p s] / [ends_with p s]: [s] is [p] followed by something,
    respectively something followed by [p]. *)
Definition starts_with (p s : string) : Prop := exists r, s = p +:+ r.
Definition ends_with (p s : string) : Prop := exists r, s = r +:+ p.

(** *** split *)

(** [str.find(sep, start)]: the position of the first [sep] at or after
    [start]; [None] is [npos]. *)
Fixpoint find (str : string) (sep : ascii) (start : nat) : option nat :=
  match str with
  | EmptyString => None
  | String c r =>
      match start with
      | O => if Ascii.eqb c sep then Some O else S <$> find r sep O
      | S k => S <$> find r sep k
      end
  end.

Fixpoint drop_str (n : nat) (s : string) : string :=
  match n, s with
  | S k, String _ r => drop_str k r
  | _, _ => s
  end.

(** [str.substr(pos, n)] and [str.substr(pos)]; [None] stands for the
    [std::out_of_range] they throw when [pos > str.size()]. *)
Definition substr (str : string) (pos n : nat) : option string :=
  if decide (pos ≤ String.length str)%nat
  then Some (take_str n (drop_str pos str)) else None.
Definition substr_from (str : string) (pos : nat) : option string :=
  if decide (pos ≤ String.length str)%nat
  then Some (drop_str pos str) else None.

(** The loop of [split] and the [push_back] after it.  [None] also stands
    for running out of the iteration budget. *)
Fixpoint split_loop (fuel : nat) (str : string) (sep : ascii) (start : nat)
    (output : list string) : option (list string) :=
  match find str sep start with
  | Some pos =>
      match fuel with
      | O => None
      | S fuel' =>
          piece ← substr str start (pos - start);
          split_loop fuel' str sep (pos + 1) (output ++ [piece])
      end
  | None =>
      piece ← substr_from str start;
      Some (output ++ [piece])
  end.

(** [split(str, sep, output)]: the contents of [output] afterwards. *)
Definition split (str : string) (sep : ascii) : option (list string) :=
  split_loop (S (String.length str)) str sep 0 [].

(** The pieces put together again, [sep] between them. *)
Fixpoint join (sep : ascii) (l : list string) : string :=
  match l with
  | [] => EmptyString
  | [x] => x
  | x :: r => x +:+ String sep (join sep r)
  end.

(** How often [c] occurs in [s]. *)
Fixpoint occurrences (c : ascii) (s : string) : nat :=
  match s with
  | EmptyString => O
  | String x r => (if Ascii.eqb x c then 1 else 0) + occurrences c r
  end.

(** *** toString(vector) *)

(** The loop of [toString(const vector<StaticString> &)]: [i] is the
    [unsigned int] counter, [size] is [vec.size()]. *)
Fixpoint toString_loop (size : Z) (i : Z) (rest : list string)
    (result : string) : string :=
  match rest with
  | [] => result
  | x :: rest' =>
      let result := result +:+ "'" +:+ x in
      let result := if i =? size - 1
                    then result +:+ "'" else result +:+ "', " in
      toString_loop size (wrap32 (i + 1)) rest' result
  end.

Definition toString (vec : list string) : string :=
  toString_loop (Z.of_nat (length vec)) 0 vec "[" +:+ "]".

(** What the loop is meant to build: the quoted items, [", "] between
    them. *)
Fixpoint quoted_items (vec : list string) : string :=
  match vec with
  | [] => EmptyString
  | [x] => "'" +:+ x +:+ "'"
  | x :: r => "'" +:+ x +:+ "', " +:+ quoted_items r
  end.

(** *** stringToULL, hexToULL, toHex *)

(** [unsigned long long] is 64 bits wide. *)
Definition ULL_MOD : Z := 2 ^ 64.
Definition wrap64 (x : Z) : Z := x mod ULL_MOD.

(** A [char] as the number of its bit pattern. *)
Definition code (c : ascii) : Z := Z.of_N (N_of_ascii c).

(** A [StaticString]: [size] characters at [data], which need not be
    followed by a terminating NUL.  [past] is the byte behind the last
    character, if the memory there can be read at all. *)
Record StaticString := mkStaticString {
  content : string;
  past : option ascii
}.

(** [data[i]]: defined for [i < size], and for [i = size] when there is a
    readable byte behind the string. *)
Definition data_at (str : StaticString) (i : nat) : option ascii :=
  match String.get i (content str) with
  | Some c => Some c
  | None => if decide (i = String.length (content str)) then past str else None
  end.

(** [while (data[i] == ' ' && i < str.size()) i++;] *)
Fixpoint skip_spaces (fuel : nat) (str : StaticString) (i : nat)
  : option nat :=
  match fuel with
  | O => None
  | S fuel' =>
      c ← data_at str i;
      if (code c =? 32) && (i <? String.length (content str))%nat
      then skip_spaces fuel' str (S i)
      else Some i
  end.

(** [while (data[i] >= '0' && data[i] <= '9' && i < str.size())
       { result *= 10; result += data[i] - '0'; i++; }]
    The two comparisons hold together exactly for the codes 48 to 57,
    whether [char] is signed or not. *)
Fixpoint read_digits (fuel : nat) (str : StaticString) (i : nat)
    (result : Z) : option Z :=
  match fuel with
  | O => None
  | S fuel' =>
      c ← data_at str i;
      if (48 <=? code c) && (code c <=? 57)
         && (i <? String.length (content str))%nat
      then read_digits fuel' str (S i)
             (wrap64 (wrap64 (result * 10) + (code c - 48)))
      else Some result
  end.

(** [None]: a byte that cannot be read was read, or the budget ran out. *)
Definition stringToULL (str : StaticString) : option Z :=
  let budget := S (String.length (content str)) in
  i ← skip_spaces budget str 0;
  read_digits budget str i 0.

(** The result [v] of a loop that has come to the point where [tail]
    begins: at the end of the string the loop condition still reads
    [data[size]]. *)
Definition at_tail {A} (str : StaticString) (tail : string) (v : A)
  : option A :=
  match tail, past str with
  | EmptyString, None => None
  | _, _ => Some v
  end.

(** The number a string of decimal digits denotes, read from the left
    starting with [acc]. *)
Fixpoint decimal_value (acc : Z) (digits : string) : Z :=
  match digits with
  | EmptyString => acc
  | String c r => decimal_value (10 * acc + (code c - 48)) r
  end.

Definition is_digit (c : ascii) : Prop := 48 <= code c <= 57.

Fixpoint all_chars (P : ascii → Prop) (s : string) : Prop :=
  match s with
  | EmptyString => True
  | String c r => P c ∧ all_chars P r
  end.

(** Nothing, or something that begins with a character without [P]. *)
Definition stops (P : ascii → Prop) (s : string) : Prop :=
  match s with
  | EmptyString => True
  | String c _ => ¬ P c
  end.

Fixpoint spaces (n : nat) : string :=
  match n with
  | O => EmptyString
  | S k => String " " (spaces k)
  end.

(** The loop of [hexToULL]: it leaves at the first character that is
    neither a digit, nor in ['a'..'f'], nor in ['A'..'Z']. *)
Fixpoint hexToULL_loop (hex : string) (result : Z) : Z :=
  match hex with
  | EmptyString => result
  | String c r =>
      if (48 <=? code c) && (code c <=? 57) then
        hexToULL_loop r (wrap64 (wrap64 (result * 16) + (code c - 48)))
      else if (97 <=? code c) && (code c <=? 102) then
        hexToULL_loop r (wrap64 (wrap64 (result * 16) + (10 + (code c - 97))))
      else if (65 <=? code c) && (code c <=? 90) then
        hexToULL_loop r (wrap64 (wrap64 (result * 16) + (10 + (code c - 65))))
      else result
  end.

Definition hexToULL (hex : string) : Z := hexToULL_loop hex 0.

(** The characters [hexToULL] reads as digits, and what they count. *)
Definition is_hex_char (c : ascii) : Prop :=
  48 <= code c <= 57 ∨ 97 <= code c <= 102 ∨ 65 <= code c <= 90.
Definition hex_digit_value (c : ascii) : Z :=
  if code c <=? 57 then code c - 48
  else if 97 <=? code c then 10 + (code c - 97)
  else 10 + (code c - 65).

(** The number a string of such digits denotes in base 16, read from the
    left starting with [acc]. *)
Fixpoint hex_value (acc : Z) (digits : string) : Z :=
  match digits with
  | EmptyString => acc
  | String c r => hex_value (16 * acc + hex_digit_value c) r
  end.

Definition hex_chars : list ascii :=
  ["0"; "1"; "2"; "3"; "4"; "5"; "6"; "7"; "8"; "9";
   "a"; "b"; "c"; "d"; "e"; "f"]%char.

(** [hex_chars[n]] *)
Definition hex_char (n : Z) : ascii :=
  nth (Z.to_nat n) hex_chars "000"%char.

(** The loop of [toHex(data, output)]: [bytes] are the characters of
    [data] from index [i] on.  A write outside [output] leaves it alone
    here; the buffer the caller passes holds [2 * data.size()] bytes. *)
Fixpoint toHex_loop (bytes : string) (i : nat) (output : list ascii)
  : list ascii :=
  match bytes with
  | EmptyString => output
  | String c r =>
      let output := <[(i * 2)%nat := hex_char (code c / 16)]> output in
      let output := <[(i * 2 + 1)%nat := hex_char (code c mod 16)]> output in
      toHex_loop r (S i) output
  end.

(** [toHex(data)]: [string result(data.size() * 2, '\0')], filled in. *)
Definition toHex (data : string) : string :=
  String.string_of_list_ascii
    (toHex_loop data 0 (replicate (String.length data * 2) "000"%char)).

(** Two hexadecimal digits for every byte of [data]. *)
Fixpoint hex_digits (data : string) : list ascii :=
  match data with
  | EmptyString => []
  | String c r =>
      hex_char (code c / 16) :: hex_char (code c mod 16) :: hex_digits r
  end.

(** The number whose base 256 digits are the bytes of [data], the first
    byte the most significant, starting with [acc]. *)
Fixpoint bytes_value (acc : Z) (data : string) : Z :=
  match data with
  | EmptyString => acc
  | String c r => bytes_value (256 * acc + code c) r
  end.

End StrIntUtils.

(** ** std::list with iterators

    The pool keeps [shared_ptr<ProcessInfo>] values in [std::list]s and
    remembers, inside every record, the list iterators that designate the
    record's own nodes.  A record is identified here by its address (a
    [nat]); a list holds each record at most once, so a node is identified
    by the record it holds.  [std::list] is a circular doubly linked list
    around a sentinel node ([end()]): stepping back from [begin()] yields
    [end()] and stepping forward from [end()] yields [begin()]; the purge
    loop and the cleaner loop of the pool rely on this. *)

Module StdList.

(** [None] is [end()], [Some w] the node that holds record [w]. *)
Definition iterator := option nat.

Definition begin (l : list nat) : iterator := head l.

Fixpoint next_of (l : list nat) (w : nat) : iterator :=
  match l with
  | [] => None
  | x :: t => if decide (x = w) then head t else next_of t w
  end.

Fixpoint prev_of (p : iterator) (l : list nat) (w : nat) : iterator :=
  match l with
  | [] => None
  | x :: t => if decide (x = w) then p else prev_of (Some x) t w
  end.

(** [it++] *)
Definition incr (l : list nat) (it : iterator) : iterator :=
  match it with
  | None => head l
  | Some w => next_of l w
  end.

(** [it--] *)
Definition decr (l : list nat) (it : iterator) : iterator :=
  match it with
  | None => last l
  | Some w => prev_of None l w
  end.

(** [l.erase(it)] for the iterator of the node holding [w]. *)
Fixpoint erase (w : nat) (l : list nat) : list nat :=
  match l with
  | [] => []
  | x :: t => if decide (x = w) then t else x :: erase w t
  end.

Definition push_back (w : nat) (l : list nat) : list nat := l ++ [w].
Definition push_front (w : nat) (l : list nat) : list nat := w :: l.
Definition pop_front (l : list nat) : list nat := tail l.

End StdList.

(** ** Pool.h: data model *)

Module Process.
(** The part of a [Process] handle the pool looks at. *)
Record t := mk { getAppRoot : string; getPid : Z }.
End Process.

Module ProcessInfo.
(** [struct ProcessInfo].  The two iterator fields [iterator] and
    [ia_iterator] always designate the node holding this very record in its
    group's list and in [inactiveApps]; erasing through them is
    [StdList.erase] of the record. *)
Record t := mk {
  process : Process.t;
  startTime : Z;
  lastUsed : Z;
  sessions : Z;     (* unsigned int *)
  processed : Z     (* unsigned int *)
}.
End ProcessInfo.

Module Group.
(** [struct Group] *)
Record t := mk {
  processes : list nat;
  size : Z;          (* unsigned int *)
  maxRequests : Z    (* unsigned long *)
}.
End Group.

Module PoolOptions.
(** The fields of [PoolOptions] the pool reads. *)
Record t := mk {
  appRoot : string;
  restartDir : string;
  statThrottleRate : Z;
  useGlobalQueue : bool;
  maxRequests : Z
}.
End PoolOptions.

Inductive Exception :=
| SpawnException (msg : string) (errorPage : option string)
| SystemException (what_msg : string) (sys_msg : string)
| IOException (msg : string)
| StdException (what_msg : string).

(** [e.what()] *)
Definition what (e : Exception) : string :=
  match e with
  | SpawnException m _ => m
  | SystemException m _ => m
  | IOException m => m
  | StdException m => m
  end.

(** Calls on the collaborators of the pool, in the order they are made. *)
Inductive Event :=
| NotifyAll                      (* activeOrMaxChanged.notify_all() *)
| NotifyCleaner                  (* cleanerThreadSleeper.notify_one() *)
| Reload (appRoot : string)      (* spawnManager->reload(appRoot) *)
| Spawn (appRoot : string).      (* spawnManager->spawn(options) *)

Definition Event_eq_dec (a b : Event) : {a = b} + {a <> b}.
Proof. decide equality; apply String.string_dec. Defined.

Module Pool.

Import StdList.

Definition DEFAULT_MAX_IDLE_TIME : Z := 120.
Definition DEFAULT_MAX_POOL_SIZE : Z := 20.
Definition DEFAULT_MAX_INSTANCES_PER_APP : Z := 0.
Definition MAX_GET_ATTEMPTS : Z := 10.

(** [SharedData] together with the instance variables of [Pool].
    [heap] holds the [ProcessInfo] objects behind the shared pointers and
    [nextId] is the next unused address.  [trace] records the calls made
    on the condition variables and on the spawn manager.  [sessions_open]
    lists, for every session handed out by [get] and not closed yet, the
    record its close callback refers to. *)
Record t := mk {
  groups : gmap string Group.t;
  max : Z;
  count : Z;
  active : Z;
  maxPerApp : Z;
  inactiveApps : list nat;
  maxIdleTime : Z;
  waitingOnGlobalQueue : Z;
  heap : gmap nat ProcessInfo.t;
  nextId : nat;
  trace : list Event;
  sessions_open : list nat
}.

Definition with_groups (v : gmap string Group.t) (s : t) : t :=
  mk v (max s) (count s) (active s) (maxPerApp s) (inactiveApps s)
     (maxIdleTime s) (waitingOnGlobalQueue s) (heap s) (nextId s) (trace s)
     (sessions_open s).
Definition with_max (v : Z) (s : t) : t :=
  mk (groups s) v (count s) (active s) (maxPerApp s) (inactiveApps s)
     (maxIdleTime s) (waitingOnGlobalQueue s) (heap s) (nextId s) (trace s)
     (sessions_open s).
Definition with_count (v : Z) (s : t) : t :=
  mk (groups s) (max s) v (active s) (maxPerApp s) (inactiveApps s)
     (maxIdleTime s) (waitingOnGlobalQueue s) (heap s) (nextId s) (trace s)
     (sessions_open s).
Definition with_active (v : Z) (s : t) : t :=
  mk (groups s) (max s) (count s) v (maxPerApp s) (inactiveApps s)
     (maxIdleTime s) (waitingOnGlobalQueue s) (heap s) (nextId s) (trace s)
     (sessions_open s).
Definition with_maxPerApp (v : Z) (s : t) : t :=
  mk (groups s) (max s) (count s) (active s) v (inactiveApps s)
     (maxIdleTime s) (waitingOnGlobalQueue s) (heap s) (nextId s) (trace s)
     (sessions_open s).
Definition with_inactiveApps (v : list nat) (s : t) : t :=
  mk (groups s) (max s) (count s) (active s) (maxPerApp s) v
     (maxIdleTime s) (waitingOnGlobalQueue s) (heap s) (nextId s) (trace s)
     (sessions_open s).
Definition with_maxIdleTime (v : Z) (s : t) : t :=
  mk (groups s) (max s) (count s) (active s) (maxPerApp s) (inactiveApps s)
     v (waitingOnGlobalQueue s) (heap s) (nextId s) (trace s)
     (sessions_open s).
Definition with_waitingOnGlobalQueue (v : Z) (s : t) : t :=
  mk (groups s) (max s) (count s) (active s) (maxPerApp s) (inactiveApps s)
     (maxIdleTime s) v (heap s) (nextId s) (trace s) (sessions_open s).
Definition with_heap (v : gmap nat ProcessInfo.t) (s : t) : t :=
  mk (groups s) (max s) (count s) (active s) (maxPerApp s) (inactiveApps s)
     (maxIdleTime s) (waitingOnGlobalQueue s) v (nextId s) (trace s)
     (sessions_open s).
Definition with_nextId (v : nat) (s : t) : t :=
  mk (groups s) (max s) (count s) (active s) (maxPerApp s) (inactiveApps s)
     (maxIdleTime s) (waitingOnGlobalQueue s) (heap s) v (trace s)
     (sessions_open s).
Definition with_sessions_open (v : list nat) (s : t) : t :=
  mk (groups s) (max s) (count s) (active s) (maxPerApp s) (inactiveApps s)
     (maxIdleTime s) (waitingOnGlobalQueue s) (heap s) (nextId s) (trace s)
     v.

(** Append a call to the trace. *)
Definition emit (e : Event) (s : t) : t :=
  mk (groups s) (max s) (count s) (active s) (maxPerApp s) (inactiveApps s)
     (maxIdleTime s) (waitingOnGlobalQueue s) (heap s) (nextId s)
     (trace s ++ [e]) (sessions_open s).

(** Field updates of the objects behind the pointers. *)
Definition set_processes (l : list nat) (g : Group.t) : Group.t :=
  Group.mk l (Group.size g) (Group.maxRequests g).
Definition set_size (n : Z) (g : Group.t) : Group.t :=
  Group.mk (Group.processes g) n (Group.maxRequests g).
Definition set_sessions (n : Z) (p : ProcessInfo.t) : ProcessInfo.t :=
  ProcessInfo.mk (ProcessInfo.process p) (ProcessInfo.startTime p)
    (ProcessInfo.lastUsed p) n (ProcessInfo.processed p).
Definition set_processed (n : Z) (p : ProcessInfo.t) : ProcessInfo.t :=
  ProcessInfo.mk (ProcessInfo.process p) (ProcessInfo.startTime p)
    (ProcessInfo.lastUsed p) (ProcessInfo.sessions p) n.
Definition set_lastUsed (n : Z) (p : ProcessInfo.t) : ProcessInfo.t :=
  ProcessInfo.mk (ProcessInfo.process p) (ProcessInfo.startTime p)
    n (ProcessInfo.sessions p) (ProcessInfo.processed p).

Definition put_group (k : string) (g : Group.t) (s : t) : t :=
  with_groups (<[k := g]> (groups s)) s.
Definition erase_group (k : string) (s : t) : t :=
  with_groups (delete k (groups s)) s.
Definition put_info (w : nat) (p : ProcessInfo.t) (s : t) : t :=
  with_heap (<[w := p]> (heap s)) s.

(** The record [w] is held by a shared pointer of the pool: it sits in
    [inactiveApps] or in the list of some group. *)
Definition owned (s : t) (w : nat) : Prop :=
  w ∈ inactiveApps s ∨
  map_Exists (λ _ g, w ∈ Group.processes g) (groups s).

#[global] Instance owned_dec s w : Decision (owned s w).
Proof. unfold owned. apply _. Defined.

(** [weak_ptr<ProcessInfo>::lock()]: the record, as long as some shared
    pointer still holds it. *)
Definition weak_lock (s : t) (w : nat) : option ProcessInfo.t :=
  if decide (owned s w) then heap s !! w else None.

(** What one pass through the pool's code obtains from its collaborators
    and from the clock. *)
Record Env := mkEnv {
  cstat_stat : string → Z → Z;
  file_changed : string → Z → bool;
  spawn : PoolOptions.t → Exception + Z;
  connect : nat → Exception + unit;
  time_now : Z
}.

(** *** needsRestart *)

Definition restartDirOf (appRoot : string) (options : PoolOptions.t) : string :=
  match PoolOptions.restartDir options with
  | EmptyString => appRoot +:+ "/tmp"
  | String c _ =>
      if Ascii.eqb c "/"%char then PoolOptions.restartDir options
      else appRoot +:+ "/" +:+ PoolOptions.restartDir options
  end.

Definition alwaysRestartFile (appRoot : string) (options : PoolOptions.t) :=
  restartDirOf appRoot options +:+ "/always_restart.txt".
Definition restartFile (appRoot : string) (options : PoolOptions.t) :=
  restartDirOf appRoot options +:+ "/restart.txt".

Definition needsRestart (env : Env) (appRoot : string)
    (options : PoolOptions.t) : bool :=
  (cstat_stat env (alwaysRestartFile appRoot options)
     (PoolOptions.statThrottleRate options) =? 0)
  || file_changed env (restartFile appRoot options)
       (PoolOptions.statThrottleRate options).

(** *** spawnOrUseExisting

    A result of [None] below stands for an execution the C++ source gives
    no meaning to (dereferencing an absent record, [front()] of an empty
    list) or, in the loops, for running out of the iteration budget. *)

(** How one pass through [spawnOrUseExisting] ends: with the selected
    record and the key of its group, in a wait on [activeOrMaxChanged]
    (after which the function starts over), or with an exception. *)
Inductive PassResult :=
| Selected (w : nat) (group : string)
| Wait (globalQueue : bool)
| Throw (e : Exception).

(** The purge loop of the restart pre-step, lines 449-459:
    [for (list_it = begin(); list_it != end(); list_it++)] with the body
    stepping [list_it] back before it erases the node. *)
Fixpoint purge_loop (fuel : nat) (appRoot : string) (s : t)
    (list_it : iterator) : option t :=
  match list_it with
  | None => Some s
  | Some w =>
      match fuel with
      | O => None
      | S fuel' =>
          processInfo ← heap s !! w;
          g ← groups s !! appRoot;
          let s1 :=
            if ProcessInfo.sessions processInfo =? 0
            then with_inactiveApps (erase w (inactiveApps s)) s
            else with_active (udecr (active s)) s in
          let list_it' := decr (Group.processes g) (Some w) in
          let processes' := erase w (Group.processes g) in
          let s2 := put_group appRoot (set_processes processes' g) s1 in
          let s3 := with_count (udecr (count s2)) s2 in
          purge_loop fuel' appRoot s3 (incr processes' list_it')
      end
  end.

(** The restart pre-step, lines 443-466.  The boolean tells whether
    [group_it != groups.end()] afterwards. *)
Definition restart_prestep (env : Env) (options : PoolOptions.t) (s : t)
  : option (t * bool) :=
  let appRoot := PoolOptions.appRoot options in
  let group_it := groups s !! appRoot in
  if needsRestart env appRoot options then
    s1 ← match group_it with
         | Some g =>
             s' ← purge_loop (S (length (Group.processes g))) appRoot s
                    (begin (Group.processes g));
             Some (erase_group appRoot s')
         | None => Some s
         end;
    Some (emit NotifyAll (emit (Reload appRoot) s1), false)
  else
    Some (s, bool_decide (is_Some group_it)).

(** The scan for the least busy record, lines 491-499: [smallest] starts at
    [begin()], [rest] are the nodes from the second one on. *)
Fixpoint scan_smallest (h : gmap nat ProcessInfo.t) (smallest : nat)
    (rest : list nat) : option nat :=
  match rest with
  | [] => Some smallest
  | it :: rest' =>
      pi ← h !! it;
      ps ← h !! smallest;
      if ProcessInfo.sessions pi <? ProcessInfo.sessions ps
      then scan_smallest h it rest'
      else scan_smallest h smallest rest'
  end.

(** The text the catch clauses of [spawnOrUseExisting] build. *)
Definition spawn_error_message (appRoot : string) (e : Exception) : string :=
  "Cannot spawn application '" +:+ appRoot +:+ "': " +:+ what e.

Definition rethrow_spawn (appRoot : string) (e : Exception) : Exception :=
  match e with
  | SpawnException _ (Some page) =>
      SpawnException (spawn_error_message appRoot e) (Some page)
  | _ => SpawnException (spawn_error_message appRoot e) None
  end.

(** [ptr(new ProcessInfo())] followed by a successful [spawn]: the record
    is stored at a fresh address.  The process reports the application root
    it was spawned for. *)
Definition new_ProcessInfo (env : Env) (options : PoolOptions.t) (pid : Z)
  : ProcessInfo.t :=
  ProcessInfo.mk (Process.mk (PoolOptions.appRoot options) pid)
    (time_now env) 0 0 0.

Definition alloc (p : ProcessInfo.t) (s : t) : t * nat :=
  (with_nextId (S (nextId s)) (put_info (nextId s) p s), nextId s).

(** The common tail, lines 579-581. *)
Definition select (env : Env) (w : nat) (group : string) (s : t)
  : option (t * PassResult) :=
  processInfo ← heap s !! w;
  let p1 := set_lastUsed (time_now env) processInfo in
  let p2 := set_sessions (uincr (ProcessInfo.sessions p1)) p1 in
  Some (put_info w p2 s, Selected w group).

(** Lines 527-539: the front of [inactiveApps] leaves the pool. *)
Definition evict (s : t) : option t :=
  w ← head (inactiveApps s);
  let s1 := with_inactiveApps (pop_front (inactiveApps s)) s in
  processInfo ← heap s1 !! w;
  let key := Process.getAppRoot (ProcessInfo.process processInfo) in
  g ← groups s1 !! key;
  let processes' := erase w (Group.processes g) in
  let s2 :=
    match processes' with
    | [] => erase_group key s1
    | _ => put_group key
             (set_size (udecr (Group.size g)) (set_processes processes' g)) s1
    end in
  Some (with_count (udecr (count s2)) s2).

(** Lines 468-521: the group of [appRoot] exists. *)
Definition use_group (env : Env) (options : PoolOptions.t) (s : t)
  : option (t * PassResult) :=
  let appRoot := PoolOptions.appRoot options in
  g ← groups s !! appRoot;
  front ← head (Group.processes g);
  frontInfo ← heap s !! front;
  if ProcessInfo.sessions frontInfo =? 0 then
    let processes' := push_back front (pop_front (Group.processes g)) in
    let s1 := put_group appRoot (set_processes processes' g) s in
    let s2 := with_inactiveApps (erase front (inactiveApps s1)) s1 in
    let s3 := with_active (uincr (active s2)) s2 in
    select env front appRoot (emit NotifyAll s3)
  else if (max s <=? count s)
          || (negb (maxPerApp s =? 0) && (maxPerApp s <=? Group.size g)) then
    if PoolOptions.useGlobalQueue options then
      Some (with_waitingOnGlobalQueue (uincr (waitingOnGlobalQueue s)) s,
            Wait true)
    else
      smallest ← scan_smallest (heap s) front (tail (Group.processes g));
      let processes' := push_back smallest (erase smallest (Group.processes g)) in
      select env smallest appRoot
        (put_group appRoot (set_processes processes' g) s)
  else
    match spawn env options with
    | inl e => Some (emit (Spawn appRoot) s, Throw (rethrow_spawn appRoot e))
    | inr pid =>
        let '(s1, w) := alloc (new_ProcessInfo env options pid)
                          (emit (Spawn appRoot) s) in
        let g' := set_size (uincr (Group.size g))
                    (set_processes (push_back w (Group.processes g)) g) in
        let s2 := put_group appRoot g' s1 in
        let s3 := with_count (uincr (count s2)) s2 in
        let s4 := with_active (uincr (active s3)) s3 in
        select env w appRoot (emit NotifyAll s4)
    end.

(** Lines 541-559: a record is spawned and founds the group of [appRoot]. *)
Definition spawn_new (env : Env) (options : PoolOptions.t) (s0 : t)
  : option (t * PassResult) :=
  let appRoot := PoolOptions.appRoot options in
  match spawn env options with
  | inl e => Some (emit (Spawn appRoot) s0, Throw (rethrow_spawn appRoot e))
  | inr pid =>
      let '(s1, w) := alloc (new_ProcessInfo env options pid)
                        (emit (Spawn appRoot) s0) in
      let g := Group.mk [w] 1 (PoolOptions.maxRequests options) in
      let s2 := put_group appRoot g s1 in
      let s3 := with_count (uincr (count s2)) s2 in
      let s4 := with_active (uincr (active s3)) s3 in
      select env w appRoot (emit NotifyAll s4)
  end.

(** Lines 522-560: no group for [appRoot]. *)
Definition new_group (env : Env) (options : PoolOptions.t) (s : t)
  : option (t * PassResult) :=
  if max s <=? active s then
    Some (s, Wait false)
  else
    s0 ← (if count s =? max s then evict s else Some s);
    spawn_new env options s0.

(** One pass from [beginning_of_function] to the [return], to a [throw], or
    to a wait on the condition variable. *)
Definition spawnOrUseExisting (env : Env) (options : PoolOptions.t) (s : t)
  : option (t * PassResult) :=
  '(s1, found) ← restart_prestep env options s;
  if found : bool then use_group env options s1 else new_group env options s1.

(** *** get *)

(** How a stretch of [get] under the lock ends: with a session on a record,
    blocked in the wait of [spawnOrUseExisting] (the lock is released; the
    attempt number is kept), or with an exception. *)
Inductive GetResult :=
| Session (w : nat)
| Blocked (attempt : Z) (globalQueue : bool)
| Raised (e : Exception).

Definition connect_error_message (options : PoolOptions.t) (e : Exception)
  : string :=
  "Cannot connect to an existing application instance for '"
  +:+ PoolOptions.appRoot options +:+ "': "
  +:+ match e with
      | SystemException _ sys => sys
      | _ => what e
      end.

(** The catch clause of [get], lines 689-699, up to the second
    [verifyState]. *)
Definition connect_failed (options : PoolOptions.t) (w : nat)
    (group : string) (s : t) : option t :=
  processInfo ← heap s !! w;
  let s1 := put_info w
              (set_sessions (udecr (ProcessInfo.sessions processInfo))
                 processInfo) s in
  g ← groups s1 !! group;
  let processes' := erase w (Group.processes g) in
  let s2 := put_group group
              (set_size (udecr (Group.size g)) (set_processes processes' g))
              s1 in
  let s3 := match processes' with
            | [] => erase_group (PoolOptions.appRoot options) s2
            | _ => s2
            end in
  let s4 := with_count (udecr (count s3)) s3 in
  let s5 := with_active (udecr (active s4)) s4 in
  Some (emit NotifyAll s5).

(** The loop of [get] from the call of [spawnOrUseExisting] on, [attempt]
    being the value after [attempt++].  [envs i] is what the [i]-th pass
    obtains from the collaborators. *)
Fixpoint get_loop (fuel : nat) (envs : nat → Env) (i : nat)
    (options : PoolOptions.t) (attempt : Z) (s : t)
  : option (t * GetResult) :=
  match fuel with
  | O => None
  | S fuel' =>
      '(s1, r) ← spawnOrUseExisting (envs i) options s;
      match r with
      | Throw e => Some (s1, Raised e)
      | Wait gq => Some (s1, Blocked attempt gq)
      | Selected w group =>
          match connect (envs i) w with
          | inr _ =>
              Some (with_sessions_open (w :: sessions_open s1) s1, Session w)
          | inl e =>
              s2 ← connect_failed options w group s1;
              if attempt =? MAX_GET_ATTEMPTS then
                Some (s2, Raised (IOException (connect_error_message options e)))
              else
                get_loop fuel' envs (S i) options (uincr attempt) s2
          end
      end
  end.

(** [get(options)] from its entry to the first release of the lock. *)
Definition get (envs : nat → Env) (options : PoolOptions.t) (s : t)
  : option (t * GetResult) :=
  get_loop (Z.to_nat MAX_GET_ATTEMPTS) envs 0 options (uincr 0) s.

(** [get] waking up from the wait it was blocked in: it had reached
    [attempt] and starts [spawnOrUseExisting] over. *)
Definition get_resume (envs : nat → Env) (options : PoolOptions.t)
    (attempt : Z) (globalQueue : bool) (s : t) : option (t * GetResult) :=
  let s0 := if globalQueue
            then with_waitingOnGlobalQueue (udecr (waitingOnGlobalQueue s)) s
            else s in
  get_loop (S (Z.to_nat (MAX_GET_ATTEMPTS - attempt))) envs 0 options attempt s0.

(** *** SessionCloseCallback::operator() *)

Definition sessionClose (now : Z) (w : nat) (s : t) : option t :=
  match weak_lock s w with
  | None => Some s
  | Some processInfo =>
      let key := Process.getAppRoot (ProcessInfo.process processInfo) in
      match groups s !! key with
      | None => Some s
      | Some group =>
          let p1 := set_processed (uincr (ProcessInfo.processed processInfo))
                      processInfo in
          let s1 := put_info w p1 s in
          if (0 <? Group.maxRequests group)
             && (Group.maxRequests group <=? ProcessInfo.processed p1) then
            let processes' := erase w (Group.processes group) in
            let s2 := put_group key
                        (set_size (udecr (Group.size group))
                           (set_processes processes' group)) s1 in
            let s3 := match processes' with
                      | [] => erase_group key s2
                      | _ => s2
                      end in
            let s4 := with_count (udecr (count s3)) s3 in
            let s5 := with_active (udecr (active s4)) s4 in
            Some (emit NotifyAll s5)
          else
            let p2 := set_lastUsed now p1 in
            let p3 := set_sessions (udecr (ProcessInfo.sessions p2)) p2 in
            let s2 := put_info w p3 s1 in
            if ProcessInfo.sessions p3 =? 0 then
              let processes' :=
                push_front w (erase w (Group.processes group)) in
              let s3 := put_group key (set_processes processes' group) s2 in
              let s4 := with_inactiveApps (push_back w (inactiveApps s3)) s3 in
              let s5 := with_active (udecr (active s4)) s4 in
              Some (emit NotifyAll s5)
            else Some s2
      end
  end.

(** *** cleanerThreadMainLoop: the pass after a timed-out wait *)

(** [maxIdleTime > 0 && now - lastUsed > (time_t) maxIdleTime] *)
Definition idle_too_long (s : t) (now : Z) (p : ProcessInfo.t) : bool :=
  (0 <? maxIdleTime s) && (maxIdleTime s <? now - ProcessInfo.lastUsed p).

(** Lines 391-415, [it] running over [inactiveApps]. *)
Fixpoint cleaner_loop (fuel : nat) (now : Z) (s : t) (it : iterator)
  : option t :=
  match it with
  | None => Some s
  | Some w =>
      match fuel with
      | O => None
      | S fuel' =>
          processInfo ← heap s !! w;
          let key := Process.getAppRoot (ProcessInfo.process processInfo) in
          group ← groups s !! key;
          let '(s1, it1, processes1) :=
            if idle_too_long s now processInfo then
              let processes' := erase w (Group.processes group) in
              let prev := decr (inactiveApps s) (Some w) in
              let group' := set_size (udecr (Group.size group))
                              (set_processes processes' group) in
              let sa := put_group key group' s in
              let sb := with_inactiveApps (erase w (inactiveApps sa)) sa in
              let sc := with_count (udecr (count sb)) sb in
              (sc, prev, processes')
            else (s, Some w, Group.processes group) in
          let s2 := match processes1 with
                    | [] => erase_group key s1
                    | _ => s1
                    end in
          cleaner_loop fuel' now s2 (incr (inactiveApps s2) it1)
      end
  end.

Definition cleanerPass (now : Z) (s : t) : option t :=
  cleaner_loop (S (length (inactiveApps s))) now s (begin (inactiveApps s)).

(** *** The facade *)

Definition clear (s : t) : t :=
  emit NotifyAll
    (with_active 0 (with_count 0
       (with_inactiveApps [] (with_groups ∅ s)))).

Definition setMaxIdleTime (seconds : Z) (s : t) : t :=
  emit NotifyCleaner (with_maxIdleTime seconds s).

Definition setMax (n : Z) (s : t) : t := emit NotifyAll (with_max n s).

Definition setMaxPerApp (n : Z) (s : t) : t :=
  emit NotifyAll (with_maxPerApp n s).

Definition getActive (s : t) : Z := active s.
Definition getCount (s : t) : Z := count s.

(** *** ProcessInfo::uptime *)

(** [stream << n] for an integer [n]: its decimal digits. *)
Definition show (n : Z) : string := NilZero.string_of_int (Z.to_int n).

(** [uptime()] called at time [now].  [/] and [%] on [time_t] round
    towards zero. *)
Definition uptime (now : Z) (p : ProcessInfo.t) : string :=
  let seconds := now - ProcessInfo.startTime p in
  let result := EmptyString in
  let '(seconds, result) :=
    if 60 <=? seconds then
      let minutes := Z.quot seconds 60 in
      let '(minutes, result) :=
        if 60 <=? minutes then
          let hours := Z.quot minutes 60 in
          (Z.rem minutes 60, result +:+ show hours +:+ "h ")
        else (minutes, result) in
      (Z.rem seconds 60, result +:+ show minutes +:+ "m ")
    else (seconds, result) in
  result +:+ show seconds +:+ "s".

(** *** verifyState, as compiled with PASSENGER_DEBUG

    [P_ASSERT(expr, false, message)] makes [verifyState] return [false]
    when [expr] does not hold.  [None] stands for the dereference of a
    record that is not there.  The groups are visited in the order of
    [map_to_list]; the order only decides which of several failed
    assertions is met first. *)

(** Lines 285-295.  [prev_lit] is set to [begin()] and never moved. *)
Fixpoint verify_order (s : t) (prev_lit : nat) (rest : list nat)
  : option bool :=
  match rest with
  | [] => Some true
  | lit :: rest' =>
      prev ← heap s !! prev_lit;
      if 0 <? ProcessInfo.sessions prev then
        p ← heap s !! lit;
        if 0 <? ProcessInfo.sessions p
        then verify_order s prev_lit rest'
        else Some false
      else verify_order s prev_lit rest'
  end.

(** Lines 272-296: the loop over [groups], with [totalSize]. *)
Fixpoint verify_groups (s : t) (l : list (string * Group.t)) (totalSize : Z)
  : option (bool * Z) :=
  match l with
  | [] => Some (true, totalSize)
  | (_, group) :: l' =>
      if negb (Group.size group <=? count s) then Some (false, totalSize)
      else
        let totalSize := wrap32 (totalSize + Group.size group) in
        match Group.processes group with
        | [] => Some (false, totalSize)
        | front :: rest =>
            ok ← verify_order s front rest;
            if ok : bool then verify_groups s l' totalSize
            else Some (false, totalSize)
        end
  end.

Definition verifyState (s : t) : option bool :=
  '(ok, totalSize) ← verify_groups s (map_to_list (groups s)) 0;
  if negb ok then Some false
  else if negb (totalSize =? count s) then Some false
  else if negb (active s <=? count s) then Some false
  else if negb (Z.of_nat (length (inactiveApps s))
                =? wrap32 (count s - active s)) then Some false
  else Some true.

(** The state [initialize] leaves behind. *)
Definition initial : t :=
  mk ∅ DEFAULT_MAX_POOL_SIZE 0 0 DEFAULT_MAX_INSTANCES_PER_APP []
     DEFAULT_MAX_IDLE_TIME 0 ∅ 0%nat [] [].

End Pool.

(** ** Operations under the lock, and the states they reach *)

Module Run.

Import StdList Pool.

(** The stretches of code that run between taking and releasing the lock:
    [get] from its entry, [get] waking up from a wait, a session close
    callback, [clear], the setters and a pass of the cleaner thread. *)
Inductive Op :=
| OpGet (envs : nat → Env) (options : PoolOptions.t)
| OpGetResume (envs : nat → Env) (options : PoolOptions.t)
    (attempt : Z) (globalQueue : bool)
| OpClose (now : Z) (w : nat)
| OpClear
| OpSetMax (n : Z)
| OpSetMaxPerApp (n : Z)
| OpSetMaxIdleTime (n : Z)
| OpClean (now : Z).

(** Closing a session runs its callback once, after which the session is
    gone. *)
Definition close (now : Z) (w : nat) (s : t) : option t :=
  sessionClose now w (with_sessions_open (erase w (sessions_open s)) s).

Definition run (op : Op) (s : t) : option t :=
  match op with
  | OpGet envs options => fst <$> get envs options s
  | OpGetResume envs options attempt gq =>
      fst <$> get_resume envs options attempt gq s
  | OpClose now w => close now w s
  | OpClear => Some (clear s)
  | OpSetMax n => Some (setMax n s)
  | OpSetMaxPerApp n => Some (setMaxPerApp n s)
  | OpSetMaxIdleTime n => Some (setMaxIdleTime n s)
  | OpClean now => cleanerPass now s
  end.

(** Room left in the 32-bit counters: fewer than [2^32 - 1] worker
    processes exist and fewer than [2^32 - 1] sessions are open. *)
Definition headroom (s : t) : Prop :=
  count s + 1 < UINT_MOD ∧
  Z.of_nat (length (sessions_open s)) + 1 < UINT_MOD.

(** When an operation can take place: [get] needs room in the counters, a
    resumed [get] carries the attempt number it was blocked with, and a
    close callback belongs to a session that is open. *)
Definition enabled (s : t) (op : Op) : Prop :=
  match op with
  | OpGet _ _ => headroom s
  | OpGetResume _ _ attempt _ =>
      headroom s ∧ 1 <= attempt <= MAX_GET_ATTEMPTS
  | OpClose _ w => w ∈ sessions_open s
  | _ => True
  end.

Inductive reachable : t → Prop :=
| reachable_initial : reachable initial
| reachable_step s op s' :
    reachable s → enabled s op → run op s = Some s' → reachable s'.

(** *** The state invariants *)

Definition sum_sizes (m : gmap string Group.t) : Z :=
  map_fold (λ _ g acc, Group.size g + acc) 0 m.

(** [w] sits in the list of some group. *)
Definition pooled (s : t) (w : nat) : Prop :=
  ∃ k g, groups s !! k = Some g ∧ w ∈ Group.processes g.

Definition idle (s : t) (w : nat) : Prop :=
  ∃ p, heap s !! w = Some p ∧ ProcessInfo.sessions p = 0.
Definition busy (s : t) (w : nat) : Prop :=
  ∃ p, heap s !! w = Some p ∧ 0 < ProcessInfo.sessions p.

(** All idle records come before all busy ones. *)
Definition idle_before_busy (s : t) (l : list nat) : Prop :=
  ∃ l1 l2, l = l1 ++ l2 ∧ Forall (idle s) l1 ∧ Forall (busy s) l2.


(** What is kept of every record of a group: it lives in the heap, belongs
    to the application the group is keyed by, and counts the open sessions
    that refer to it. *)
Definition record_ok (s : t) (k : string) (w : nat) : Prop :=
  ∃ p, heap s !! w = Some p
       ∧ Process.getAppRoot (ProcessInfo.process p) = k
       ∧ ProcessInfo.sessions p = Z.of_nat (count_occ Nat.eq_dec (sessions_open s) w).

Record group_ok (s : t) (k : string) (g : Group.t) : Prop := mkGroupOk {
  g_nonempty : Group.processes g ≠ [];
  g_nodup : NoDup (Group.processes g);
  g_size : Group.size g = Z.of_nat (length (Group.processes g));
  g_records : ∀ w, w ∈ Group.processes g → record_ok s k w;
  g_order : idle_before_busy s (Group.processes g)
}.

(** The inductive invariant: P1 to P4 strengthened by what the operations
    need to keep them. *)
Record Inv (s : t) : Prop := mkInv {
  inv_count : count s = sum_sizes (groups s);
  inv_count_lt : count s < UINT_MOD;
  inv_inactive_len : Z.of_nat (length (inactiveApps s)) = count s - active s;
  inv_active : 0 <= active s;
  inv_groups : ∀ k g, groups s !! k = Some g → group_ok s k g;
  inv_inactive_nodup : NoDup (inactiveApps s);
  inv_inactive : ∀ w, w ∈ inactiveApps s ↔ pooled s w ∧ idle s w;
  inv_fresh : ∀ w, pooled s w → (w < nextId s)%nat;
  inv_open_fresh : ∀ w, w ∈ sessions_open s → (w < nextId s)%nat;
  inv_open_len : Z.of_nat (length (sessions_open s)) < UINT_MOD
}.

(** The invariant only reads the pool's lists, counters and records. *)
Definition core (s : t) :=
  (groups s, count s, active s, inactiveApps s, heap s, nextId s,
   sessions_open s).

(** The size of the group at [k] before and after an update of it. *)
Definition old_size s k : Z := from_option Group.size 0 (groups s !! k).
Definition new_size (og : option Group.t) : Z := from_option Group.size 0 og.

(** The session count of a record, and the decidable form of [idle]. *)
Definition sessions_of (s : t) (w : nat) : option Z :=
  ProcessInfo.sessions <$> heap s !! w.
Definition is_idle (s : t) (w : nat) : Prop := sessions_of s w = Some 0.

#[global] Instance is_idle_dec s w : Decision (is_idle s w).
Proof. unfold is_idle. apply _. Defined.

(** *** What the restart purge amounts to *)

(** The pool after the group [g] at [k] has been purged: its idle records
    have left [inactiveApps], [active] has gone down by the number of its
    busy records, [count] by the number of its records, and the group is
    gone. *)
Definition purged (s : t) (k : string) (g : Group.t) : t :=
  with_count (count s - Z.of_nat (length (Group.processes g)))
    (with_active
       (active s
        - Z.of_nat (length (filter (λ w, ¬ is_idle s w) (Group.processes g))))
       (with_inactiveApps
          (filter (λ x, x ∉ Group.processes g) (inactiveApps s))
          (with_groups (delete k (groups s)) s))).

(** The pool after the restart pre-step has found that the application at
    [k] needs a restart. *)
Definition after_restart (s : t) (k : string) : t :=
  emit NotifyAll
    (emit (Reload k)
       match groups s !! k with
       | Some g => purged s k g
       | None => s
       end).

(** *** What a pass through [spawnOrUseExisting] leaves behind *)

(** The pool once the session on the selected record [w] is open. *)
Definition session_opened (w : nat) (s : t) : t :=
  with_sessions_open (w :: sessions_open s) s.

(** After a pass from [s] to [s1]: the invariant holds, for a selected
    record once its session is counted as open; the record sits in the
    group of the requested application; and [count] has grown by at most
    the one record spawned. *)
Definition pass_post (options : PoolOptions.t) (s : t) (r : PassResult)
    (s1 : t) : Prop :=
  sessions_open s1 = sessions_open s ∧
  match r with
  | Selected w k =>
      k = PoolOptions.appRoot options
      ∧ Inv (session_opened w s1)
      ∧ (∃ g, groups s1 !! k = Some g ∧ w ∈ Group.processes g)
      ∧ count s1 <= count s + 1
  | _ => Inv s1 ∧ count s1 <= count s
  end.

(** The session count of a record, 0 when there is no such record. *)
Definition sess (h : gmap nat ProcessInfo.t) (x : nat) : Z :=
  from_option ProcessInfo.sessions 0 (h !! x).

(** *** What a failed spawn leaves behind *)



(** *** What a pass of the cleaner amounts to *)

(** The record [w] has been idle for too long at time [now]. *)
Definition stale (s : t) (now : Z) (w : nat) : bool :=
  match heap s !! w with
  | Some p => idle_too_long s now p
  | None => false
  end.

(** A group after the records of [l] that are stale have left it; [None]
    when no record remains. *)
Definition reap_group (s : t) (now : Z) (l : list nat) (g : Group.t)
  : option Group.t :=
  let ps := filter (λ w, ¬ (w ∈ l ∧ stale s now w = true)) (Group.processes g) in
  match ps with
  | [] => None
  | _ => Some (Group.mk ps
                 (Group.size g
                  - (Z.of_nat (length (Group.processes g)) - Z.of_nat (length ps)))
                 (Group.maxRequests g))
  end.

(** The state after an iteration on a stale record. *)
Definition reaped (s : t) (k : string) (g : Group.t) (w : nat) : t :=
  with_count (count s - 1)
    (with_inactiveApps (erase w (inactiveApps s))
       (with_groups
          match erase w (Group.processes g) with
          | [] => delete k (groups s)
          | _ => <[k := Group.mk (erase w (Group.processes g))
                           (Group.size g - 1) (Group.maxRequests g)]> (groups s)
          end s)).

(** *** The request counters *)



(** *** The records of the pool *)


(** *** The limit on the records of one application *)

(** [maxPerApp] is respected: it is 0, which stands for no limit, or no
    group is larger. *)
Definition per_app_ok (s : t) : Prop :=
  maxPerApp s = 0
  ∨ ∀ k g, groups s !! k = Some g → Group.size g <= maxPerApp s.

(** From [s] to [s'] no group has appeared or grown. *)
Definition shrunk (s s' : t) : Prop :=
  ∀ k g', groups s' !! k = Some g' →
    ∃ g, groups s !! k = Some g ∧ Group.size g' <= Group.size g.

(** *** Records that are in use *)

(** Operations that have no reason to drop the record [x] while it has a
    session: a [get] that finds no restart requested and whose [connect]
    succeeds, the close callback of a session on another record, the
    setters and the cleaner; but not [clear]. *)
Definition spares (op : Op) (x : nat) : Prop :=
  match op with
  | OpGet envs options | OpGetResume envs options _ _ =>
      needsRestart (envs 0%nat) (PoolOptions.appRoot options) options = false
      ∧ ∀ w, connect (envs 0%nat) w = inr tt
  | OpClose _ w => w ≠ x
  | OpClear => False
  | _ => True
  end.

(** [x] sits in a group and has a session. *)
Definition in_use (s : t) (x : nat) : Prop := pooled s x ∧ busy s x.

(** *** The order of inactiveApps *)

(** [lastUsed] of the record [w]. *)
Definition last_used (s : t) (w : nat) : Z :=
  from_option ProcessInfo.lastUsed 0 (heap s !! w).

(** No element of the list has a larger [f] than one behind it. *)
Fixpoint ordered (f : nat → Z) (l : list nat) : Prop :=
  match l with
  | [] => True
  | a :: r => Forall (λ b, f a <= f b) r ∧ ordered f r
  end.

(** [inactiveApps] is in the order of [lastUsed], and no inactive record
    was used after [T]. *)
Definition lru (T : Z) (s : t) : Prop :=
  ordered (last_used s) (inactiveApps s)
  ∧ Forall (λ w, last_used s w <= T) (inactiveApps s).

(** From [s] to [s'] no record became inactive and the inactive records
    were not touched. *)
Definition idle_frame (s s' : t) : Prop :=
  inactiveApps s' `sublist_of` inactiveApps s
  ∧ ∀ x, x ∈ inactiveApps s' → heap s' !! x = heap s !! x.

(** *** Changes of active and max *)

(** From [s] to [s'] calls were made, and [notify_all] was among them
    unless [active] and [max] are what they were. *)
Definition signalled (s s' : t) : Prop :=
  ∃ tl, trace s' = trace s ++ tl
        ∧ ((active s' = active s ∧ max s' = max s) ∨ NotifyAll ∈ tl).

End Run.

(** ** Small pools used to exercise the theorems *)

Module Demo.

Import StdList Pool Run.

(** Collaborators: no restart file, a spawn service that answers with
    process [pid], and processes that accept connections. *)
Definition env_ok (pid now : Z) : Env :=
  mkEnv (λ _ _, -1) (λ _ _, false) (λ _, inr pid) (λ _, inr tt) now.


(** Processes that refuse connections. *)
Definition env_connect_fails (pid now : Z) : Env :=
  mkEnv (λ _ _, -1) (λ _ _, false) (λ _, inr pid)
    (λ _, inl (SystemException "connect() failed" "Connection refused")) now.

(** [always_restart.txt] exists. *)
Definition env_restart (pid now : Z) : Env :=
  mkEnv (λ _ _, 0) (λ _ _, false) (λ _, inr pid) (λ _, inr tt) now.

Definition optsA : PoolOptions.t := PoolOptions.mk "/app/a" "" 0 false 0.
Definition optsB : PoolOptions.t := PoolOptions.mk "/app/b" "" 0 false 0.
Definition optsA3 : PoolOptions.t := PoolOptions.mk "/app/a" "" 0 false 3.

Definition after (op : Op) (s : t) : t := from_option id s (run op s).

(** A pool of capacity 1. *)
Definition small : t := after (OpSetMax 1) initial.

(** One record for ["/app/a"], busy with one session. *)
Definition one_busy : t := after (OpGet (λ _, env_ok 100 5) optsA) small.

(** The session on it has been closed: the record is idle. *)
Definition one_idle : t := after (OpClose 7 0%nat) one_busy.


(** The default pool after two [get]s for ["/app/a"]: two busy records. *)
Definition two_busy : t :=
  after (OpGet (λ _, env_ok 101 6) optsA)
    (after (OpGet (λ _, env_ok 100 5) optsA) initial).

(** The session on the first record has been closed: an idle record in
    front of a busy one. *)
Definition idle_and_busy : t := after (OpClose 8 0%nat) two_busy.




(** A [get] for ["/app/a"] with [maxRequests = 3] followed by the close of
    the session on record 0. *)
Definition serve (s : t) : t :=
  after (OpClose 7 0%nat) (after (OpGet (λ _, env_ok 100 5) optsA3) s).


(** One busy record for ["/app/a"] in a pool that allows one record for
    each application. *)
Definition one_per_app : t :=
  after (OpGet (λ _, env_ok 100 5) optsA) (after (OpSetMaxPerApp 1) initial).

(** The same with [max] lowered to the two records the pool holds. *)
Definition idle_and_busy_full : t := after (OpSetMax 2) idle_and_busy.

End Demo.

(** ** Cgroup.cpp *)

Module Cgroup.

(** What libcgroup answers: the code [cgroup_init] returns, the group
    [cgroup_new_cgroup] allocates for a name ([None] is [NULL]), the codes
    [cgroup_get_cgroup] and [cgroup_attach_task] return for a group, and
    the text of an error code. *)
Record Lib := mkLib {
  cgroup_init : Z;
  cgroup_new_cgroup : string → option nat;
  cgroup_get_cgroup : nat → Z;
  cgroup_attach_task : nat → Z;
  cgroup_strerror : Z → string
}.

(** The calls into libcgroup and the texts printed to [stderr], in the
    order in which they happen. *)
Inductive Event :=
| Init
| New (cgname : string)
| Get (group : nat)
| Attach (group : nat)
| Free (group : option nat)
| Stderr (text : string).

Definition is_Stderr (e : Event) : bool :=
  match e with Stderr _ => true | _ => false end.

(** [freeControlGroup] *)
Definition freeControlGroup (mygroup : option nat) : list Event :=
  match mygroup with
  | Some g => [Free (Some g)]
  | None => []
  end.

(** [setControlGroup]: the [int] it returns and what it does. *)
Definition setControlGroup (lib : Lib) (cgname : string) : Z * list Event :=
  match cgroup_new_cgroup lib cgname with
  | None =>
      (1, [New cgname;
           Stderr ("*** ERROR ***: cannot allocate cgroup " +:+ cgname
                   +:+ " resources")])
  | Some mygroup =>
      let ret := cgroup_get_cgroup lib mygroup in
      if 0 <? ret then
        (1, [New cgname; Get mygroup;
             Stderr ("*** ERROR ***: cannot get cgroup " +:+ cgname +:+ ": "
                     +:+ cgroup_strerror lib ret)])
      else
        let ret := cgroup_attach_task lib mygroup in
        if 0 <? ret then
          (1, [New cgname; Get mygroup; Attach mygroup;
               Stderr ("*** ERROR ***: cannot assign to cgroup " +:+ cgname
                       +:+ ": " +:+ cgroup_strerror lib ret)])
        else
          (0, [New cgname; Get mygroup; Attach mygroup])
  end.

(** [initializeControlGroup]: the pointer it returns ([None] is [NULL])
    and what it does.  [mygroup] is the value the uninitialised local
    variable happens to hold when [cgroup_free(&mygroup)] is reached; the
    call of [setControlGroup] is commented out in the source. *)
Definition initializeControlGroup (lib : Lib) (cgname : string)
    (mygroup : option nat) : option nat * list Event :=
  let ret := cgroup_init lib in
  if 0 <? ret then
    (None, [Init;
            Stderr ("*** ERROR ***: failed to initialize cgroup: "
                    +:+ cgroup_strerror lib ret)])
  else
    (None, [Init; Free mygroup]).

End Cgroup.

(** ** Facts about the list model *)

Section list_facts.
Import StdList.
Implicit Types (l pre post : list nat) (w x : nat).

Lemma erase_not_in w l : w ∉ l → erase w l = l.
Proof.
  induction l as [|x l IH]; simpl; [done|].
  intros Hn. apply not_elem_of_cons in Hn as [Hne Hn].
  destruct (decide (x = w)); [congruence|]. by rewrite IH.
Qed.

Lemma erase_cons_eq w l : erase w (w :: l) = l.
Proof. simpl. by rewrite decide_True. Qed.

Lemma erase_app_r w pre post :
  w ∉ pre → erase w (pre ++ w :: post) = pre ++ post.
Proof.
  induction pre as [|x pre IH]; simpl; intros Hn.
  - by rewrite decide_True.
  - apply not_elem_of_cons in Hn as [Hne Hn].
    rewrite decide_False by congruence. by rewrite IH.
Qed.

Lemma erase_perm w l : w ∈ l → l ≡ₚ w :: erase w l.
Proof.
  induction l as [|x l IH]; simpl; intros Hin; [by apply elem_of_nil in Hin|].
  destruct (decide (x = w)) as [->|Hne]; [done|].
  apply elem_of_cons in Hin as [->|Hin]; [done|].
  rewrite (IH Hin) at 1. apply Permutation_swap.
Qed.

Lemma erase_length w l :
  w ∈ l → length l = S (length (erase w l)).
Proof. intros Hin. by rewrite (erase_perm w l Hin) at 1. Qed.

Lemma erase_subseteq w l x : x ∈ erase w l → x ∈ l.
Proof.
  induction l as [|y l IH]; simpl; [done|].
  destruct (decide (y = w)); rewrite !elem_of_cons; tauto.
Qed.

Lemma NoDup_erase w l : NoDup l → NoDup (erase w l).
Proof.
  induction 1 as [|y l Hy Hl IH]; simpl; [constructor|].
  destruct (decide (y = w)); [done|].
  constructor; [|done]. intros Hin. by apply erase_subseteq in Hin.
Qed.

Lemma elem_of_erase w l x :
  NoDup l → x ∈ erase w l ↔ x ∈ l ∧ x ≠ w.
Proof.
  induction 1 as [|y l Hy Hl IH]; simpl.
  - split; [by intros ?%elem_of_nil | by intros [?%elem_of_nil _]].
  - destruct (decide (y = w)) as [->|Hne].
    + rewrite elem_of_cons. split; [|tauto].
      intros Hx. split; [by right|]. by intros ->.
    + rewrite !elem_of_cons, IH. intuition congruence.
Qed.

Lemma erase_filter w l :
  NoDup l → erase w l = filter (λ x, x ≠ w) l.
Proof.
  induction 1 as [|y l Hy Hl IH]; simpl; [done|].
  destruct (decide (y = w)) as [->|Hne].
  - rewrite filter_cons_False by (intros H; by apply H).
    symmetry. rewrite <- (erase_not_in w l Hy) at 2.
    rewrite <- IH. by rewrite erase_not_in.
  - rewrite filter_cons_True by done. by rewrite IH.
Qed.

Lemma prev_of_app p w pre post :
  w ∉ pre →
  prev_of p (pre ++ w :: post) w =
    match last pre with Some x => Some x | None => p end.
Proof.
  revert p. induction pre as [|x pre IH]; simpl; intros p Hn.
  - by rewrite decide_True.
  - apply not_elem_of_cons in Hn as [Hne Hn].
    rewrite decide_False by congruence. rewrite IH by done.
    destruct pre as [|y pre]; [done|].
    change (last (x :: y :: pre)) with (last (y :: pre)).
    destruct (last (y :: pre)) eqn:E; [done|].
    by apply last_None in E.
Qed.

Lemma decr_app w pre post :
  w ∉ pre → decr (pre ++ w :: post) (Some w) = last pre.
Proof.
  intros Hn. unfold decr. rewrite prev_of_app by done.
  by destruct (last pre).
Qed.

Lemma decr_head w l : decr (w :: l) (Some w) = None.
Proof. apply (decr_app w [] l). apply not_elem_of_nil. Qed.

Lemma next_of_app w pre post :
  w ∉ pre → next_of (pre ++ w :: post) w = head post.
Proof.
  induction pre as [|x pre IH]; simpl; intros Hn.
  - by rewrite decide_True.
  - apply not_elem_of_cons in Hn as [Hne Hn].
    rewrite decide_False by congruence. by apply IH.
Qed.

Lemma incr_after w pre post :
  w ∉ pre → incr (pre ++ w :: post) (Some w) = head post.
Proof. apply next_of_app. Qed.

(** Stepping forward from the node before an erased one lands on the node
    after it. *)
Lemma incr_last pre post :
  NoDup pre → incr (pre ++ post) (last pre) = head post.
Proof.
  intros Hnd. destruct (last pre) as [x|] eqn:E.
  - apply last_Some in E as [pre' ->].
    apply NoDup_app in Hnd as (_ & Hd & _).
    simpl. rewrite <- app_assoc. simpl. apply next_of_app.
    intros Hin. apply (Hd x Hin). set_solver.
  - apply last_None in E as ->. done.
Qed.

End list_facts.

(** ** Sums of group sizes *)

Section sum_facts.
Import StdList Pool Run.
Implicit Types (m : gmap string Group.t) (g : Group.t) (k : string).

Lemma sum_sizes_empty : sum_sizes ∅ = 0.
Proof. apply map_fold_empty. Qed.

Lemma sum_sizes_insert_new m k g :
  m !! k = None → sum_sizes (<[k := g]> m) = Group.size g + sum_sizes m.
Proof.
  intros Hk. unfold sum_sizes.
  rewrite map_fold_insert_L; [done| |done]. intros; lia.
Qed.

Lemma sum_sizes_delete m k g :
  m !! k = Some g → sum_sizes (delete k m) = sum_sizes m - Group.size g.
Proof.
  intros Hk. unfold sum_sizes.
  rewrite (map_fold_delete_L _ _ k g m); [lia| |done]. intros; lia.
Qed.

Lemma sum_sizes_insert m k g g' :
  m !! k = Some g →
  sum_sizes (<[k := g']> m) = sum_sizes m - Group.size g + Group.size g'.
Proof.
  intros Hk. rewrite <- insert_delete_eq.
  rewrite sum_sizes_insert_new by apply lookup_delete_eq.
  rewrite (sum_sizes_delete m k g Hk). lia.
Qed.

(** Pairwise distinct records that all sit in groups are at most as many
    as the group sizes add up to. *)
Lemma pooled_length m (l : list nat) :
  (∀ k g, m !! k = Some g → Group.size g = Z.of_nat (length (Group.processes g))) →
  NoDup l →
  (∀ w, w ∈ l → ∃ k g, m !! k = Some g ∧ w ∈ Group.processes g) →
  Z.of_nat (length l) <= sum_sizes m.
Proof.
  revert l. induction m as [|k g m Hk IH] using map_ind; intros l Hsz Hnd Hin.
  - destruct l as [|w l]; [rewrite sum_sizes_empty; simpl; lia|].
    destruct (Hin w) as (k & g & Hg & _); [left|]. by rewrite lookup_empty in Hg.
  - rewrite sum_sizes_insert_new by done.
    pose (inb := λ w : nat, w ∈ Group.processes g).
    assert (length l = length (filter inb l) + length (filter (λ w, ¬ inb w) l))%nat
      as Hsplit.
    { clear. induction l as [|x l IHl]; [done|].
      destruct (decide (inb x)).
      - rewrite (filter_cons_True inb), (filter_cons_False (λ w, ¬ inb w)) by tauto.
        simpl. lia.
      - rewrite (filter_cons_False inb), (filter_cons_True (λ w, ¬ inb w)) by tauto.
        simpl. lia. }
    assert (length (filter inb l) ≤ length (Group.processes g))%nat as H1.
    { apply submseteq_length, NoDup_submseteq; [by apply NoDup_filter|].
      intros x Hx. by apply list_elem_of_filter in Hx as [Hx _]. }
    assert (Z.of_nat (length (filter (λ w, ¬ inb w) l)) <= sum_sizes m) as H2.
    { apply IH.
      - intros k' g' Hg'. apply (Hsz k' g').
        rewrite lookup_insert_ne; [done|]. intros ->. congruence.
      - by apply NoDup_filter.
      - intros w Hw. apply list_elem_of_filter in Hw as [Hnin Hw].
        destruct (Hin w Hw) as (k' & g' & Hg' & Hwg').
        destruct (decide (k = k')) as [<-|Hne].
        + rewrite lookup_insert_eq in Hg'. by simplify_eq.
        + rewrite lookup_insert_ne in Hg' by done. eauto. }
    rewrite (Hsz k g) by apply lookup_insert_eq. lia.
Qed.

Lemma sum_sizes_nonneg m :
  (∀ k g, m !! k = Some g → 0 <= Group.size g) → 0 <= sum_sizes m.
Proof.
  induction m as [|k g m Hk IH] using map_ind; intros Hsz.
  - by rewrite sum_sizes_empty.
  - rewrite sum_sizes_insert_new by done.
    assert (0 <= Group.size g) by (apply (Hsz k); apply lookup_insert_eq).
    assert (0 <= sum_sizes m); [|lia].
    apply IH. intros k' g' Hg'. apply (Hsz k').
    rewrite lookup_insert_ne; [done|]. intros ->. congruence.
Qed.

End sum_facts.

(** ** Consequences of the invariant *)

Section inv_facts.
Import StdList Pool Run.
Implicit Types (s : t) (g : Group.t) (k : string) (w : nat).

Lemma wrap32_small x : 0 <= x < UINT_MOD → wrap32 x = x.
Proof. intros. unfold wrap32. by apply Z.mod_small. Qed.

Lemma uincr_small x : 0 <= x → x + 1 < UINT_MOD → uincr x = x + 1.
Proof. intros. unfold uincr. apply wrap32_small. lia. Qed.

Lemma udecr_small x : 0 < x → x <= UINT_MOD → udecr x = x - 1.
Proof. intros. unfold udecr. apply wrap32_small. lia. Qed.

Lemma UINT_MOD_val : UINT_MOD = 4294967296.
Proof. reflexivity. Qed.

Lemma idle_ext s s' w : heap s' !! w = heap s !! w → idle s w → idle s' w.
Proof. intros E (p & Hp & Hs). exists p. by rewrite E. Qed.

Lemma busy_ext s s' w : heap s' !! w = heap s !! w → busy s w → busy s' w.
Proof. intros E (p & Hp & Hs). exists p. by rewrite E. Qed.

Lemma idle_before_busy_ext s s' l :
  (∀ w, w ∈ l → heap s' !! w = heap s !! w) →
  idle_before_busy s l → idle_before_busy s' l.
Proof.
  intros E (l1 & l2 & -> & H1 & H2). exists l1, l2. split; [done|].
  rewrite Forall_forall in H1, H2 |- *. rewrite Forall_forall.
  split; intros w Hw.
  - apply (idle_ext s); [|by apply H1]. apply E. apply elem_of_app. by left.
  - apply (busy_ext s); [|by apply H2]. apply E. apply elem_of_app. by right.
Qed.

(** A group only depends on the records it lists. *)
Lemma group_ok_ext s s' k g :
  (∀ w, w ∈ Group.processes g → heap s' !! w = heap s !! w) →
  (∀ w, w ∈ Group.processes g →
     count_occ Nat.eq_dec (sessions_open s') w
     = count_occ Nat.eq_dec (sessions_open s) w) →
  group_ok s k g → group_ok s' k g.
Proof.
  intros Eh Eo [Hne Hnd Hsz Hrec Hord]. constructor; try done.
  - intros w Hw. destruct (Hrec w Hw) as (p & Hp & Hk & Hs).
    exists p. by rewrite Eh, Eo.
  - by apply (idle_before_busy_ext s).
Qed.

Lemma Inv_core s s' : core s = core s' → Inv s → Inv s'.
Proof.
  destruct s, s'. unfold core. simpl. intros [= -> -> -> -> -> -> ->] [].
  constructor; try assumption.
  intros k g Hg. eapply group_ok_ext; [| |by eauto]; done.
Qed.

Lemma Inv_emit e s : Inv s → Inv (emit e s).
Proof. by apply Inv_core. Qed.

Lemma pooled_intro s k g w :
  groups s !! k = Some g → w ∈ Group.processes g → pooled s w.
Proof. intros. by exists k, g. Qed.

Lemma record_of s k g w :
  Inv s → groups s !! k = Some g → w ∈ Group.processes g → record_ok s k w.
Proof. intros HI Hg Hw. by apply (g_records s k g (inv_groups s HI k g Hg)). Qed.

(** A pooled record sits in the group its process names. *)
Lemma pooled_group s w p :
  Inv s → pooled s w → heap s !! w = Some p →
  ∃ g, groups s !! Process.getAppRoot (ProcessInfo.process p) = Some g
       ∧ w ∈ Group.processes g.
Proof.
  intros HI (k & g & Hg & Hw) Hp.
  destruct (record_of s k g w HI Hg Hw) as (p' & Hp' & Hk & _).
  simplify_eq. eauto.
Qed.

Lemma pooled_heap s w :
  Inv s → pooled s w → is_Some (heap s !! w).
Proof.
  intros HI (k & g & Hg & Hw).
  destruct (record_of s k g w HI Hg Hw) as (p' & Hp' & _). eauto.
Qed.

Lemma owned_pooled s w : Inv s → owned s w ↔ pooled s w.
Proof.
  intros HI. unfold owned. split.
  - intros [Hin|Hex].
    + by apply (inv_inactive s HI) in Hin as [? _].
    + apply map_Exists_lookup in Hex as (k & g & Hg & Hw). by exists k, g.
  - intros (k & g & Hg & Hw). right. apply map_Exists_lookup. eauto.
Qed.

Lemma weak_lock_pooled s w :
  Inv s → pooled s w → weak_lock s w = heap s !! w.
Proof.
  intros HI Hp. unfold weak_lock. rewrite decide_True; [done|].
  by apply owned_pooled.
Qed.


Lemma group_size_pos s k g :
  Inv s → groups s !! k = Some g → 0 < Group.size g.
Proof.
  intros HI Hg. destruct (inv_groups s HI k g Hg) as [Hne _ Hsz _ _].
  rewrite Hsz. destruct (Group.processes g); [done|simpl; lia].
Qed.

Lemma group_size_le_count s k g :
  Inv s → groups s !! k = Some g → Group.size g <= count s.
Proof.
  intros HI Hg. rewrite (inv_count s HI).
  rewrite <- (insert_id (groups s) k g Hg), <- insert_delete_eq.
  rewrite sum_sizes_insert_new by apply lookup_delete_eq.
  assert (0 <= sum_sizes (delete k (groups s))); [|lia].
  apply sum_sizes_nonneg. intros k' g' Hg'.
  apply lookup_delete_Some in Hg' as [_ Hg'].
  pose proof (group_size_pos s k' g' HI Hg'). lia.
Qed.

Lemma count_pos s k g : Inv s → groups s !! k = Some g → 0 < count s.
Proof.
  intros HI Hg. pose proof (group_size_pos s k g HI Hg).
  pose proof (group_size_le_count s k g HI Hg). lia.
Qed.

Lemma active_le_count s : Inv s → active s <= count s.
Proof. intros HI. pose proof (inv_inactive_len s HI). lia. Qed.

Lemma sessions_range s k w p :
  Inv s → record_ok s k w → heap s !! w = Some p →
  0 <= ProcessInfo.sessions p < UINT_MOD.
Proof.
  intros HI (p' & Hp' & _ & Hs) Hp. simplify_eq. rewrite Hs.
  pose proof (inv_open_len s HI).
  pose proof (count_occ_bound Nat.eq_dec w (sessions_open s)). lia.
Qed.

(** A busy record of the pool is counted by [active]. *)
Lemma busy_active_pos s w :
  Inv s → pooled s w → busy s w → 0 < active s.
Proof.
  intros HI Hp (p & Hh & Hs).
  assert (w ∉ inactiveApps s) as Hn.
  { intros Hin. apply (inv_inactive s HI) in Hin as [_ (p' & Hh' & Hs')].
    simplify_eq. lia. }
  assert (Z.of_nat (length (w :: inactiveApps s)) <= sum_sizes (groups s)) as Hl.
  { apply pooled_length.
    - intros k g Hg. apply (g_size s k g). by apply inv_groups.
    - constructor; [done|]. by apply inv_inactive_nodup.
    - intros x [->|Hx]%elem_of_cons; [done|].
      by apply (inv_inactive s HI) in Hx as [? _]. }
  simpl length in Hl. pose proof (inv_inactive_len s HI).
  pose proof (inv_count s HI). lia.
Qed.


End inv_facts.

(** ** Re-establishing the invariant after a change to one group *)

Section inv_update.
Import StdList Pool Run.
Implicit Types (s : t) (g : Group.t) (k : string) (w : nat).

(** Records of two different groups are different. *)
Lemma groups_disjoint s k k' g g' w :
  Inv s → groups s !! k = Some g → groups s !! k' = Some g' →
  w ∈ Group.processes g → w ∈ Group.processes g' → k = k'.
Proof.
  intros HI Hg Hg' Hw Hw'.
  destruct (record_of s k g w HI Hg Hw) as (p & Hp & Hk & _).
  destruct (record_of s k' g' w HI Hg' Hw') as (p' & Hp' & Hk' & _).
  congruence.
Qed.

Lemma Inv_update s s' k (og : option Group.t) :
  Inv s →
  groups s' = match og with
              | Some g' => <[k := g']> (groups s)
              | None => delete k (groups s)
              end →
  (∀ k' g' x, k' ≠ k → groups s !! k' = Some g' → x ∈ Group.processes g' →
     heap s' !! x = heap s !! x
     ∧ count_occ Nat.eq_dec (sessions_open s') x
       = count_occ Nat.eq_dec (sessions_open s) x) →
  (∀ g', og = Some g' → group_ok s' k g') →
  count s' = count s - old_size s k + new_size og →
  count s' < UINT_MOD →
  Z.of_nat (length (inactiveApps s')) = count s' - active s' →
  0 <= active s' →
  NoDup (inactiveApps s') →
  (∀ x, x ∈ inactiveApps s' ↔
        (x ∈ inactiveApps s ∧ ∀ g, groups s !! k = Some g → x ∉ Group.processes g)
        ∨ (∃ g', og = Some g' ∧ x ∈ Group.processes g' ∧ idle s' x)) →
  (nextId s ≤ nextId s')%nat →
  (∀ g' x, og = Some g' → x ∈ Group.processes g' → (x < nextId s')%nat) →
  (∀ x, x ∈ sessions_open s' → (x < nextId s')%nat) →
  Z.of_nat (length (sessions_open s')) < UINT_MOD →
  Inv s'.
Proof.
  intros HI Hgr Hother Hnew Hcount Hlt Hlen Hact Hnd Hina Hnext Hfresh Hopen Holen.
  assert (∀ k' g', k' ≠ k → groups s' !! k' = Some g' ↔ groups s !! k' = Some g')
    as Hlook_ne.
  { intros k' g' Hne. rewrite Hgr. destruct og.
    - by rewrite lookup_insert_ne.
    - by rewrite lookup_delete_ne. }
  assert (groups s' !! k = og) as Hlook_eq.
  { rewrite Hgr. destruct og; [apply lookup_insert_eq | apply lookup_delete_eq]. }
  constructor; try done.
  - (* count *)
    rewrite Hcount, Hgr, (inv_count s HI). unfold old_size, new_size.
    destruct (groups s !! k) as [g|] eqn:Hg; destruct og as [g'|]; simpl.
    + rewrite (sum_sizes_insert _ k g g' Hg). lia.
    + rewrite (sum_sizes_delete _ k g Hg). lia.
    + rewrite (sum_sizes_insert_new _ k g' Hg). lia.
    + rewrite delete_id by done. lia.
  - (* groups *)
    intros k' g' Hg'. destruct (decide (k' = k)) as [->|Hne].
    + apply Hnew. congruence.
    + apply Hlook_ne in Hg'; [|done].
      apply (group_ok_ext s); [| |by apply inv_groups].
      * intros x Hx. by apply (Hother k' g' x).
      * intros x Hx. by apply (Hother k' g' x).
  - (* inactive *)
    intros x. rewrite Hina. split.
    + intros [[Hin Hnk]|(g' & -> & Hx & Hidle)].
      * apply (inv_inactive s HI) in Hin as [(k' & g' & Hg' & Hx) Hidle].
        assert (k' ≠ k) as Hne by (intros ->; by apply (Hnk g')).
        split.
        -- exists k', g'. split; [by apply Hlook_ne|done].
        -- apply (idle_ext s); [|done]. by apply (Hother k' g' x).
      * split; [|done]. exists k, g'. done.
    + intros [(k' & g' & Hg' & Hx) Hidle].
      destruct (decide (k' = k)) as [->|Hne].
      * right. exists g'. split; [congruence|done].
      * left. apply Hlook_ne in Hg'; [|done]. split.
        -- apply (inv_inactive s HI). split; [by exists k', g'|].
           apply (idle_ext s'); [|done]. symmetry. by apply (Hother k' g' x).
        -- intros g Hg Hxg. apply Hne.
           by apply (groups_disjoint s k' k g' g x).
  - (* fresh *)
    intros x (k' & g' & Hg' & Hx). destruct (decide (k' = k)) as [->|Hne].
    + apply (Hfresh g'); [congruence|done].
    + apply Hlook_ne in Hg'; [|done].
      assert (x < nextId s)%nat; [|lia].
      apply (inv_fresh s HI). by exists k', g'.
Qed.

End inv_update.

(** ** More list facts used by the operations *)

Section more_list_facts.
Import StdList Pool Run.
Implicit Types (s : t) (g : Group.t) (k : string) (w x : nat) (l : list nat).

Lemma count_occ_erase_eq w l :
  w ∈ l →
  count_occ Nat.eq_dec l w = S (count_occ Nat.eq_dec (erase w l) w).
Proof.
  intros Hin.
  rewrite (proj1 (Permutation_count_occ Nat.eq_dec l (w :: erase w l))
             (erase_perm w l Hin) w).
  by rewrite count_occ_cons_eq.
Qed.

Lemma count_occ_erase_ne w x l :
  x ≠ w → count_occ Nat.eq_dec (erase w l) x = count_occ Nat.eq_dec l x.
Proof.
  intros Hne. destruct (decide (w ∈ l)) as [Hin|Hn].
  - rewrite (proj1 (Permutation_count_occ Nat.eq_dec l (w :: erase w l))
               (erase_perm w l Hin) x).
    by rewrite count_occ_cons_neq.
  - by rewrite erase_not_in.
Qed.

Lemma erase_length_le w l : (length (erase w l) ≤ length l)%nat.
Proof.
  destruct (decide (w ∈ l)) as [Hin|Hn].
  - rewrite (erase_length w l Hin). lia.
  - by rewrite erase_not_in.
Qed.

Lemma erase_app_l w l1 l2 :
  w ∈ l1 → erase w (l1 ++ l2) = erase w l1 ++ l2.
Proof.
  induction l1 as [|x l1 IH]; simpl; intros Hin; [by apply elem_of_nil in Hin|].
  destruct (decide (x = w)); [done|].
  apply elem_of_cons in Hin as [->|Hin]; [done|]. by rewrite IH.
Qed.

Lemma erase_app_notin w l1 l2 :
  w ∉ l1 → erase w (l1 ++ l2) = l1 ++ erase w l2.
Proof.
  induction l1 as [|x l1 IH]; simpl; intros Hn; [done|].
  apply not_elem_of_cons in Hn as [Hne Hn].
  rewrite decide_False by congruence. by rewrite IH.
Qed.

Lemma Forall_erase (P : nat → Prop) w l : Forall P l → Forall P (erase w l).
Proof.
  rewrite !Forall_forall. intros H x Hx. apply H. by apply erase_subseteq in Hx.
Qed.

Lemma idle_before_busy_erase s w l :
  idle_before_busy s l → idle_before_busy s (erase w l).
Proof.
  intros (l1 & l2 & -> & H1 & H2). destruct (decide (w ∈ l1)) as [Hin|Hn].
  - rewrite erase_app_l by done. exists (erase w l1), l2.
    split; [done|]. split; [by apply Forall_erase|done].
  - rewrite erase_app_notin by done. exists l1, (erase w l2).
    split; [done|]. split; [done|by apply Forall_erase].
Qed.

Lemma idle_not_busy s w : idle s w → busy s w → False.
Proof. intros (p & Hp & Hs) (p' & Hp' & Hs'). simplify_eq. lia. Qed.

End more_list_facts.

(** ** The session close callback keeps the invariant *)

Section close_inv.
Import StdList Pool Run.
Implicit Types (s : t) (g : Group.t) (k : string) (w x : nat) (l : list nat).

(** Changes to records outside the pool and to sessions on them do not
    matter. *)
Lemma Inv_frame s s' :
  Inv s →
  groups s' = groups s → count s' = count s → active s' = active s →
  inactiveApps s' = inactiveApps s → (nextId s ≤ nextId s')%nat →
  (∀ x, pooled s x → heap s' !! x = heap s !! x
     ∧ count_occ Nat.eq_dec (sessions_open s') x
       = count_occ Nat.eq_dec (sessions_open s) x) →
  (∀ x, x ∈ sessions_open s' → (x < nextId s')%nat) →
  Z.of_nat (length (sessions_open s')) < UINT_MOD →
  Inv s'.
Proof.
  intros HI Hg Hc Ha Hi Hn Hx Hof Hol.
  assert (∀ x, pooled s' x ↔ pooled s x) as Hpool.
  { intros x. unfold pooled. by rewrite Hg. }
  constructor; rewrite ?Hg, ?Hc, ?Ha, ?Hi; try done; try apply HI.
  - intros k g Hk. apply (group_ok_ext s); [| |by apply inv_groups].
    + intros x Hin. apply Hx. by exists k, g.
    + intros x Hin. apply Hx. by exists k, g.
  - intros x. rewrite (inv_inactive s HI), Hpool. split.
    + intros [Hp Hidle]. split; [done|]. apply (idle_ext s); [|done]. by apply Hx.
    + intros [Hp Hidle]. split; [done|]. apply (idle_ext s'); [|done].
      symmetry. by apply Hx.
  - intros x Hp. apply Hpool in Hp. pose proof (inv_fresh s HI x Hp). lia.
Qed.

(** Taking one record out of its group, the group going away with its
    last record. *)
Lemma Inv_remove s s' k g w :
  Inv s → groups s !! k = Some g → w ∈ Group.processes g →
  groups s' = match erase w (Group.processes g) with
              | [] => delete k (groups s)
              | _ => <[k := Group.mk (erase w (Group.processes g))
                               (Group.size g - 1) (Group.maxRequests g)]>
                       (groups s)
              end →
  count s' = count s - 1 →
  (busy s w ∧ active s' = active s - 1 ∧ inactiveApps s' = inactiveApps s)
  ∨ (idle s w ∧ active s' = active s
     ∧ inactiveApps s' = erase w (inactiveApps s)) →
  nextId s' = nextId s →
  (∀ x, x ≠ w → heap s' !! x = heap s !! x) →
  (∀ x, x ≠ w → count_occ Nat.eq_dec (sessions_open s') x
                = count_occ Nat.eq_dec (sessions_open s) x) →
  (∀ x, x ∈ sessions_open s' → (x < nextId s')%nat) →
  Z.of_nat (length (sessions_open s')) < UINT_MOD →
  Inv s'.
Proof.
  intros HI Hg Hw Hgr Hc Hcase Hn Hheap Hocc Hof Hol.
  destruct (inv_groups s HI k g Hg) as [Hne Hnd Hsz Hrec Hord].
  pose proof (count_pos s k g HI Hg) as Hcpos.
  pose proof (inv_count_lt s HI) as Hclt.
  pose proof (inv_inactive_len s HI) as Hilen.
  pose proof (inv_active s HI) as Hapos.
  pose proof (erase_length w _ Hw) as Hlen.
  set (og := match erase w (Group.processes g) with
             | [] => None
             | _ => Some (Group.mk (erase w (Group.processes g))
                            (Group.size g - 1) (Group.maxRequests g))
             end).
  assert (∀ g', og = Some g' →
            Group.processes g' = erase w (Group.processes g)
            ∧ Group.size g' = Group.size g - 1) as Hog.
  { intros g'. unfold og. destruct (erase w (Group.processes g)); [done|].
    by intros [= <-]. }
  assert (∀ x, x ∈ erase w (Group.processes g) → ∃ g', og = Some g') as Hog'.
  { intros x. unfold og. destruct (erase w (Group.processes g)); [|by eauto].
    by intros ?%elem_of_nil. }
  assert (w ∈ inactiveApps s ↔ idle s w) as Hwin.
  { rewrite (inv_inactive s HI). split; [tauto|]. intros. split; [|done].
    by exists k, g. }
  apply (Inv_update s s' k og); try done; try lia.
  - rewrite Hgr. subst og. by destruct (erase w (Group.processes g)).
  - intros k' g' x Hne' Hg' Hx.
    assert (x ≠ w) by (intros ->; by apply Hne', (groups_disjoint s k' k g' g w)).
    split; [by apply Hheap | by apply Hocc].
  - intros g' Hg'. destruct (Hog g' Hg') as [Hps Hsize].
    constructor; rewrite ?Hps, ?Hsize.
    + subst og. by destruct (erase w (Group.processes g)).
    + by apply NoDup_erase.
    + lia.
    + intros x Hx. apply elem_of_erase in Hx as [Hx Hxw]; [|done].
      destruct (Hrec x Hx) as (p & Hp & Hk & Hs). exists p.
      by rewrite Hheap, Hocc.
    + apply (idle_before_busy_ext s).
      * intros x Hx. apply elem_of_erase in Hx as [Hx Hxw]; [|done].
        by apply Hheap.
      * by apply idle_before_busy_erase.
  - rewrite Hc. unfold old_size, new_size. rewrite Hg. simpl.
    subst og. destruct (erase w (Group.processes g)); simpl in *; lia.
  - destruct Hcase as [(Hb & Ha & Hi)|(Hi & Ha & Hin)].
    + rewrite Hi, Ha. lia.
    + rewrite Hin, Ha. apply Hwin in Hi.
      pose proof (erase_length w _ Hi). lia.
  - destruct Hcase as [(Hb & Ha & Hi)|(Hi & Ha & Hin)]; [|lia].
    assert (0 < active s); [|lia]. apply (busy_active_pos s w); try done.
    by exists k, g.
  - destruct Hcase as [(Hb & Ha & Hi)|(Hi & Ha & Hin)].
    + rewrite Hi. by apply inv_inactive_nodup.
    + rewrite Hin. by apply NoDup_erase, inv_inactive_nodup.
  - intros x.
    assert (x ∈ inactiveApps s' ↔ x ∈ inactiveApps s ∧ x ≠ w) as ->.
    { destruct Hcase as [(Hb & Ha & Hi)|(Hi & Ha & Hin)].
      - rewrite Hi. split; [|tauto]. intros Hx. split; [done|]. intros ->.
        apply Hwin in Hx. by apply (idle_not_busy s w).
      - rewrite Hin. apply elem_of_erase. by apply inv_inactive_nodup. }
    split.
    + intros [Hx Hxw]. destruct (decide (x ∈ Group.processes g)) as [Hxg|Hxg].
      * right. assert (x ∈ erase w (Group.processes g)) as Hxe
          by (by apply elem_of_erase).
        destruct (Hog' x Hxe) as [g' Hg']. exists g'.
        destruct (Hog g' Hg') as [-> _]. split; [done|]. split; [done|].
        apply (idle_ext s); [by apply Hheap|].
        by apply (inv_inactive s HI) in Hx as [_ ?].
      * left. split; [done|]. intros g0 Hg0. by simplify_eq.
    + intros [[Hx Hxg]|(g' & Hg' & Hx & Hidle)].
      * split; [done|]. intros ->. by apply (Hxg g).
      * destruct (Hog g' Hg') as [Hps _]. rewrite Hps in Hx.
        apply elem_of_erase in Hx as [Hx Hxw]; [|done]. split; [|done].
        apply (inv_inactive s HI). split; [by exists k, g|].
        apply (idle_ext s'); [|done]. symmetry. by apply Hheap.
  - intros g' x Hg' Hx. destruct (Hog g' Hg') as [Hps _]. rewrite Hps in Hx.
    apply erase_subseteq in Hx. rewrite Hn. apply (inv_fresh s HI).
    by exists k, g.
Qed.

Lemma idle_before_busy_status s s' l :
  (∀ x, x ∈ l → (idle s x → idle s' x) ∧ (busy s x → busy s' x)) →
  idle_before_busy s l → idle_before_busy s' l.
Proof.
  intros E (l1 & l2 & -> & H1 & H2). exists l1, l2. split; [done|].
  rewrite Forall_forall in H1, H2 |- *. rewrite Forall_forall.
  split; intros x Hx.
  - apply E; [|by apply H1]. apply elem_of_app. by left.
  - apply E; [|by apply H2]. apply elem_of_app. by right.
Qed.

Lemma idle_before_busy_cons s w l :
  idle s w → idle_before_busy s l → idle_before_busy s (w :: l).
Proof.
  intros Hw (l1 & l2 & -> & H1 & H2). exists (w :: l1), l2.
  split; [done|]. split; [by constructor|done].
Qed.

Lemma idle_before_busy_snoc s w l :
  busy s w → idle_before_busy s l → idle_before_busy s (l ++ [w]).
Proof.
  intros Hw (l1 & l2 & -> & H1 & H2). exists l1, (l2 ++ [w]).
  split; [by rewrite app_assoc|]. split; [done|].
  apply Forall_app. split; [done|]. by apply Forall_singleton.
Qed.

(** Reordering a group while one of its records changes. *)
Lemma Inv_touch s s' k g w ps' p' :
  Inv s → groups s !! k = Some g → w ∈ Group.processes g →
  groups s' = <[k := set_processes ps' g]> (groups s) →
  ps' ≡ₚ Group.processes g →
  idle_before_busy s' ps' →
  heap s' !! w = Some p' →
  Process.getAppRoot (ProcessInfo.process p') = k →
  ProcessInfo.sessions p'
    = Z.of_nat (count_occ Nat.eq_dec (sessions_open s') w) →
  (∀ x, x ≠ w → heap s' !! x = heap s !! x) →
  (∀ x, x ≠ w → count_occ Nat.eq_dec (sessions_open s') x
                = count_occ Nat.eq_dec (sessions_open s) x) →
  count s' = count s → nextId s' = nextId s →
  Z.of_nat (length (inactiveApps s')) = count s' - active s' →
  0 <= active s' →
  NoDup (inactiveApps s') →
  (∀ x, x ∈ inactiveApps s' ↔
        (x ≠ w ∧ x ∈ inactiveApps s) ∨ (x = w ∧ ProcessInfo.sessions p' = 0)) →
  (∀ x, x ∈ sessions_open s' → (x < nextId s')%nat) →
  Z.of_nat (length (sessions_open s')) < UINT_MOD →
  Inv s'.
Proof.
  intros HI Hg Hw Hgr Hperm Hord' Hp' Hk' Hs' Hheap Hocc Hc Hn Hilen Ha Hnd
    Hina Hof Hol.
  destruct (inv_groups s HI k g Hg) as [Hne Hndg Hsz Hrec Hord].
  pose proof (inv_count_lt s HI) as Hclt.
  apply (Inv_update s s' k (Some (set_processes ps' g))); try done; try lia.
  - intros k' g' x Hne' Hg' Hx.
    assert (x ≠ w) by (intros ->; by apply Hne', (groups_disjoint s k' k g' g w)).
    split; [by apply Hheap | by apply Hocc].
  - intros g' [= <-]. constructor; simpl.
    + intros ->. apply Permutation_nil_l in Hperm. by apply Hne.
    + by rewrite Hperm.
    + by rewrite Hperm.
    + intros x Hx. rewrite Hperm in Hx. destruct (decide (x = w)) as [->|Hxw].
      * by exists p'.
      * destruct (Hrec x Hx) as (p & Hp & Hk & Hs). exists p.
        by rewrite Hheap, Hocc.
    + done.
  - rewrite Hc. unfold old_size, new_size. rewrite Hg. simpl. lia.
  - intros x. rewrite Hina. split.
    + intros [[Hxw Hx]|[-> Hz]].
      * destruct (decide (x ∈ Group.processes g)) as [Hxg|Hxg].
        -- right. eexists. split; [done|]. simpl. rewrite Hperm.
           split; [done|]. apply (idle_ext s); [by apply Hheap|].
           by apply (inv_inactive s HI) in Hx as [_ ?].
        -- left. split; [done|]. intros g0 Hg0. by simplify_eq.
      * right. eexists. split; [done|]. simpl. rewrite Hperm.
        split; [done|]. by exists p'.
    + intros [[Hx Hxg]|(g' & [= <-] & Hx & Hidle)].
      * left. split; [|done]. intros ->. by apply (Hxg g).
      * simpl in Hx. rewrite Hperm in Hx.
        destruct (decide (x = w)) as [->|Hxw].
        -- right. split; [done|]. destruct Hidle as (p & Hp & Hz). by simplify_eq.
        -- left. split; [done|]. apply (inv_inactive s HI).
           split; [by exists k, g|].
           apply (idle_ext s'); [|done]. symmetry. by apply Hheap.
  - intros g' x [= <-] Hx. simpl in Hx. rewrite Hperm in Hx. rewrite Hn.
    apply (inv_fresh s HI). by exists k, g.
Qed.

Lemma close_Inv now w s :
  Inv s → w ∈ sessions_open s → ∃ s', close now w s = Some s' ∧ Inv s'.
Proof.
  intros HI Hopen.
  assert (Z.of_nat (length (erase w (sessions_open s))) < UINT_MOD) as Hlen'.
  { pose proof (erase_length_le w (sessions_open s)).
    pose proof (inv_open_len s HI). lia. }
  assert (∀ x, x ∈ erase w (sessions_open s) → (x < nextId s)%nat) as Hfr'.
  { intros x Hx. apply (inv_open_fresh s HI). by apply erase_subseteq in Hx. }
  unfold close, sessionClose, weak_lock.
  destruct (decide (owned _ w)) as [Hown|Hown];
    [change (owned s w) in Hown | change (¬ owned s w) in Hown];
    rewrite (owned_pooled s w HI) in Hown; simpl.
  2:{ (* the record is gone *)
      eexists. split; [done|]. apply (Inv_frame s); try done.
      intros x Hx. split; [done|]. simpl. apply count_occ_erase_ne.
      by intros ->. }
  destruct Hown as (k & g & Hg & Hw).
  destruct (record_of s k g w HI Hg Hw) as (p & Hp & Hk & Hs).
  rewrite Hp, Hk, Hg.
  pose proof (count_occ_erase_eq w _ Hopen) as Hocc.
  pose proof (sessions_range s k w p HI (record_of s k g w HI Hg Hw) Hp) as Hsr.
  assert (busy s w) as Hbusy by (exists p; split; [done|lia]).
  pose proof (group_size_pos s k g HI Hg) as Hgpos.
  pose proof (group_size_le_count s k g HI Hg) as Hgle.
  pose proof (inv_count_lt s HI) as Hclt.
  pose proof (busy_active_pos s w HI (pooled_intro s k g w Hg Hw) Hbusy) as Hapos.
  pose proof (active_le_count s HI) as Hale.
  assert (udecr (ProcessInfo.sessions p) = ProcessInfo.sessions p - 1) as Hdec
    by (apply udecr_small; lia).
  rewrite Hdec.
  destruct (_ && _) eqn:Hretire.
  - (* the record has served its last request *)
    eexists. split; [done|]. apply (Inv_remove s _ k g w); try done; simpl.
    + destruct (erase w (Group.processes g)); simpl.
      * by rewrite delete_insert_eq.
      * unfold set_size, set_processes. simpl. by rewrite udecr_small by lia.
    + destruct (erase w (Group.processes g)); simpl; apply udecr_small; lia.
    + left. split; [done|].
      destruct (erase w (Group.processes g)); simpl;
        (split; [apply udecr_small; lia|done]).
    + by destruct (erase w (Group.processes g)).
    + intros x Hx. destruct (erase w (Group.processes g)); simpl;
        by rewrite lookup_insert_ne.
    + intros x Hx. destruct (erase w (Group.processes g)); simpl;
        by apply count_occ_erase_ne.
    + by destruct (erase w (Group.processes g)).
    + by destruct (erase w (Group.processes g)).
  - destruct (ProcessInfo.sessions p - 1 =? 0) eqn:Hzero.
    + (* the record becomes idle *)
      apply Z.eqb_eq in Hzero.
      eexists. split; [done|].
      eapply (Inv_touch s _ k g w (push_front w (erase w (Group.processes g)))
        (set_sessions (ProcessInfo.sessions p - 1) (set_lastUsed now (set_processed (uincr (ProcessInfo.processed p)) p)))); try done; simpl.
      * symmetry. by apply erase_perm.
      * apply idle_before_busy_cons.
        -- eexists. split; [simpl; apply lookup_insert_eq|]. done.
        -- apply (idle_before_busy_ext s).
           ++ intros x Hx. simpl.
              apply elem_of_erase in Hx as [Hx Hxw];
                [|by apply (g_nodup s k g), inv_groups].
              by rewrite !lookup_insert_ne.
           ++ apply idle_before_busy_erase, (g_order s k g). by apply inv_groups.
      * apply lookup_insert_eq.
      * simpl. lia.
      * intros x Hx. by rewrite !lookup_insert_ne.
      * intros x Hx. by apply count_occ_erase_ne.
      * unfold push_back. rewrite length_app. simpl.
        pose proof (inv_inactive_len s HI). rewrite udecr_small by lia. lia.
      * rewrite udecr_small by lia. lia.
      * unfold push_back. apply NoDup_app. split; [by apply inv_inactive_nodup|].
        split; [|apply NoDup_singleton].
        intros x Hx ->%list_elem_of_singleton.
        apply (inv_inactive s HI) in Hx as [_ Hidle].
        by apply (idle_not_busy s w).
      * intros x. unfold push_back. rewrite elem_of_app, list_elem_of_singleton.
        simpl. split.
        -- intros [Hx| ->]; [|by right]. left. split; [|done]. intros ->.
           apply (inv_inactive s HI) in Hx as [_ Hidle].
           by apply (idle_not_busy s w).
        -- intros [[? ?]|[? ?]]; [by left|by right].
    + (* the record stays busy *)
      apply Z.eqb_neq in Hzero.
      eexists. split; [done|].
      eapply (Inv_touch s _ k g w (Group.processes g)
        (set_sessions (ProcessInfo.sessions p - 1) (set_lastUsed now (set_processed (uincr (ProcessInfo.processed p)) p)))); try done; simpl.
      * assert (set_processes (Group.processes g) g = g) as -> by (by destruct g).
        by rewrite insert_id.
      * apply (idle_before_busy_status s);
          [|by apply (g_order s k g), inv_groups].
        intros x Hx. destruct (decide (x = w)) as [->|Hxw].
        -- split; [intros Hi; by destruct (idle_not_busy s w)|].
           intros _. eexists. split; [simpl; apply lookup_insert_eq|].
           simpl. lia.
        -- split; [apply idle_ext|apply busy_ext]; simpl;
             by rewrite !lookup_insert_ne.
      * apply lookup_insert_eq.
      * simpl. lia.
      * intros x Hx. by rewrite !lookup_insert_ne.
      * intros x Hx. by apply count_occ_erase_ne.
      * by apply inv_inactive_len.
      * by apply inv_active.
      * by apply inv_inactive_nodup.
      * intros x. simpl. split.
        -- intros Hx. left. split; [|done]. intros ->.
           apply (inv_inactive s HI) in Hx as [_ Hidle].
           by apply (idle_not_busy s w).
        -- intros [[? ?]|[? ?]]; [done|lia].
Qed.

End close_inv.

(** ** The facade keeps the invariant *)

Section facade_inv.
Import StdList Pool Run.
Implicit Types (s : t) (g : Group.t) (k : string) (w x : nat) (l : list nat).

Lemma pooled_empty s w : groups s = ∅ → ¬ pooled s w.
Proof. intros E (k & g & Hg & _). rewrite E in Hg. by rewrite lookup_empty in Hg. Qed.

Lemma Inv_empty s :
  groups s = ∅ → count s = 0 → active s = 0 → inactiveApps s = [] →
  (∀ x, x ∈ sessions_open s → (x < nextId s)%nat) →
  Z.of_nat (length (sessions_open s)) < UINT_MOD →
  Inv s.
Proof.
  intros Hg Hc Ha Hi Hof Hol. constructor; rewrite ?Hg, ?Hc, ?Ha, ?Hi; try done.
  - constructor.
  - intros w. split; [by intros ?%elem_of_nil|].
    intros [Hp _]. by apply pooled_empty in Hp.
  - intros w Hp. by apply pooled_empty in Hp.
Qed.

Lemma Inv_initial : Inv initial.
Proof. apply Inv_empty; try done. intros x ?%elem_of_nil. done. Qed.

Lemma clear_Inv s : Inv s → Inv (clear s).
Proof.
  intros HI. apply Inv_empty; try done; simpl.
  - by apply inv_open_fresh.
  - by apply inv_open_len.
Qed.

Lemma setMax_Inv n s : Inv s → Inv (setMax n s).
Proof. by apply Inv_core. Qed.

Lemma setMaxPerApp_Inv n s : Inv s → Inv (setMaxPerApp n s).
Proof. by apply Inv_core. Qed.

Lemma setMaxIdleTime_Inv n s : Inv s → Inv (setMaxIdleTime n s).
Proof. by apply Inv_core. Qed.

End facade_inv.

(** ** The cleaner pass *)

Section cleaner.
Import StdList Pool Run.
Implicit Types (s : t) (g : Group.t) (k : string) (w x : nat) (l : list nat).

(** One iteration of the cleaner loop on a record that is not stale. *)
Lemma cleaner_loop_keep fuel now s w p g :
  heap s !! w = Some p →
  groups s !! Process.getAppRoot (ProcessInfo.process p) = Some g →
  Group.processes g ≠ [] →
  idle_too_long s now p = false →
  cleaner_loop (S fuel) now s (Some w)
  = cleaner_loop fuel now s (incr (inactiveApps s) (Some w)).
Proof.
  intros Hp Hg Hne Hstale. simpl. rewrite Hp. simpl. rewrite Hg. simpl.
  rewrite Hstale. by destruct (Group.processes g).
Qed.

Lemma cleaner_loop_reap fuel now s w p g :
  heap s !! w = Some p →
  groups s !! Process.getAppRoot (ProcessInfo.process p) = Some g →
  udecr (Group.size g) = Group.size g - 1 →
  udecr (count s) = count s - 1 →
  idle_too_long s now p = true →
  cleaner_loop (S fuel) now s (Some w)
  = let s' := reaped s (Process.getAppRoot (ProcessInfo.process p)) g w in
    cleaner_loop fuel now s'
      (incr (inactiveApps s') (decr (inactiveApps s) (Some w))).
Proof.
  intros Hp Hg Hsz Hc Hstale. simpl. rewrite Hp. simpl. rewrite Hg. simpl.
  rewrite Hstale, Hsz, Hc. unfold reaped.
  destruct (erase w (Group.processes g)) eqn:E; simpl.
  - unfold erase_group, put_group, with_groups, with_count, with_inactiveApps.
    simpl. by rewrite delete_insert_eq.
  - done.
Qed.

Lemma filter_ext_in (P1 P2 : nat → Prop)
    `{!∀ x, Decision (P1 x), !∀ x, Decision (P2 x)} l :
  (∀ x, x ∈ l → P1 x ↔ P2 x) → filter P1 l = filter P2 l.
Proof.
  induction l as [|a l IH]; intros Hext; [done|].
  assert (filter P1 l = filter P2 l) as E.
  { apply IH. intros x Hx. apply Hext. by right. }
  destruct (decide (P1 a)) as [Ha|Ha].
  - rewrite !filter_cons_True; [by rewrite E| |done]. apply Hext; [left|done].
  - rewrite !filter_cons_False; [done| |done].
    intros Ha'. apply Ha, Hext; [left|done].
Qed.

Lemma stale_ext s s' now w :
  heap s' = heap s → maxIdleTime s' = maxIdleTime s →
  stale s' now w = stale s now w.
Proof.
  intros Hh Hm. unfold stale, idle_too_long. by rewrite Hh, Hm.
Qed.

Lemma reap_group_ext s s' now l l' g :
  heap s' = heap s → maxIdleTime s' = maxIdleTime s →
  (∀ x, x ∈ Group.processes g → stale s now x = true → x ∈ l' ↔ x ∈ l) →
  reap_group s' now l' g = reap_group s now l g.
Proof.
  intros Hh Hm Hl. unfold reap_group.
  assert (filter (λ w, ¬ (w ∈ l' ∧ stale s' now w = true)) (Group.processes g)
          = filter (λ w, ¬ (w ∈ l ∧ stale s now w = true)) (Group.processes g))
    as ->; [|done].
  apply filter_ext_in. intros x Hx. rewrite (stale_ext s s') by done.
  split; intros Hn [Hin Hst]; apply Hn; (split; [|done]); by apply (Hl x Hx Hst).
Qed.

Lemma reap_group_nil s now g :
  Group.processes g ≠ [] → reap_group s now [] g = Some g.
Proof.
  intros Hne. unfold reap_group.
  assert (filter (λ w, ¬ (w ∈ [] ∧ stale s now w = true)) (Group.processes g)
          = Group.processes g) as ->.
  { clear. induction (Group.processes g) as [|a l IH]; [done|].
    rewrite filter_cons_True; [by rewrite IH|]. by intros [?%elem_of_nil _]. }
  destruct g as [ps sz mr]. simpl in *. destruct ps; [done|].
  f_equal. f_equal. lia.
Qed.

Lemma reaped_Inv s k g w p :
  Inv s → heap s !! w = Some p →
  Process.getAppRoot (ProcessInfo.process p) = k →
  groups s !! k = Some g → w ∈ inactiveApps s →
  Inv (reaped s k g w).
Proof.
  intros HI Hp Hk Hg Hin.
  destruct (proj1 (inv_inactive s HI w) Hin) as [Hpool Hidle].
  destruct (pooled_group s w p HI Hpool Hp) as (g' & Hg' & Hw).
  rewrite Hk in Hg'. simplify_eq.
  apply (Inv_remove s _ (Process.getAppRoot (ProcessInfo.process p)) g w);
    try done; simpl.
  - right. done.
  - intros x. by apply inv_open_fresh.
  - by apply inv_open_len.
Qed.

(** The lookups of the groups after the stale record [w] has left. *)
Lemma reaped_lookup s now k g w post k' :
  Inv s → groups s !! k = Some g → w ∈ Group.processes g →
  stale s now w = true → w ∉ post →
  groups (reaped s k g w) !! k' ≫= reap_group s now post
  = groups s !! k' ≫= reap_group s now (w :: post).
Proof.
  intros HI Hg Hw Hst Hnp.
  destruct (inv_groups s HI k g Hg) as [Hne Hnd Hsz Hrec Hord].
  destruct (decide (k' = k)) as [->|Hne'].
  - rewrite Hg. simpl.
    assert (filter (λ x, ¬ (x ∈ w :: post ∧ stale s now x = true))
              (Group.processes g)
            = filter (λ x, ¬ (x ∈ post ∧ stale s now x = true))
                (erase w (Group.processes g))) as Hf.
    { rewrite (erase_filter w _ Hnd), list_filter_filter.
      apply list_filter_iff. intros x. rewrite elem_of_cons. split.
      - intros Hn. split; [|by intros ->; apply Hn; auto].
        intros [? ?]. apply Hn. auto.
      - intros [Hn Hxw] [[->|Hin] Hs]; [done|]. by apply Hn. }
    pose proof (erase_length w _ Hw) as Hlen.
    destruct (erase w (Group.processes g)) as [|a l] eqn:E.
    + rewrite lookup_delete_eq. simpl. unfold reap_group. by rewrite Hf.
    + rewrite lookup_insert_eq. simpl. unfold reap_group. simpl.
      rewrite Hf.
      destruct (filter _ (a :: l)) eqn:E'; [done|].
      f_equal. f_equal. rewrite Hlen. simpl length. lia.
  - assert (groups (reaped s k g w) !! k' = groups s !! k') as ->.
    { simpl. destruct (erase w (Group.processes g)).
      - by rewrite lookup_delete_ne.
      - by rewrite lookup_insert_ne. }
    destruct (groups s !! k') as [g'|] eqn:Hg'; [simpl|done].
    apply reap_group_ext; try done.
    intros x Hx _. rewrite elem_of_cons. split; [tauto|].
    intros [->|?]; [|done]. destruct Hne'.
    by apply (groups_disjoint s k' k g' g w).
Qed.

Lemma cleaner_loop_spec now rest : ∀ pre s fuel,
  Inv s → inactiveApps s = pre ++ rest → (length rest < fuel)%nat →
  ∃ s', cleaner_loop fuel now s (head rest) = Some s' ∧ Inv s'
    ∧ inactiveApps s' = pre ++ filter (λ w, stale s now w = false) rest
    ∧ (∀ k, groups s' !! k = groups s !! k ≫= reap_group s now rest)
    ∧ count s'
      = count s - Z.of_nat (length (filter (λ w, stale s now w = true) rest))
    ∧ active s' = active s ∧ heap s' = heap s
    ∧ maxIdleTime s' = maxIdleTime s.
Proof.
  induction rest as [|w post IH]; intros pre s fuel HI Hina Hfuel.
  - exists s. split; [by destruct fuel|]. split; [done|].
    split; [by rewrite Hina|]. split; [|simpl; repeat split; lia].
    intros k. destruct (groups s !! k) as [g|] eqn:Hg; [simpl|done].
    symmetry. apply reap_group_nil. by apply (g_nonempty s k g), inv_groups.
  - destruct fuel as [|fuel]; [simpl in Hfuel; lia|].
    assert (w ∈ inactiveApps s) as Hin.
    { rewrite Hina. apply elem_of_app. right. left. }
    pose proof (inv_inactive_nodup s HI) as Hnd. rewrite Hina in Hnd.
    apply NoDup_app in Hnd as (Hndpre & Hdisj & Hndrest).
    apply NoDup_cons in Hndrest as [Hwpost Hndpost].
    assert (w ∉ pre) as Hwpre.
    { intros Hw. apply (Hdisj w Hw). left. }
    destruct (proj1 (inv_inactive s HI w) Hin) as [Hpool (p & Hp & Hidle)].
    destruct (pooled_group s w p HI Hpool Hp) as (g & Hg & Hw).
    pose proof (group_size_pos s _ g HI Hg) as Hgpos.
    pose proof (group_size_le_count s _ g HI Hg) as Hgle.
    pose proof (inv_count_lt s HI) as Hclt.
    assert (stale s now w = idle_too_long s now p) as Hstale
      by (unfold stale; by rewrite Hp).
    change (head (w :: post)) with (Some w). destruct (idle_too_long s now p) eqn:Hlong.
    + (* the record is retired *)
      rewrite (cleaner_loop_reap fuel now s w p g) by
        (try done; apply udecr_small; lia).
      cbv zeta. set (k := Process.getAppRoot (ProcessInfo.process p)) in *.
      assert (inactiveApps (reaped s k g w) = pre ++ post) as Hina'.
      { simpl. rewrite Hina. by apply erase_app_r. }
      destruct (IH pre (reaped s k g w) fuel) as
        (s' & Hrun & HI' & Hi' & Hg' & Hc' & Ha' & Hh' & Hm').
      { by apply (reaped_Inv s k g w p). }
      { done. }
      { simpl in Hfuel. lia. }
      exists s'. split.
      { rewrite Hina', Hina, decr_app, incr_last by done. done. }
      split; [done|].
      assert (∀ x, stale (reaped s k g w) now x = stale s now x) as Hsame
        by (intros x; by apply stale_ext).
      split; [|split; [|split; [|done]]].
      * rewrite Hi'. rewrite filter_cons_False by (rewrite Hstale; done).
        done.
      * intros k'. rewrite Hg'.
        rewrite <- (reaped_lookup s now k g w post k') by done.
        destruct (groups (reaped s k g w) !! k'); [simpl|done].
        by apply reap_group_ext.
      * rewrite Hc'. rewrite (filter_cons_True _ w) by done.
        assert (filter (λ x, stale (reaped s k g w) now x = true) post
                = filter (λ x, stale s now x = true) post) as ->.
        { apply list_filter_iff. intros x. by rewrite Hsame. }
        simpl. lia.
    + (* the record stays *)
      rewrite (cleaner_loop_keep fuel now s w p g); try done.
      2:{ by apply (g_nonempty s (Process.getAppRoot (ProcessInfo.process p)) g),
            inv_groups. }
      destruct (IH (pre ++ [w]) s fuel) as
        (s' & Hrun & HI' & Hi' & Hg' & Hc' & Ha' & Hh' & Hm').
      { done. }
      { by rewrite <- app_assoc. }
      { simpl in Hfuel. lia. }
      exists s'. split; [by rewrite Hina, incr_after by done|]. split; [done|].
      split; [|split; [|split; [|done]]].
      * rewrite Hi'. rewrite filter_cons_True by done.
        by rewrite <- app_assoc.
      * intros k'. rewrite Hg'.
        destruct (groups s !! k') as [g'|]; [simpl|done].
        apply reap_group_ext; try done.
        intros x _ Hx. rewrite elem_of_cons. split; [tauto|].
        intros [->|?]; [congruence|done].
      * rewrite Hc'. rewrite (filter_cons_False _ w) by (rewrite Hstale; done).
        done.
Qed.

Lemma cleanerPass_spec now s :
  Inv s →
  ∃ s', cleanerPass now s = Some s' ∧ Inv s'
    ∧ inactiveApps s' = filter (λ w, stale s now w = false) (inactiveApps s)
    ∧ (∀ k, groups s' !! k
            = groups s !! k ≫= reap_group s now (inactiveApps s))
    ∧ count s'
      = count s - Z.of_nat (length (filter (λ w, stale s now w = true)
                                       (inactiveApps s)))
    ∧ active s' = active s ∧ heap s' = heap s
    ∧ maxIdleTime s' = maxIdleTime s.
Proof.
  intros HI. unfold cleanerPass, begin.
  apply (cleaner_loop_spec now (inactiveApps s) [] s); [done|done|lia].
Qed.

End cleaner.

(** ** The restart purge *)

Section purge.
Import StdList Pool Run.
Implicit Types (s : t) (g : Group.t) (k : string) (w x : nat) (l : list nat).

Lemma idle_is_idle s w : idle s w ↔ is_idle s w.
Proof.
  unfold idle, is_idle, sessions_of. split.
  - intros (p & -> & Hs). simpl. by rewrite Hs.
  - destruct (heap s !! w) as [p|]; [|done]. simpl. intros [= Hs]. by exists p.
Qed.

Lemma filter_all (P : nat → Prop) `{!∀ x, Decision (P x)} l :
  (∀ x, x ∈ l → P x) → filter P l = l.
Proof.
  induction l as [|a l IH]; intros Hall; [done|].
  rewrite filter_cons_True by (apply Hall; left).
  rewrite IH; [done|]. intros x Hx. apply Hall. by right.
Qed.

Lemma purge_loop_step fuel k s w p g :
  heap s !! w = Some p → groups s !! k = Some g →
  purge_loop (S fuel) k s (Some w)
  = let s1 := if ProcessInfo.sessions p =? 0
              then with_inactiveApps (erase w (inactiveApps s)) s
              else with_active (udecr (active s)) s in
    let processes' := erase w (Group.processes g) in
    purge_loop fuel k
      (with_count (udecr (count s))
         (put_group k (set_processes processes' g) s1))
      (incr processes' (decr (Group.processes g) (Some w))).
Proof.
  intros Hp Hg. simpl. rewrite Hp. simpl. rewrite Hg. simpl.
  by destruct (ProcessInfo.sessions p =? 0).
Qed.

Lemma purge_loop_spec k rest : ∀ s g fuel,
  groups s !! k = Some g → Group.processes g = rest →
  NoDup rest → NoDup (inactiveApps s) →
  (∀ w, w ∈ rest → is_Some (heap s !! w)) →
  (length rest < fuel)%nat →
  Z.of_nat (length (filter (λ w, ¬ is_idle s w) rest)) <= active s <= UINT_MOD →
  Z.of_nat (length rest) <= count s <= UINT_MOD →
  ∃ s', purge_loop fuel k s (head rest) = Some s'
    ∧ groups s' = <[k := set_processes [] g]> (groups s)
    ∧ inactiveApps s'
      = filter (λ x, ¬ (x ∈ rest ∧ is_idle s x)) (inactiveApps s)
    ∧ active s'
      = active s - Z.of_nat (length (filter (λ w, ¬ is_idle s w) rest))
    ∧ count s' = count s - Z.of_nat (length rest)
    ∧ heap s' = heap s ∧ nextId s' = nextId s
    ∧ sessions_open s' = sessions_open s ∧ trace s' = trace s
    ∧ max s' = max s ∧ maxPerApp s' = maxPerApp s
    ∧ maxIdleTime s' = maxIdleTime s
    ∧ waitingOnGlobalQueue s' = waitingOnGlobalQueue s.
Proof.
  induction rest as [|w post IH]; intros s g fuel Hg Hps Hnd Hndi Hheap Hfuel Ha Hc.
  - exists s. split; [by destruct fuel|].
    split.
    { rewrite <- Hps. assert (set_processes (Group.processes g) g = g) as ->
        by (by destruct g). by rewrite insert_id. }
    split.
    { symmetry. apply filter_all. by intros x _ [?%elem_of_nil _]. }
    simpl. repeat split; lia.
  - destruct fuel as [|fuel]; [simpl in Hfuel; lia|].
    destruct (Hheap w) as [p Hp]; [left|].
    apply NoDup_cons in Hnd as [Hwpost Hndpost].
    change (head (w :: post)) with (Some w).
    rewrite (purge_loop_step fuel k s w p g Hp Hg). cbv zeta.
    rewrite Hps, decr_head, erase_cons_eq. simpl incr.
    assert (is_idle s w ↔ ProcessInfo.sessions p = 0) as Hidle.
    { unfold is_idle, sessions_of. rewrite Hp. simpl. split; congruence. }
    set (s1 := if ProcessInfo.sessions p =? 0
               then with_inactiveApps (erase w (inactiveApps s)) s
               else with_active (udecr (active s)) s).
    set (s2 := with_count (udecr (count s))
                 (put_group k (set_processes post g) s1)).
    assert (heap s2 = heap s) as Hh2
      by (unfold s2, s1; by destruct (ProcessInfo.sessions p =? 0)).
    assert (∀ x, is_idle s2 x ↔ is_idle s x) as Hsame
      by (intros x; unfold is_idle, sessions_of; by rewrite Hh2).
    assert (filter (λ x, ¬ is_idle s2 x) post = filter (λ x, ¬ is_idle s x) post)
      as Hfb.
    { apply list_filter_iff. intros x. by rewrite Hsame. }
    simpl length in Hc.
    destruct (IH s2 (set_processes post g) fuel) as
      (s' & Hrun & Hg' & Hi' & Ha' & Hc' & Hh' & Hrest'); try done.
    { unfold s2. simpl. apply lookup_insert_eq. }
    { unfold s2, s1. destruct (ProcessInfo.sessions p =? 0); simpl; [|done].
      by apply NoDup_erase. }
    { intros x Hx. rewrite Hh2. apply Hheap. by right. }
    { simpl in Hfuel. lia. }
    { rewrite Hfb. unfold s2, s1.
      destruct (ProcessInfo.sessions p =? 0) eqn:E; simpl.
      - apply Z.eqb_eq in E. rewrite filter_cons_False in Ha; [done|].
        intros Hn. by apply Hn, Hidle.
      - apply Z.eqb_neq in E. rewrite filter_cons_True in Ha by (by rewrite Hidle).
        simpl length in Ha. rewrite udecr_small by lia. lia. }
    { unfold s2. simpl. rewrite udecr_small by lia. lia. }
    exists s'. split; [done|]. split.
    { rewrite Hg'. unfold s2. simpl.
      destruct (ProcessInfo.sessions p =? 0); simpl; by rewrite insert_insert_eq. }
    split.
    { rewrite Hi'.
      assert (∀ l, filter (λ x, ¬ (x ∈ post ∧ is_idle s2 x)) l
                   = filter (λ x, ¬ (x ∈ post ∧ is_idle s x)) l) as ->.
      { intros l. apply list_filter_iff. intros x. by rewrite Hsame. }
      assert (inactiveApps s2 = if ProcessInfo.sessions p =? 0
                                then erase w (inactiveApps s)
                                else inactiveApps s) as ->.
      { unfold s2, s1. by destruct (ProcessInfo.sessions p =? 0). }
      destruct (ProcessInfo.sessions p =? 0) eqn:E.
      - apply Z.eqb_eq in E. rewrite (erase_filter w _ Hndi), list_filter_filter.
        apply list_filter_iff. intros x. rewrite elem_of_cons. split.
        + intros [Hn Hxw] [[->|Hin] Hid]; [done|]. by apply Hn.
        + intros Hn. split; [intros [? ?]; apply Hn; auto|].
          intros ->. apply Hn. split; [by left|]. by apply Hidle.
      - apply Z.eqb_neq in E.
        apply list_filter_iff. intros x. rewrite elem_of_cons. split.
        + intros Hn [[->|Hin] Hid]; [by apply E, Hidle|]. by apply Hn.
        + intros Hn [? ?]. apply Hn. auto. }
    split.
    { rewrite Ha', Hfb. unfold s2, s1.
      destruct (ProcessInfo.sessions p =? 0) eqn:E; simpl.
      - apply Z.eqb_eq in E. rewrite (filter_cons_False _ w); [done|].
        intros Hn. by apply Hn, Hidle.
      - apply Z.eqb_neq in E.
        rewrite (filter_cons_True _ w) in Ha |- * by (by rewrite Hidle).
        simpl length in *. rewrite udecr_small by lia. lia. }
    split.
    { rewrite Hc'. unfold s2. simpl. rewrite udecr_small by lia. lia. }
    split; [by rewrite Hh'|].
    destruct Hrest' as (? & ? & ? & ? & ? & ? & ?).
    unfold s2, s1 in *.
    by destruct (ProcessInfo.sessions p =? 0); simpl in *.
Qed.

Lemma filter_split_length (P : nat → Prop) `{!∀ x, Decision (P x)} l :
  length l = (length (filter P l) + length (filter (λ x, ¬ P x) l))%nat.
Proof.
  rewrite <- length_app. symmetry. apply Permutation_length.
  apply filter_app_complement.
Qed.

(** The idle records of a group are the inactive records in it. *)
Lemma group_idle_length s k g :
  Inv s → groups s !! k = Some g →
  length (filter (λ x, x ∈ Group.processes g) (inactiveApps s))
  = length (filter (λ w, is_idle s w) (Group.processes g)).
Proof.
  intros HI Hg. apply Permutation_length, NoDup_Permutation.
  - by apply NoDup_filter, inv_inactive_nodup.
  - by apply NoDup_filter, (g_nodup s k g), inv_groups.
  - intros x. rewrite !list_elem_of_filter, (inv_inactive s HI x).
    rewrite idle_is_idle. split; [tauto|]. intros [? ?].
    split; [done|]. split; [by exists k, g|done].
Qed.

(** The busy records of a group are counted by [active]. *)
Lemma group_busy_le_active s k g :
  Inv s → groups s !! k = Some g →
  Z.of_nat (length (filter (λ w, ¬ is_idle s w) (Group.processes g)))
  <= active s.
Proof.
  intros HI Hg.
  set (bs := filter (λ w, ¬ is_idle s w) (Group.processes g)).
  assert (Z.of_nat (length (bs ++ inactiveApps s)) <= sum_sizes (groups s)) as Hl.
  { apply pooled_length.
    - intros k' g' Hg'. by apply (g_size s k' g'), inv_groups.
    - apply NoDup_app. split; [|split].
      + by apply NoDup_filter, (g_nodup s k g), inv_groups.
      + intros x Hx Hin. apply list_elem_of_filter in Hx as [Hn _].
        apply Hn, idle_is_idle. by apply (inv_inactive s HI x).
      + by apply inv_inactive_nodup.
    - intros x [Hx|Hx]%elem_of_app.
      + apply list_elem_of_filter in Hx as [_ Hx]. by exists k, g.
      + by apply (inv_inactive s HI x). }
  rewrite length_app in Hl. pose proof (inv_inactive_len s HI).
  pose proof (inv_count s HI). lia.
Qed.

Lemma purged_Inv s k g :
  Inv s → groups s !! k = Some g → Inv (purged s k g).
Proof.
  intros HI Hg.
  destruct (inv_groups s HI k g Hg) as [Hne Hnd Hsz Hrec Hord].
  pose proof (group_busy_le_active s k g HI Hg) as Hbusy.
  pose proof (group_idle_length s k g HI Hg) as Hidle.
  pose proof (filter_split_length (λ w, is_idle s w) (Group.processes g)) as Hsp.
  pose proof (filter_split_length (λ x, x ∈ Group.processes g) (inactiveApps s))
    as Hsi.
  pose proof (inv_inactive_len s HI) as Hil.
  pose proof (inv_count_lt s HI) as Hclt.
  apply (Inv_update s _ k None); try done; simpl.
  - unfold old_size, new_size. rewrite Hg. simpl. lia.
  - lia.
  - lia.
  - lia.
  - by apply NoDup_filter, inv_inactive_nodup.
  - intros x. rewrite list_elem_of_filter. split.
    + intros [Hn Hx]. left. split; [done|]. intros g' Hg'. by simplify_eq.
    + intros [[Hx Hn]|(g' & ? & _)]; [|done]. split; [|done]. by apply Hn.
  - intros x. by apply inv_open_fresh.
  - by apply inv_open_len.
Qed.

Lemma purge_spec s k g :
  Inv s → groups s !! k = Some g →
  ∃ s', purge_loop (S (length (Group.processes g))) k s
          (begin (Group.processes g)) = Some s'
        ∧ erase_group k s' = purged s k g.
Proof.
  intros HI Hg.
  destruct (inv_groups s HI k g Hg) as [Hne Hnd Hsz Hrec Hord].
  pose proof (group_busy_le_active s k g HI Hg) as Hbusy.
  pose proof (group_size_le_count s k g HI Hg) as Hle.
  pose proof (inv_count_lt s HI) as Hclt.
  pose proof (active_le_count s HI) as Hale.
  destruct (purge_loop_spec k (Group.processes g) s g
              (S (length (Group.processes g)))) as
    (s' & Hrun & Hg' & Hi' & Ha' & Hc' & Hh' & Hn' & Ho' & Ht' & Hm' & Hp'
       & Hmi' & Hw'); try done; try lia.
  { by apply inv_inactive_nodup. }
  { intros w Hw. destruct (Hrec w Hw) as (p & Hp & _). eauto. }
  exists s'. split; [done|].
  assert (filter (λ x, ¬ (x ∈ Group.processes g ∧ is_idle s x)) (inactiveApps s)
          = filter (λ x, x ∉ Group.processes g) (inactiveApps s)) as Hf.
  { apply filter_ext_in. intros x Hx. split; [|tauto].
    intros Hn Hin. apply Hn. split; [done|].
    apply idle_is_idle. by apply (inv_inactive s HI x). }
  destruct s'. unfold purged, erase_group, with_groups, with_count,
    with_active, with_inactiveApps. simpl in *.
  subst. rewrite Hf, delete_insert_eq. done.
Qed.

End purge.

(** ** spawnOrUseExisting keeps the invariant *)

Section pass.
Import StdList Pool Run.
Implicit Types (s : t) (g : Group.t) (k : string) (w x : nat) (l : list nat).

Lemma restart_prestep_eq env options s :
  Inv s →
  restart_prestep env options s
  = Some (if needsRestart env (PoolOptions.appRoot options) options
          then (after_restart s (PoolOptions.appRoot options), false)
          else (s, bool_decide (is_Some (groups s !! PoolOptions.appRoot options)))).
Proof.
  intros HI. unfold restart_prestep, after_restart.
  destruct (needsRestart _ _ _); [|done].
  destruct (groups s !! PoolOptions.appRoot options) as [g|] eqn:Hg; [|done].
  destruct (purge_spec s _ g HI Hg) as (s' & -> & <-). done.
Qed.

Lemma after_restart_Inv s k : Inv s → Inv (after_restart s k).
Proof.
  intros HI. unfold after_restart. do 2 apply Inv_emit.
  destruct (groups s !! k) as [g|] eqn:Hg; [|done]. by apply purged_Inv.
Qed.

Lemma after_restart_lookup s k : groups (after_restart s k) !! k = None.
Proof.
  unfold after_restart. simpl.
  destruct (groups s !! k) as [g|] eqn:Hg; [|done]. simpl.
  apply lookup_delete_eq.
Qed.

Lemma after_restart_count s k :
  Inv s → count (after_restart s k) <= count s.
Proof.
  intros HI. unfold after_restart. simpl.
  destruct (groups s !! k) as [g|] eqn:Hg; simpl; lia.
Qed.

Lemma after_restart_open s k :
  sessions_open (after_restart s k) = sessions_open s.
Proof. unfold after_restart. simpl. by destruct (groups s !! k). Qed.

Lemma select_eq env w k s p :
  heap s !! w = Some p →
  select env w k s
  = Some (put_info w
            (set_sessions (uincr (ProcessInfo.sessions p))
               (set_lastUsed (time_now env) p)) s,
          Selected w k).
Proof. intros Hp. unfold select. by rewrite Hp. Qed.

Lemma scan_smallest_min h : ∀ rest a b sm,
  (∀ x, x ∈ sm :: rest → is_Some (h !! x)) →
  (∀ x, x ∈ a → sess h sm < sess h x) →
  (∀ x, x ∈ b → sess h sm <= sess h x) →
  ∃ w pre post, scan_smallest h sm rest = Some w
    ∧ a ++ sm :: b ++ rest = pre ++ w :: post
    ∧ (∀ x, x ∈ pre → sess h w < sess h x)
    ∧ (∀ x, x ∈ post → sess h w <= sess h x).
Proof.
  induction rest as [|it rest IH]; intros a b sm Hlook Ha Hb.
  - exists sm, a, b. rewrite app_nil_r. done.
  - destruct (Hlook it) as [pi Hpi]; [right; left|].
    destruct (Hlook sm) as [ps Hps]; [left|].
    simpl. rewrite Hpi, Hps. simpl.
    assert (sess h it = ProcessInfo.sessions pi) as Hsi
      by (unfold sess; by rewrite Hpi).
    assert (sess h sm = ProcessInfo.sessions ps) as Hss
      by (unfold sess; by rewrite Hps).
    destruct (ProcessInfo.sessions pi <? ProcessInfo.sessions ps) eqn:E.
    + apply Z.ltb_lt in E.
      destruct (IH (a ++ sm :: b) [] it) as (w & pre & post & Hrun & Heq & H1 & H2).
      * intros x Hx. apply Hlook. right. done.
      * intros x [Hx|[->|Hx]%elem_of_cons]%elem_of_app.
        -- specialize (Ha x Hx). lia.
        -- lia.
        -- specialize (Hb x Hx). lia.
      * by intros x ?%elem_of_nil.
      * exists w, pre, post. split; [done|]. split; [|done].
        rewrite <- Heq. by rewrite <- !app_assoc.
    + apply Z.ltb_ge in E.
      destruct (IH a (b ++ [it]) sm) as (w & pre & post & Hrun & Heq & H1 & H2).
      * intros x [->|Hx]%elem_of_cons; apply Hlook; [left|right; by right].
      * done.
      * intros x [Hx| ->%list_elem_of_singleton]%elem_of_app; [by apply Hb|lia].
      * exists w, pre, post. split; [done|]. split; [|done].
        rewrite <- Heq. by rewrite <- !app_assoc.
Qed.

Lemma all_busy_of_front s k g front tl p :
  Inv s → groups s !! k = Some g → Group.processes g = front :: tl →
  heap s !! front = Some p → ProcessInfo.sessions p ≠ 0 →
  ∀ x, x ∈ Group.processes g → busy s x.
Proof.
  intros HI Hg Hps Hp Hs.
  destruct (g_order s k g (inv_groups s HI k g Hg)) as (l1 & l2 & E & H1 & H2).
  rewrite Forall_forall in H1, H2.
  destruct l1 as [|y l1].
  - simpl in E. rewrite E. done.
  - rewrite Hps in E. simpl in E. injection E as <- _.
    destruct (H1 front) as (p' & Hp' & Hs'); [left|]. simplify_eq.
Qed.

Lemma idle_before_busy_all_busy s l :
  (∀ x, x ∈ l → busy s x) → idle_before_busy s l.
Proof.
  intros Hb. exists [], l. split; [done|]. split; [constructor|].
  by apply Forall_forall.
Qed.

Lemma idle_before_busy_rotate s s' front tl :
  NoDup (front :: tl) → idle s front → idle_before_busy s (front :: tl) →
  (∀ x, x ≠ front → heap s' !! x = heap s !! x) → busy s' front →
  idle_before_busy s' (tl ++ [front]).
Proof.
  intros Hnd Hidle (l1 & l2 & E & H1 & H2) Hheap Hbusy.
  apply NoDup_cons in Hnd as [Hnin Hnd].
  rewrite Forall_forall in H1, H2.
  destruct l1 as [|y l1].
  - simpl in E. destruct (idle_not_busy s front Hidle). apply H2.
    rewrite <- E. left.
  - simpl in E. injection E as <- ->.
    exists l1, (l2 ++ [front]). split; [by rewrite app_assoc|].
    rewrite !Forall_forall. split.
    + intros x Hx. apply (idle_ext s); [|apply H1; by right].
      apply Hheap. intros ->. apply Hnin, elem_of_app. by left.
    + intros x [Hx| ->%list_elem_of_singleton]%elem_of_app; [|done].
      apply (busy_ext s); [|by apply H2].
      apply Hheap. intros ->. apply Hnin, elem_of_app. by right.
Qed.

Lemma count_occ_bound_open s w :
  Z.of_nat (count_occ Nat.eq_dec (sessions_open s) w)
  <= Z.of_nat (length (sessions_open s)).
Proof. pose proof (count_occ_bound Nat.eq_dec w (sessions_open s)). lia. Qed.

(** A freshly spawned record joins the group at [k], or founds it. *)
Lemma Inv_add s s' k w p' ps sz mr :
  Inv s → w = nextId s → nextId s' = S (nextId s) →
  match groups s !! k with
  | Some g => ps = Group.processes g ∧ sz = Group.size g
              ∧ ∀ x, x ∈ ps → busy s x
  | None => ps = [] ∧ sz = 0
  end →
  groups s' = <[k := Group.mk (ps ++ [w]) (sz + 1) mr]> (groups s) →
  heap s' = <[w := p']> (heap s) →
  Process.getAppRoot (ProcessInfo.process p') = k →
  ProcessInfo.sessions p' = 1 →
  sessions_open s' = w :: sessions_open s →
  count s' = count s + 1 → active s' = active s + 1 →
  inactiveApps s' = inactiveApps s →
  count s + 1 < UINT_MOD →
  Z.of_nat (length (sessions_open s)) + 1 < UINT_MOD →
  Inv s'.
Proof.
  intros HI Hw Hn Hold Hgr Hheap Hk Hs Hopen Hc Ha Hi Hroom Hroomo.
  assert (∀ x, pooled s x → x ≠ w) as Hfresh.
  { intros x Hx ->. pose proof (inv_fresh s HI _ Hx). lia. }
  assert (w ∉ sessions_open s) as Hwopen.
  { intros Hx. pose proof (inv_open_fresh s HI _ Hx). lia. }
  assert (∀ x, x ≠ w → heap s' !! x = heap s !! x) as Hheapne.
  { intros x Hx. rewrite Hheap. by rewrite lookup_insert_ne. }
  assert (∀ x, x ≠ w → count_occ Nat.eq_dec (sessions_open s') x
                       = count_occ Nat.eq_dec (sessions_open s) x) as Hoccne.
  { intros x Hx. rewrite Hopen. by apply count_occ_cons_neq. }
  assert (busy s' w) as Hbw.
  { exists p'. rewrite Hheap, lookup_insert_eq. split; [done|lia]. }
  assert (∀ x, x ∈ ps → pooled s x ∧ record_ok s k x ∧ busy s x) as Hps.
  { intros x Hx. destruct (groups s !! k) as [g|] eqn:Hg.
    - destruct Hold as (-> & -> & Hb). split; [by exists k, g|].
      split; [by apply (record_of s k g)|by apply Hb].
    - destruct Hold as [-> _]. by apply elem_of_nil in Hx. }
  assert (NoDup ps ∧ sz = Z.of_nat (length ps) ∧ old_size s k = sz) as (Hnd & Hsz & Hosz).
  { unfold old_size. destruct (groups s !! k) as [g|] eqn:Hg.
    - destruct Hold as (-> & -> & Hb).
      destruct (inv_groups s HI k g Hg) as [? ? ? ? ?]. done.
    - destruct Hold as [-> ->]. split; [constructor|done]. }
  pose proof (inv_inactive_len s HI) as Hil.
  pose proof (inv_active s HI) as Hapos.
  apply (Inv_update s s' k (Some (Group.mk (ps ++ [w]) (sz + 1) mr)));
    try done; try lia.
  - intros k' g' x Hne Hg' Hx.
    assert (x ≠ w) by (apply Hfresh; by exists k', g').
    split; [by apply Hheapne|by apply Hoccne].
  - intros g' [= <-]. constructor; simpl.
    + by destruct ps.
    + apply NoDup_app. split; [done|]. split; [|apply NoDup_singleton].
      intros x Hx ->%list_elem_of_singleton.
      destruct (Hps w Hx) as (Hpool & _). by apply (Hfresh w).
    + rewrite length_app. simpl. lia.
    + intros x [Hx| ->%list_elem_of_singleton]%elem_of_app.
      * destruct (Hps x Hx) as (Hpool & (p & Hp & Hkp & Hsp) & _).
        exists p. rewrite Hheapne, Hoccne by (by apply Hfresh). done.
      * exists p'. rewrite Hheap, lookup_insert_eq, Hopen.
        rewrite count_occ_cons_eq by done.
        rewrite (proj1 (count_occ_not_In Nat.eq_dec _ _)).
        -- done.
        -- by rewrite <- list_elem_of_In.
    + apply idle_before_busy_all_busy.
      intros x [Hx| ->%list_elem_of_singleton]%elem_of_app; [|done].
      destruct (Hps x Hx) as (Hpool & _ & Hb).
      apply (busy_ext s); [|done]. by apply Hheapne, Hfresh.
  - rewrite Hosz. unfold new_size. simpl. lia.
  - rewrite Hi. lia.
  - rewrite Hi. by apply inv_inactive_nodup.
  - intros x. rewrite Hi. split.
    + intros Hx. left. split; [done|]. intros g Hg Hxg.
      rewrite Hg in Hold. destruct Hold as (-> & _ & Hb).
      apply (inv_inactive s HI) in Hx as [_ Hidle].
      apply (idle_not_busy s x Hidle). by apply Hb.
    + intros [[Hx _]|(g' & [= <-] & Hx & Hidle)]; [done|]. simpl in Hx.
      destruct (idle_not_busy s' x Hidle).
      apply elem_of_app in Hx as [Hx| ->%list_elem_of_singleton]; [|done].
      destruct (Hps x Hx) as (Hpool & _ & Hb).
      apply (busy_ext s); [|done]. by apply Hheapne, Hfresh.
  - intros g' x [= <-]. simpl.
    intros [Hx| ->%list_elem_of_singleton]%elem_of_app; [|lia].
    destruct (Hps x Hx) as (Hpool & _). pose proof (inv_fresh s HI _ Hpool). lia.
  - intros x. rewrite Hopen. intros [->|Hx]%elem_of_cons; [lia|].
    pose proof (inv_open_fresh s HI _ Hx). lia.
  - rewrite Hopen. simpl length. lia.
Qed.

Lemma use_group_Inv env options s :
  Inv s → headroom s → is_Some (groups s !! PoolOptions.appRoot options) →
  ∃ s1 r, use_group env options s = Some (s1, r) ∧ pass_post options s r s1.
Proof.
  intros HI [Hroom Hroomo] [g Hg].
  set (k := PoolOptions.appRoot options) in *.
  destruct (inv_groups s HI k g Hg) as [Hne Hnd Hsz Hrec Hord].
  destruct (Group.processes g) as [|front tl] eqn:Hps; [done|].
  destruct (Hrec front) as (p & Hp & Hk & Hs); [left|].
  pose proof (inv_count_lt s HI) as Hclt.
  pose proof (inv_active s HI) as Hapos.
  pose proof (active_le_count s HI) as Hale.
  pose proof (inv_inactive_len s HI) as Hil.
  pose proof (group_size_pos s k g HI Hg) as Hgpos.
  pose proof (group_size_le_count s k g HI Hg) as Hgle.
  assert (front ∈ Group.processes g) as Hfront by (rewrite Hps; left).
  unfold use_group. fold k. rewrite Hg. simpl. rewrite Hps. simpl.
  rewrite Hp. simpl.
  destruct (ProcessInfo.sessions p =? 0) eqn:Hidle.
  - (* an idle record at the front *)
    apply Z.eqb_eq in Hidle.
    assert (front ∈ inactiveApps s) as Hin.
    { apply (inv_inactive s HI). split; [by exists k, g|by exists p]. }
    pose proof (erase_length front _ Hin) as Hlen.
    rewrite (select_eq env front k _ p) by done.
    eexists _, _. split; [done|]. split; [done|]. split; [done|].
    split; [|split; [|simpl; lia]].
    2:{ eexists. split; [simpl; apply lookup_insert_eq|]. simpl.
        unfold push_back. apply elem_of_app. right. left. }
    apply (Inv_touch s _ k g front (push_back front tl)
             (set_sessions (uincr (ProcessInfo.sessions p))
                (set_lastUsed (time_now env) p))); try done; simpl.
    + rewrite Hps. unfold push_back. by rewrite Permutation_app_comm.
    + apply (idle_before_busy_rotate s); try done.
      * by exists p.
      * intros x Hx. simpl. by rewrite lookup_insert_ne.
      * eexists. split; [simpl; apply lookup_insert_eq|]. simpl.
        rewrite Hidle. done.
    + apply lookup_insert_eq.
    + destruct (Nat.eq_dec front front); [|done].
      rewrite Nat2Z.inj_succ, <- Hs, Hidle. done.
    + intros x Hx. by rewrite lookup_insert_ne.
    + intros x Hx. by destruct (Nat.eq_dec front x).
    + rewrite uincr_small by lia. lia.
    + rewrite uincr_small by lia. lia.
    + by apply NoDup_erase, inv_inactive_nodup.
    + intros x. rewrite elem_of_erase by (by apply inv_inactive_nodup).
      rewrite Hidle. split; [intros [? ?]; left; done|].
      intros [[? ?]|[_ ?]]; done.
    + intros x [->|Hx]%elem_of_cons; [|by apply inv_open_fresh].
      apply (inv_fresh s HI). by exists k, g.
    + lia.
  - apply Z.eqb_neq in Hidle.
    pose proof (all_busy_of_front s k g front tl p HI Hg Hps Hp Hidle) as Hallbusy.
    rewrite Hps in Hallbusy.
    destruct (_ || _) eqn:Hsat.
    + destruct (PoolOptions.useGlobalQueue options).
      * (* wait on the global queue *)
        eexists _, _. split; [done|]. split; [done|]. split; [|simpl; lia].
        by apply (Inv_core s).
      * (* the least busy record takes one more session *)
        destruct (scan_smallest_min (heap s) tl [] [] front) as
          (w & pre & post & -> & Heq & _ & _).
        { intros x Hx. destruct (Hrec x Hx) as (px & Hpx & _). eauto. }
        { by intros x ?%elem_of_nil. }
        { by intros x ?%elem_of_nil. }
        simpl in Heq. simpl.
        assert (w ∈ front :: tl) as Hw.
        { rewrite Heq. apply elem_of_app. right. left. }
        destruct (Hrec w Hw) as (pw & Hpw & Hkw & Hsw).
        pose proof (count_occ_bound_open s w) as Hbound.
        destruct (Hallbusy w Hw) as (pw' & Hpw' & Hbw).
        assert (pw' = pw) as -> by congruence.
        rewrite (select_eq env w k _ pw) by done.
        eexists _, _. split; [done|]. split; [done|]. split; [done|].
        split; [|split; [|simpl; lia]].
        2:{ eexists. split; [simpl; apply lookup_insert_eq|]. simpl.
            unfold push_back. apply elem_of_app. right. left. }
        apply (Inv_touch s _ k g w (push_back w (erase w (front :: tl)))
                 (set_sessions (uincr (ProcessInfo.sessions pw))
                    (set_lastUsed (time_now env) pw))); try done;
          [by rewrite Hps|..]; simpl.
        -- rewrite Hps. unfold push_back. rewrite Permutation_app_comm.
           symmetry. by apply (erase_perm w (front :: tl)).
        -- apply idle_before_busy_all_busy. unfold push_back.
           intros x [Hx| ->%list_elem_of_singleton]%elem_of_app.
           ++ apply (elem_of_erase w (front :: tl)) in Hx as [Hx Hxw]; [|done].
              apply (busy_ext s); [simpl; by rewrite lookup_insert_ne|].
              by apply Hallbusy.
           ++ eexists. split; [simpl; apply lookup_insert_eq|]. simpl.
              rewrite uincr_small by lia. lia.
        -- apply lookup_insert_eq.
        -- destruct (Nat.eq_dec w w); [|done]. rewrite Nat2Z.inj_succ, <- Hsw.
           apply uincr_small; lia.
        -- intros x Hx. by rewrite lookup_insert_ne.
        -- intros x Hx. by destruct (Nat.eq_dec w x).
        -- by apply inv_inactive_nodup.
        -- intros x. split.
           ++ intros Hx. left. split; [|done]. intros ->.
              apply (inv_inactive s HI) in Hx as [_ Hi].
              apply (idle_not_busy s w Hi). by apply Hallbusy.
           ++ intros [[_ Hx]|[_ Hz]]; [exact Hx|].
              rewrite uincr_small in Hz by lia. lia.
        -- intros x [->|Hx]%elem_of_cons; [|by apply inv_open_fresh].
           apply (inv_fresh s HI). exists k, g. by rewrite Hps.
        -- lia.
    + (* room to spawn one more record *)
      destruct (spawn env options) as [e|pid].
      * eexists _, _. split; [done|]. split; [done|].
        split; [by apply (Inv_core s)|simpl; lia].
      * rewrite (select_eq env (nextId s) k _ (new_ProcessInfo env options pid))
          by (simpl; apply lookup_insert_eq).
        eexists _, _. split; [done|]. split; [done|]. split; [done|].
        split; [|split; [|simpl; rewrite uincr_small by lia; lia]].
        2:{ eexists. split; [simpl; apply lookup_insert_eq|]. simpl.
            unfold push_back. apply elem_of_app. right. left. }
        apply (Inv_add s _ k (nextId s)
                 (set_sessions (uincr (ProcessInfo.sessions
                                         (new_ProcessInfo env options pid)))
                    (set_lastUsed (time_now env)
                       (new_ProcessInfo env options pid)))
                 (front :: tl) (Group.size g) (Group.maxRequests g));
          try done; simpl.
        -- rewrite Hg. by rewrite Hps.
        -- unfold set_size, set_processes, push_back. simpl.
           by rewrite uincr_small by lia.
        -- by rewrite insert_insert_eq.
        -- apply uincr_small; lia.
        -- apply uincr_small; lia.
Qed.

Lemma evict_eq s w rest p g :
  Inv s → inactiveApps s = w :: rest → heap s !! w = Some p →
  groups s !! Process.getAppRoot (ProcessInfo.process p) = Some g →
  evict s = Some (reaped s (Process.getAppRoot (ProcessInfo.process p)) g w).
Proof.
  intros HI Hi Hp Hg.
  pose proof (group_size_pos s _ g HI Hg) as Hgpos.
  pose proof (group_size_le_count s _ g HI Hg) as Hgle.
  pose proof (inv_count_lt s HI) as Hclt.
  unfold evict, reaped. rewrite Hi. simpl. rewrite Hp. simpl. rewrite Hg. simpl.
  rewrite decide_True by done.
  destruct (erase w (Group.processes g)) eqn:E; simpl.
  - unfold erase_group, with_count, with_groups, with_inactiveApps. simpl.
    by rewrite udecr_small by lia.
  - unfold put_group, set_size, set_processes, with_count, with_groups,
      with_inactiveApps. simpl.
    by rewrite !udecr_small by lia.
Qed.

Lemma evict_spec s :
  Inv s → inactiveApps s ≠ [] →
  ∃ w p g, head (inactiveApps s) = Some w ∧ heap s !! w = Some p
    ∧ groups s !! Process.getAppRoot (ProcessInfo.process p) = Some g
    ∧ w ∈ Group.processes g
    ∧ evict s = Some (reaped s (Process.getAppRoot (ProcessInfo.process p)) g w)
    ∧ Inv (reaped s (Process.getAppRoot (ProcessInfo.process p)) g w).
Proof.
  intros HI Hne. destruct (inactiveApps s) as [|w rest] eqn:Hi; [done|].
  assert (w ∈ inactiveApps s) as Hin by (rewrite Hi; left).
  destruct (proj1 (inv_inactive s HI w) Hin) as [Hpool (p & Hp & Hidle)].
  destruct (pooled_group s w p HI Hpool Hp) as (g & Hg & Hw).
  exists w, p, g. split; [done|]. split; [done|]. split; [done|].
  split; [done|]. split.
  - by apply (evict_eq s w rest).
  - by apply (reaped_Inv s _ g w p).
Qed.

Lemma spawn_new_Inv env options s :
  Inv s → headroom s → groups s !! PoolOptions.appRoot options = None →
  ∃ s1 r, spawn_new env options s = Some (s1, r) ∧ pass_post options s r s1.
Proof.
  intros HI [Hroom Hroomo] Hg. unfold spawn_new.
  set (k := PoolOptions.appRoot options) in *.
  pose proof (inv_active s HI) as Hapos.
  pose proof (active_le_count s HI) as Hale.
  destruct (spawn env options) as [e|pid].
  - eexists _, _. split; [done|]. split; [done|].
    split; [by apply (Inv_core s)|simpl; lia].
  - simpl.
    rewrite (select_eq env (nextId s) k _ (new_ProcessInfo env options pid))
      by (simpl; apply lookup_insert_eq).
    eexists _, _. split; [done|]. split; [done|]. split; [done|].
    split; [|split; [|simpl; rewrite uincr_small by lia; lia]].
    2:{ eexists. split; [simpl; apply lookup_insert_eq|]. simpl. left. }
    apply (Inv_add s _ k (nextId s)
             (set_sessions (uincr (ProcessInfo.sessions
                                     (new_ProcessInfo env options pid)))
                (set_lastUsed (time_now env)
                   (new_ProcessInfo env options pid)))
             [] 0 (PoolOptions.maxRequests options));
      try done; simpl.
    + by rewrite Hg.
    + by rewrite insert_insert_eq.
    + apply uincr_small; lia.
    + apply uincr_small; lia.
Qed.

Lemma new_group_Inv env options s :
  Inv s → headroom s → groups s !! PoolOptions.appRoot options = None →
  ∃ s1 r, new_group env options s = Some (s1, r) ∧ pass_post options s r s1.
Proof.
  intros HI Hroom Hg. unfold new_group.
  destruct (max s <=? active s) eqn:Hfull.
  - eexists _, _. split; [done|]. split; [done|]. split; [done|lia].
  - apply Z.leb_gt in Hfull.
    destruct (count s =? max s) eqn:Hmax.
    + apply Z.eqb_eq in Hmax.
      destruct (evict_spec s HI) as (w & p & g & Hw & Hp & Hgw & Hin & -> & HI').
      { pose proof (inv_inactive_len s HI). intros E. rewrite E in *.
        simpl in *. lia. }
      simpl.
      set (s0 := reaped s (Process.getAppRoot (ProcessInfo.process p)) g w) in *.
      destruct (spawn_new_Inv env options s0) as (s1 & r & Hrun & Hopen & Hpost);
        try done.
      * destruct Hroom as [Hr1 Hr2]. split; simpl; [lia|done].
      * unfold s0. simpl.
        assert (Process.getAppRoot (ProcessInfo.process p)
                ≠ PoolOptions.appRoot options) as Hne by congruence.
        destruct (erase w (Group.processes g)).
        -- by rewrite lookup_delete_ne.
        -- by rewrite lookup_insert_ne.
      * exists s1, r. split; [done|]. split; [done|].
        destruct r; simpl in *; intuition lia.
    + simpl. by apply spawn_new_Inv.
Qed.

Lemma spawnOrUseExisting_Inv env options s :
  Inv s → headroom s →
  ∃ s1 r, spawnOrUseExisting env options s = Some (s1, r)
          ∧ pass_post options s r s1.
Proof.
  intros HI Hroom. unfold spawnOrUseExisting.
  rewrite restart_prestep_eq by done. simpl.
  destruct (needsRestart _ _ _).
  - destruct (new_group_Inv env options
                (after_restart s (PoolOptions.appRoot options)))
      as (s1 & r & Hrun & Hopen & Hpost).
    + by apply after_restart_Inv.
    + destruct Hroom as [Hr1 Hr2].
      pose proof (after_restart_count s (PoolOptions.appRoot options) HI).
      split; [lia|]. by rewrite after_restart_open.
    + apply after_restart_lookup.
    + exists s1, r. split; [done|].
      pose proof (after_restart_count s (PoolOptions.appRoot options) HI).
      split; [by rewrite Hopen, after_restart_open|].
      destruct r; simpl in *; intuition lia.
  - destruct (groups s !! PoolOptions.appRoot options) as [g|] eqn:Hg.
    + rewrite bool_decide_eq_true_2 by eauto. apply use_group_Inv; eauto.
    + rewrite bool_decide_eq_false_2 by (by intros [? ?]).
      by apply new_group_Inv.
Qed.

End pass.

(** ** get keeps the invariant *)

Section get_inv.
Import StdList Pool Run.
Implicit Types (s : t) (g : Group.t) (k : string) (w x : nat) (l : list nat).

Lemma connect_failed_Inv options s w k s1 :
  pass_post options s (Selected w k) s1 →
  ∃ s2, connect_failed options w k s1 = Some s2 ∧ Inv s2
        ∧ count s2 = count s1 - 1
        ∧ sessions_open s2 = sessions_open s1.
Proof.
  intros (Hopen & -> & HI & (g & Hg & Hw) & Hc).
  set (k := PoolOptions.appRoot options) in *.
  set (sI := session_opened w s1) in *.
  destruct (record_of sI k g w HI Hg Hw) as (p & Hp & Hk & Hs).
  change (heap s1 !! w = Some p) in Hp.
  assert (busy sI w) as Hbusy.
  { exists p. split; [done|]. rewrite Hs. unfold sI. simpl.
    destruct (Nat.eq_dec w w); [lia|done]. }
  pose proof (busy_active_pos sI w HI (pooled_intro sI k g w Hg Hw) Hbusy) as Hapos.
  pose proof (active_le_count sI HI) as Hale.
  pose proof (inv_count_lt sI HI) as Hclt.
  pose proof (group_size_pos sI k g HI Hg) as Hgpos.
  pose proof (group_size_le_count sI k g HI Hg) as Hgle.
  change (active sI) with (active s1) in *.
  change (count sI) with (count s1) in *.
  unfold connect_failed. rewrite Hp. simpl. rewrite Hg. simpl. fold k.
  eexists. split; [done|]. split; [|split].
  - apply (Inv_remove sI _ k g w); try done; simpl.
    + destruct (erase w (Group.processes g)); simpl.
      * by rewrite delete_insert_eq.
      * unfold set_size, set_processes. simpl. by rewrite udecr_small by lia.
    + destruct (erase w (Group.processes g)); simpl; apply udecr_small; lia.
    + left. split; [done|].
      destruct (erase w (Group.processes g)); simpl;
        (split; [apply udecr_small; lia|done]).
    + by destruct (erase w (Group.processes g)).
    + intros x Hx. destruct (erase w (Group.processes g)); simpl;
        by rewrite lookup_insert_ne.
    + intros x Hx. destruct (erase w (Group.processes g)); simpl;
        by destruct (Nat.eq_dec w x).
    + intros x Hx. assert (x ∈ sessions_open s1) as Hx'
        by (by destruct (erase w (Group.processes g))).
      assert (nextId sI = nextId s1) as Hn by done.
      destruct (erase w (Group.processes g)); simpl; rewrite <- Hn;
        apply (inv_open_fresh sI HI); by right.
    + pose proof (inv_open_len sI HI) as Hl. simpl in Hl.
      destruct (erase w (Group.processes g)); simpl; lia.
  - destruct (erase w (Group.processes g)); simpl; apply udecr_small; lia.
  - by destruct (erase w (Group.processes g)).
Qed.

Lemma get_loop_Inv envs options : ∀ fuel attempt i s,
  Inv s → headroom s → 1 <= attempt <= MAX_GET_ATTEMPTS →
  (Z.to_nat (MAX_GET_ATTEMPTS - attempt) < fuel)%nat →
  ∃ s' r, get_loop fuel envs i options attempt s = Some (s', r) ∧ Inv s'.
Proof.
  induction fuel as [|fuel IH]; intros attempt i s HI Hroom Hatt Hfuel; [lia|].
  simpl.
  destruct (spawnOrUseExisting_Inv (envs i) options s HI Hroom)
    as (s1 & r & -> & Hpost).
  simpl. destruct r as [w k| |].
  - destruct (connect (envs i) w) as [e|[]].
    + destruct (connect_failed_Inv options s w k s1 Hpost)
        as (s2 & -> & HI2 & Hc2 & Ho2).
      simpl. destruct (attempt =? MAX_GET_ATTEMPTS) eqn:Hlast.
      * eauto.
      * apply Z.eqb_neq in Hlast. unfold MAX_GET_ATTEMPTS in *.
        apply IH; try done.
        -- destruct Hpost as (Hopen & _ & _ & _ & Hc). destruct Hroom as [Hr1 Hr2].
           split; [lia|]. by rewrite Ho2, Hopen.
        -- rewrite uincr_small; [lia|lia|]. rewrite UINT_MOD_val. lia.
        -- rewrite uincr_small; [lia|lia|]. rewrite UINT_MOD_val. lia.
    + destruct Hpost as (_ & _ & HI' & _). eauto.
  - destruct Hpost as (_ & HI' & _). eauto.
  - destruct Hpost as (_ & HI' & _). eauto.
Qed.

Lemma get_Inv envs options s :
  Inv s → headroom s →
  ∃ s' r, get envs options s = Some (s', r) ∧ Inv s'.
Proof.
  intros HI Hroom. unfold get. apply get_loop_Inv; try done.
  all: rewrite uincr_small; unfold MAX_GET_ATTEMPTS; rewrite ?UINT_MOD_val; lia.
Qed.

Lemma get_resume_Inv envs options attempt gq s :
  Inv s → headroom s → 1 <= attempt <= MAX_GET_ATTEMPTS →
  ∃ s' r, get_resume envs options attempt gq s = Some (s', r) ∧ Inv s'.
Proof.
  intros HI Hroom Hatt. unfold get_resume. apply get_loop_Inv; try done.
  - destruct gq; [|done]. by apply (Inv_core s).
  - by destruct gq.
  - lia.
Qed.

(** Every enabled operation runs to its end and keeps the invariant. *)
Lemma run_Inv op s :
  Inv s → enabled s op → ∃ s', run op s = Some s' ∧ Inv s'.
Proof.
  intros HI Hen. destruct op as [envs options|envs options attempt gq|now w| | | | |now];
    simpl in *.
  - destruct (get_Inv envs options s HI Hen) as (s' & r & -> & HI'). eauto.
  - destruct Hen as [Hroom Hatt].
    destruct (get_resume_Inv envs options attempt gq s HI Hroom Hatt)
      as (s' & r & -> & HI'). eauto.
  - by apply close_Inv.
  - eexists. split; [done|]. by apply clear_Inv.
  - eexists. split; [done|]. by apply setMax_Inv.
  - eexists. split; [done|]. by apply setMaxPerApp_Inv.
  - eexists. split; [done|]. by apply setMaxIdleTime_Inv.
  - destruct (cleanerPass_spec now s HI) as (s' & Hrun & HI' & _). eauto.
Qed.

Lemma reachable_Inv s : reachable s → Inv s.
Proof.
  induction 1 as [|s op s' _ IH Hen Hrun]; [apply Inv_initial|].
  destruct (run_Inv op s IH Hen) as (s'' & Hrun' & HI). congruence.
Qed.

End get_inv.

(** ** Who counts requests *)

Section processed.
Import StdList Pool Run.
Implicit Types (s : t) (g : Group.t) (k : string) (w x : nat) (l : list nat).





















End processed.

(** ** The small pools are reachable *)

Section demo_facts.
Import StdList Pool Run.

Lemma reachable_small : reachable Demo.small.
Proof.
  apply (reachable_step initial (OpSetMax 1)); [constructor|exact I|].
  reflexivity.
Defined.

Lemma reachable_one_busy : reachable Demo.one_busy.
Proof.
  apply (reachable_step Demo.small (OpGet (λ _, Demo.env_ok 100 5) Demo.optsA)).
  - exact reachable_small.
  - by vm_compute.
  - vm_compute. reflexivity.
Defined.

Lemma reachable_one_idle : reachable Demo.one_idle.
Proof.
  apply (reachable_step Demo.one_busy (OpClose 7 0%nat)).
  - exact reachable_one_busy.
  - vm_compute. left.
  - vm_compute. reflexivity.
Defined.

Lemma reachable_two_busy : reachable Demo.two_busy.
Proof.
  apply (reachable_step _ (OpGet (λ _, Demo.env_ok 101 6) Demo.optsA)
           _ (reachable_step _ (OpGet (λ _, Demo.env_ok 100 5) Demo.optsA)
                _ reachable_initial
                ltac:(vm_compute; split; reflexivity)
                ltac:(vm_compute; reflexivity))).
  - vm_compute. split; reflexivity.
  - vm_compute. reflexivity.
Defined.

Lemma reachable_idle_and_busy : reachable Demo.idle_and_busy.
Proof.
  apply (reachable_step Demo.two_busy (OpClose 8 0%nat)).
  - exact reachable_two_busy.
  - vm_compute. right. left.
  - vm_compute. reflexivity.
Defined.




Lemma reachable_one_per_app : reachable Demo.one_per_app.
Proof.
  apply (reachable_step _ (OpGet (λ _, Demo.env_ok 100 5) Demo.optsA)
           _ (reachable_step _ (OpSetMaxPerApp 1) _ reachable_initial I
                eq_refl)).
  - vm_compute. split; reflexivity.
  - vm_compute. reflexivity.
Defined.

Lemma reachable_idle_and_busy_full : reachable Demo.idle_and_busy_full.
Proof.
  apply (reachable_step Demo.idle_and_busy (OpSetMax 2)).
  - exact reachable_idle_and_busy.
  - exact I.
  - vm_compute. reflexivity.
Defined.

End demo_facts.

(** ** fillInMiddle *)

Section fill.
Import StrIntUtils.

Lemma length_append (a b : string) :
  String.length (a +:+ b) = (String.length a + String.length b)%nat.
Proof. induction a as [|c a IH]; [reflexivity|simpl; congruence]. Qed.

Lemma append_assoc (a b c : string) : (a +:+ b) +:+ c = a +:+ (b +:+ c).
Proof.
  induction a as [|x a IH]; [reflexivity|].
  change (String x ((a +:+ b) +:+ c) = String x (a +:+ (b +:+ c))).
  by rewrite IH.
Qed.

Lemma take_str_length n s :
  String.length (take_str n s) = Nat.min n (String.length s).
Proof.
  revert s. induction n as [|n IH]; intros [|c s]; simpl; try done.
  by rewrite IH.
Qed.

Lemma take_str_all n s : (String.length s ≤ n)%nat → take_str n s = s.
Proof.
  revert s. induction n as [|n IH]; intros [|c s]; simpl; try done; try lia.
  intros H. rewrite IH; [done|lia].
Qed.

Lemma ssize_append a b : ssize (a +:+ b) = ssize a + ssize b.
Proof. unfold ssize. rewrite length_append. lia. Qed.

(** C10. For an [unsigned int] [max], [fillInMiddle] throws
    [ArgumentException] exactly when [max <= prefix.size() + postfix.size()];
    otherwise it returns [prefix], then the first
    [max - prefix.size() - postfix.size()] characters of [middle] (all of
    [middle] when it is shorter), then [postfix]; the result is at most
    [max] long, begins with [prefix] and ends with [postfix]. *)
Theorem C10_fillInMiddle (max : Z) (prefix middle postfix : string) :
  is_uint max →
  (throws (fillInMiddle max prefix middle postfix)
   ↔ max <= ssize prefix + ssize postfix)
  ∧ (ssize prefix + ssize postfix < max →
     let fill := max - ssize prefix - ssize postfix in
     let r := prefix +:+ substr0 middle fill +:+ postfix in
     fillInMiddle max prefix middle postfix = inr r
     ∧ (ssize middle <= fill → substr0 middle fill = middle)
     ∧ ssize (substr0 middle fill) = Z.min fill (ssize middle)
     ∧ ssize r <= max
     ∧ starts_with prefix r ∧ ends_with postfix r).
Proof.
  intros [Hlo Hhi]. unfold fillInMiddle.
  assert (0 <= ssize prefix ∧ 0 <= ssize postfix ∧ 0 <= ssize middle)
    as (Hp & Hq & Hm) by (unfold ssize; lia).
  split.
  - destruct (max <=? ssize prefix + ssize postfix) eqn:E.
    + apply Z.leb_le in E. simpl. tauto.
    + apply Z.leb_gt in E. destruct (_ <? _); simpl; (split; [tauto|lia]).
  - intros Hlt. cbv zeta.
    rewrite (proj2 (Z.leb_gt _ _)) by lia.
    assert (wrap32 (max - (ssize prefix + ssize postfix))
            = max - ssize prefix - ssize postfix) as ->.
    { rewrite wrap32_small; lia. }
    set (fill := max - ssize prefix - ssize postfix).
    assert (ssize middle <= fill → substr0 middle fill = middle) as Hall.
    { intros Hle. unfold substr0. apply take_str_all. unfold ssize in *. lia. }
    assert (ssize (substr0 middle fill) = Z.min fill (ssize middle)) as Hlen.
    { unfold substr0, ssize. rewrite take_str_length. unfold ssize in *. lia. }
    refine (conj _ (conj Hall (conj Hlen (conj _ (conj _ _))))).
    + destruct (ssize middle <? fill) eqn:E; [|done].
      apply Z.ltb_lt in E. rewrite Hall by lia. done.
    + rewrite !ssize_append, Hlen. lia.
    + by eexists.
    + exists (prefix +:+ substr0 middle fill). by rewrite append_assoc.
Qed.

(** The theorem at work on ["ab"], ["cdefgh"], ["yz"] and [max = 7]. *)
Lemma C10_fillInMiddle_witness :
  is_uint 7 ∧ fillInMiddle 7 "ab" "cdefgh" "yz" = inr "abcdeyz".
Proof.
  split; [by vm_compute|].
  apply (C10_fillInMiddle 7 "ab" "cdefgh" "yz"); [by vm_compute|].
  vm_compute. reflexivity.
Defined.

End fill.

(** ** The restart detector *)

Section restart_detector.
Import StdList Pool Run.

(** C8. The restart directory is [appRoot + "/tmp"] when
    [options.restartDir] is empty, [restartDir] itself when it starts with
    ['/'], and [appRoot + "/" + restartDir] otherwise; the application needs
    a restart exactly when the throttled [stat] of [always_restart.txt] in
    that directory succeeds or the change checker reports that
    [restart.txt] in that directory has changed. *)
Theorem C8_needsRestart (env : Env) (appRoot : string) (options : PoolOptions.t) :
  let dir := restartDirOf appRoot options in
  let rate := PoolOptions.statThrottleRate options in
  (PoolOptions.restartDir options = "" → dir = appRoot +:+ "/tmp")
  ∧ (∀ r, PoolOptions.restartDir options = String "/" r →
          dir = PoolOptions.restartDir options)
  ∧ (∀ c r, PoolOptions.restartDir options = String c r → c ≠ "/"%char →
            dir = appRoot +:+ "/" +:+ PoolOptions.restartDir options)
  ∧ (needsRestart env appRoot options = true
     ↔ cstat_stat env (dir +:+ "/always_restart.txt") rate = 0
       ∨ file_changed env (dir +:+ "/restart.txt") rate = true).
Proof.
  cbv zeta. unfold restartDirOf.
  split; [by intros ->|]. split; [by intros r ->|]. split.
  - intros c r -> Hc. destruct (Ascii.eqb c "/") eqn:E; [|done].
    by apply Ascii.eqb_eq in E.
  - unfold needsRestart, alwaysRestartFile, restartFile, restartDirOf.
    rewrite orb_true_iff, Z.eqb_eq. done.
Qed.

End restart_detector.

(** ** The invariants of the pool *)

Section invariants.
Import StdList Pool Run.



End invariants.

(** ** Spawn failures *)

Section spawn_failure.
Import StdList Pool Run.

Lemma select_result env w k s s1 r :
  select env w k s = Some (s1, r) → r = Selected w k.
Proof.
  unfold select. destruct (heap s !! w); simpl; [|done]. by intros [= _ <-].
Qed.








End spawn_failure.

(** ** Eviction of the least recently used idle record *)

Section eviction.
Import StdList Pool Run.

(** C3. When [get] asks for an application that has no group while
    [active < max] and [count == max], the record at the front of
    [inactiveApps] is evicted: it leaves [inactiveApps] and the list of its
    own group, that group is erased when it becomes empty and has its size
    decremented otherwise, and [count] is decremented; only then is the new
    record spawned. *)
Theorem C3_lru_eviction (env : Env) (options : PoolOptions.t) (s : t) :
  let k := PoolOptions.appRoot options in
  reachable s → groups s !! k = None → active s < max s → count s = max s →
  let spre := if needsRestart env k options then after_restart s k else s in
  ∃ w p g,
    head (inactiveApps s) = Some w
    ∧ heap s !! w = Some p
    ∧ groups s !! Process.getAppRoot (ProcessInfo.process p) = Some g
    ∧ w ∈ Group.processes g
    ∧ (let key := Process.getAppRoot (ProcessInfo.process p) in
       let s0 := reaped spre key g w in
       evict spre = Some s0
       ∧ inactiveApps s0 = tail (inactiveApps s)
       ∧ (w ∉ inactiveApps s0)
       ∧ (groups s0
          = match erase w (Group.processes g) with
            | [] => delete key (groups s)
            | ps => <[key := Group.mk ps (Group.size g - 1)
                               (Group.maxRequests g)]> (groups s)
            end)
       ∧ (w ∉ erase w (Group.processes g))
       ∧ count s0 = count s - 1
       ∧ active s0 = active s
       ∧ spawnOrUseExisting env options s = spawn_new env options s0).
Proof.
  intros k HI%reachable_Inv Hg Hact Hcount spre.
  assert (Inv spre ∧ groups spre = groups s ∧ count spre = count s
          ∧ active spre = active s ∧ max spre = max s
          ∧ inactiveApps spre = inactiveApps s ∧ heap spre = heap s)
    as (HI' & Eg & Ec & Ea & Em & Ei & Eh).
  { unfold spre. destruct (needsRestart env k options).
    - split; [by apply after_restart_Inv|]. unfold after_restart.
      rewrite Hg. done.
    - done. }
  destruct (evict_spec spre HI') as (w & p & g & Hw & Hp & Hgw & Hin & Hev & HI0).
  { rewrite Ei. pose proof (inv_inactive_len s HI). intros E. rewrite E in *.
    simpl in *. lia. }
  rewrite Ei in Hw. rewrite Eh in Hp. rewrite Eg in Hgw.
  exists w, p, g. split; [done|]. split; [done|]. split; [done|].
  split; [done|]. cbv zeta. split; [done|].
  pose proof (inv_inactive_nodup s HI) as Hnd.
  destruct (inactiveApps s) as [|w' rest] eqn:Hi; [done|].
  injection Hw as ->.
  apply NoDup_cons in Hnd as [Hnin Hnd].
  split; [simpl; rewrite Ei; simpl; by rewrite decide_True|].
  split; [simpl; rewrite Ei; simpl; by rewrite decide_True|].
  split; [simpl; rewrite Eg; by destruct (erase w (Group.processes g))|].
  split.
  { intros Hx. apply elem_of_erase in Hx as [_ ?]; [done|].
    by apply (g_nodup s (Process.getAppRoot (ProcessInfo.process p)) g),
      inv_groups. }
  split; [simpl; by rewrite Ec|]. split; [done|].
  unfold spawnOrUseExisting. rewrite restart_prestep_eq by done. simpl.
  fold k. unfold spre in *.
  destruct (needsRestart env k options).
  - unfold new_group. rewrite Em, Ea, Ec.
    rewrite (proj2 (Z.leb_gt _ _)) by lia.
    rewrite (proj2 (Z.eqb_eq _ _)) by done. by rewrite Hev.
  - rewrite bool_decide_eq_false_2 by (rewrite Hg; by intros [? ?]).
    unfold new_group.
    rewrite (proj2 (Z.leb_gt _ _)) by lia.
    rewrite (proj2 (Z.eqb_eq _ _)) by done. by rewrite Hev.
Qed.

(** The theorem at the full pool whose one record is idle, [get] asking for
    another application. *)
Lemma C3_lru_eviction_witness :
  reachable Demo.one_idle
  ∧ ∃ w p g,
      head (inactiveApps Demo.one_idle) = Some w
      ∧ heap Demo.one_idle !! w = Some p
      ∧ groups Demo.one_idle !! Process.getAppRoot (ProcessInfo.process p)
        = Some g
      ∧ w ∈ Group.processes g.
Proof.
  split; [exact reachable_one_idle|].
  destruct (C3_lru_eviction (Demo.env_ok 101 9) Demo.optsB Demo.one_idle
              reachable_one_idle) as (w & p & g & H1 & H2 & H3 & H4 & _).
  - vm_compute. reflexivity.
  - vm_compute. reflexivity.
  - vm_compute. reflexivity.
  - exists w, p, g. exact (conj H1 (conj H2 (conj H3 H4))).
Defined.

End eviction.

(** ** The least busy record of a saturated group *)

Section least_busy.
Import StdList Pool Run.



End least_busy.

(** ** The restart purge *)

Section restart_purge.
Import StdList Pool Run.

Lemma evict_trace s s0 : evict s = Some s0 → trace s0 = trace s.
Proof.
  unfold evict. destruct (head _) as [w|]; simpl; [|done].
  destruct (heap s !! w) as [p|]; simpl; [|done].
  destruct (groups s !! _) as [g|]; simpl; [|done].
  intros [= <-]. by destruct (erase w (Group.processes g)).
Qed.

Lemma select_trace env w k s s1 r :
  select env w k s = Some (s1, r) → trace s1 = trace s.
Proof.
  unfold select. destruct (heap s !! w); simpl; [|done]. by intros [= <- _].
Qed.

(** After the pre-step, a pass for an application without a group calls
    nothing but [spawn] and [notify_all]. *)
Lemma new_group_trace env options s s1 r :
  new_group env options s = Some (s1, r) →
  ∃ tl, trace s1 = trace s ++ tl ∧ ∀ a, Reload a ∉ tl.
Proof.
  unfold new_group. destruct (max s <=? active s).
  { intros [= <- _]. exists []. split; [by rewrite app_nil_r|].
    intros a. apply not_elem_of_nil. }
  assert (∀ s0, trace s0 = trace s → spawn_new env options s0 = Some (s1, r) →
            ∃ tl, trace s1 = trace s ++ tl ∧ ∀ a, Reload a ∉ tl) as Hnew.
  { intros s0 Ht. unfold spawn_new. destruct (spawn env options) as [e|pid].
    - intros [= <- _]. exists [Spawn (PoolOptions.appRoot options)].
      split; [simpl; by rewrite Ht|]. intros a [=]%list_elem_of_singleton.
    - simpl. intros Hsel%select_trace. rewrite Hsel. simpl.
      exists [Spawn (PoolOptions.appRoot options); NotifyAll].
      split; [by rewrite Ht, <- app_assoc|].
      intros a [[=]|[=]%list_elem_of_singleton]%elem_of_cons. }
  destruct (count s =? max s).
  - destruct (evict s) as [s0|] eqn:Hev; simpl; [|done].
    apply Hnew. by apply evict_trace.
  - simpl. by apply Hnew.
Qed.

(** C5. For a group of any size, when the restart detector reports that the
    application needs a restart, the whole group is purged before the
    acquisition proceeds: the idle records of the group leave
    [inactiveApps], [active] goes down by one for each busy record, every
    record leaves the group with [count] going down by one each, the group
    is erased, [reload(appRoot)] is called exactly once and [notify_all] is
    called. *)
Theorem C5_restart_purge (env : Env) (options : PoolOptions.t) (s : t)
    (g : Group.t) :
  let k := PoolOptions.appRoot options in
  reachable s → groups s !! k = Some g → needsRestart env k options = true →
  let s1 := after_restart s k in
  let busy_records := filter (λ w, ¬ is_idle s w) (Group.processes g) in
  restart_prestep env options s = Some (s1, false)
  ∧ spawnOrUseExisting env options s = new_group env options s1
  ∧ groups s1 = delete k (groups s)
  ∧ inactiveApps s1 = filter (λ x, x ∉ Group.processes g) (inactiveApps s)
  ∧ (∀ w, w ∈ Group.processes g → w ∉ inactiveApps s1)
  ∧ active s1 = active s - Z.of_nat (length busy_records)
  ∧ count s1 = count s - Z.of_nat (length (Group.processes g))
  ∧ 0 <= active s1 <= count s1
  ∧ trace s1 = trace s ++ [Reload k; NotifyAll]
  ∧ (∀ s2 r, spawnOrUseExisting env options s = Some (s2, r) →
       ∃ tl, trace s2 = trace s ++ [Reload k; NotifyAll] ++ tl
             ∧ ∀ a, Reload a ∉ tl).
Proof.
  intros k HI%reachable_Inv Hg Hyes s1 busy_records.
  assert (restart_prestep env options s = Some (s1, false)) as Hpre.
  { rewrite restart_prestep_eq by done. fold k. by rewrite Hyes. }
  assert (spawnOrUseExisting env options s = new_group env options s1) as Hpass.
  { unfold spawnOrUseExisting. by rewrite Hpre. }
  pose proof (after_restart_Inv s k HI) as HI1. fold s1 in HI1.
  assert (trace s1 = trace s ++ [Reload k; NotifyAll]) as Htrace.
  { unfold s1, after_restart. rewrite Hg. simpl. by rewrite <- app_assoc. }
  split; [done|]. split; [done|].
  split; [unfold s1, after_restart; by rewrite Hg|].
  split; [unfold s1, after_restart; by rewrite Hg|].
  split.
  { intros w Hw. unfold s1, after_restart. rewrite Hg. simpl.
    rewrite list_elem_of_filter. tauto. }
  split; [unfold s1, after_restart; by rewrite Hg|].
  split; [unfold s1, after_restart; by rewrite Hg|].
  split; [split; [by apply inv_active|by apply active_le_count]|].
  split; [done|].
  intros s2 r. rewrite Hpass. intros (tl & Ht & Hno)%new_group_trace.
  exists tl. split; [|done]. by rewrite Ht, Htrace, <- app_assoc.
Qed.

(** The theorem at the pool whose group has an idle and a busy record,
    [always_restart.txt] being present. *)
Lemma C5_restart_purge_witness :
  reachable Demo.idle_and_busy
  ∧ restart_prestep (Demo.env_restart 102 9) Demo.optsA Demo.idle_and_busy
    = Some (after_restart Demo.idle_and_busy (PoolOptions.appRoot Demo.optsA),
            false).
Proof.
  split; [exact reachable_idle_and_busy|].
  destruct (C5_restart_purge (Demo.env_restart 102 9) Demo.optsA
              Demo.idle_and_busy (Group.mk [0%nat; 1%nat] 2 0)
              reachable_idle_and_busy) as (H1 & _).
  - vm_compute. reflexivity.
  - vm_compute. reflexivity.
  - exact H1.
Defined.

(** The purge loop on that group of two: both records leave, the idle one
    through [inactiveApps], the busy one through [active]. *)
Example purge_two_records :
  (λ r, (map_to_list (groups r.1), count r.1, active r.1, inactiveApps r.1,
         trace r.1, r.2))
    <$> restart_prestep (Demo.env_restart 102 9) Demo.optsA Demo.idle_and_busy
  = Some ([], 0, 0, [],
          [Spawn "/app/a"; NotifyAll; Spawn "/app/a"; NotifyAll; NotifyAll;
           Reload "/app/a"; NotifyAll], false).
Proof. vm_compute. reflexivity. Qed.

End restart_purge.

(** ** Connect failures in get *)

Section connect_failure.
Import StdList Pool Run.

(** C7. When [connect] fails inside [get], the pool decrements the
    [sessions] of the selected record, erases the record from its group's
    list (and the group when it becomes empty), decrements [count] and
    [active], calls [notify_all] and tries again; on attempt
    [MAX_GET_ATTEMPTS] it throws instead an [IOException] whose message holds
    the application root and the cause. *)
Theorem C7_connect_failure (envs : nat → Env) (i : nat)
    (options : PoolOptions.t) (attempt : Z) (fuel : nat) (s s1 : t)
    (w : nat) (k : string) (e : Exception) :
  reachable s → headroom s →
  spawnOrUseExisting (envs i) options s = Some (s1, Selected w k) →
  connect (envs i) w = inl e →
  ∃ p g s2,
    k = PoolOptions.appRoot options
    ∧ heap s1 !! w = Some p ∧ 0 < ProcessInfo.sessions p
    ∧ groups s1 !! k = Some g ∧ w ∈ Group.processes g
    ∧ connect_failed options w k s1 = Some s2
    ∧ heap s2 = <[w := set_sessions (ProcessInfo.sessions p - 1) p]> (heap s1)
    ∧ (groups s2
       = match erase w (Group.processes g) with
         | [] => delete k (groups s1)
         | ps => <[k := Group.mk ps (Group.size g - 1) (Group.maxRequests g)]>
                   (groups s1)
         end)
    ∧ (w ∉ erase w (Group.processes g))
    ∧ count s2 = count s1 - 1
    ∧ active s2 = active s1 - 1
    ∧ inactiveApps s2 = inactiveApps s1
    ∧ trace s2 = trace s1 ++ [NotifyAll]
    ∧ get_loop (S fuel) envs i options attempt s
      = if attempt =? MAX_GET_ATTEMPTS
        then Some (s2, Raised (IOException
               ("Cannot connect to an existing application instance for '"
                +:+ PoolOptions.appRoot options +:+ "': "
                +:+ match e with
                    | SystemException _ sys => sys
                    | _ => what e
                    end)))
        else get_loop fuel envs (S i) options (uincr attempt) s2.
Proof.
  intros HI%reachable_Inv Hroom Hrun Hconn.
  destruct (spawnOrUseExisting_Inv (envs i) options s HI Hroom)
    as (s1' & r' & Hrun' & Hpost).
  rewrite Hrun in Hrun'. injection Hrun' as <- <-.
  destruct (connect_failed_Inv options s w k s1 Hpost) as (s2 & Hcf & _).
  destruct Hpost as (Hopen & -> & HIo & (g & Hg & Hw) & Hc).
  set (k := PoolOptions.appRoot options) in *.
  set (sI := session_opened w s1) in *.
  destruct (record_of sI k g w HIo Hg Hw) as (p & Hp & Hk & Hs).
  change (heap s1 !! w = Some p) in Hp.
  assert (0 < ProcessInfo.sessions p) as Hpos.
  { rewrite Hs. unfold sI. simpl. destruct (Nat.eq_dec w w); [lia|done]. }
  assert (busy sI w) as Hbusy by (by exists p).
  pose proof (busy_active_pos sI w HIo (pooled_intro sI k g w Hg Hw) Hbusy) as Hapos.
  pose proof (active_le_count sI HIo) as Hale.
  pose proof (inv_count_lt sI HIo) as Hclt.
  pose proof (group_size_pos sI k g HIo Hg) as Hgpos.
  pose proof (group_size_le_count sI k g HIo Hg) as Hgle.
  pose proof (sessions_range sI k w p HIo (record_of sI k g w HIo Hg Hw) Hp) as Hsr.
  change (active sI) with (active s1) in *.
  change (count sI) with (count s1) in *.
  change (groups sI) with (groups s1) in *.
  exists p, g, s2. split; [done|]. split; [done|]. split; [done|].
  split; [done|]. split; [done|]. split; [done|].
  assert (get_loop (S fuel) envs i options attempt s
          = if attempt =? MAX_GET_ATTEMPTS
            then Some (s2, Raised (IOException (connect_error_message options e)))
            else get_loop fuel envs (S i) options (uincr attempt) s2) as Hloop.
  { simpl. rewrite Hrun. simpl. rewrite Hconn, Hcf. done. }
  revert Hcf. unfold connect_failed. rewrite Hp. simpl. rewrite Hg. simpl.
  fold k. intros [= <-].
  split; [by destruct (erase w (Group.processes g)); simpl;
            rewrite udecr_small by lia|].
  split.
  { destruct (erase w (Group.processes g)); simpl.
    - by rewrite delete_insert_eq.
    - unfold set_size, set_processes. simpl. by rewrite udecr_small by lia. }
  split.
  { intros Hx. apply elem_of_erase in Hx as [_ ?]; [done|].
    by apply (g_nodup sI k g), inv_groups. }
  split; [destruct (erase w (Group.processes g)); simpl; apply udecr_small; lia|].
  split; [destruct (erase w (Group.processes g)); simpl; apply udecr_small; lia|].
  split; [by destruct (erase w (Group.processes g))|].
  split; [by destruct (erase w (Group.processes g))|].
  exact Hloop.
Qed.

(** The theorem at the empty pool of capacity 1, the spawned process
    refusing the connection. *)
Lemma C7_connect_failure_witness :
  reachable Demo.small
  ∧ ∃ s1 s2 w,
      spawnOrUseExisting (Demo.env_connect_fails 100 5) Demo.optsA Demo.small
      = Some (s1, Selected w "/app/a")
      ∧ connect_failed Demo.optsA w "/app/a" s1 = Some s2
      ∧ count s2 = count s1 - 1.
Proof.
  split; [exact reachable_small|].
  assert (∃ s1 w,
    spawnOrUseExisting (Demo.env_connect_fails 100 5) Demo.optsA Demo.small
    = Some (s1, Selected w "/app/a")) as (s1 & w & Hrun)
    by (vm_compute; eexists _, _; reflexivity).
  destruct (C7_connect_failure (λ _, Demo.env_connect_fails 100 5) 0
              Demo.optsA 1 9 Demo.small s1 w "/app/a"
              (SystemException "connect() failed" "Connection refused")
              reachable_small) as (p & g & s2 & _ & _ & _ & _ & _ & Hcf & _ & _
                                     & _ & Hc & _).
  - vm_compute. split; reflexivity.
  - exact Hrun.
  - reflexivity.
  - exists s1, s2, w. exact (conj Hrun (conj Hcf Hc)).
Defined.

(** Ten refused connections in a row: [get] gives up with an [IOException]
    that names the application and the cause, having spawned ten times. *)
Example get_gives_up :
  (λ r, (r.2, count_occ Event_eq_dec (trace r.1) (Spawn "/app/a"),
         count r.1, active r.1))
    <$> get (λ _, Demo.env_connect_fails 100 5) Demo.optsA Demo.small
  = Some (Raised (IOException
            "Cannot connect to an existing application instance for '/app/a': Connection refused"),
          10%nat, 0, 0).
Proof. vm_compute. reflexivity. Qed.

End connect_failure.

(** ** The cleaner thread *)

Section cleaner_claim.
Import StdList Pool Run.

(** C9. A timeout pass of the cleaner over [inactiveApps] retires exactly
    the records with [maxIdleTime > 0] and [now - lastUsed > maxIdleTime]:
    each leaves its group's list and [inactiveApps], its group's size and
    [count] go down by one, and a group that becomes empty is erased; the
    other records stay where they are, and [active] is not touched. *)
Theorem C9_cleaner_pass (now : Z) (s : t) :
  reachable s →
  ∃ s', cleanerPass now s = Some s'
    ∧ (∀ w p, heap s !! w = Some p →
         stale s now w = true
         ↔ 0 < maxIdleTime s ∧ maxIdleTime s < now - ProcessInfo.lastUsed p)
    ∧ inactiveApps s' = filter (λ w, stale s now w = false) (inactiveApps s)
    ∧ (∀ k, groups s' !! k
            = groups s !! k ≫= reap_group s now (inactiveApps s))
    ∧ (∀ w, w ∈ inactiveApps s → stale s now w = true →
         (w ∉ inactiveApps s') ∧ ¬ pooled s' w)
    ∧ count s'
      = count s - Z.of_nat (length (filter (λ w, stale s now w = true)
                                       (inactiveApps s)))
    ∧ active s' = active s
    ∧ heap s' = heap s.
Proof.
  intros HI%reachable_Inv.
  destruct (cleanerPass_spec now s HI)
    as (s' & Hrun & HI' & Hi & Hg & Hc & Ha & Hh & Hm).
  exists s'. split; [done|]. split.
  { intros w p Hp. unfold stale, idle_too_long. rewrite Hp.
    rewrite andb_true_iff, !Z.ltb_lt. done. }
  split; [done|]. split; [done|]. split; [|done].
  intros w Hw Hst. split.
  - rewrite Hi, list_elem_of_filter. intros [Hf _]. congruence.
  - intros (k & g' & Hg' & Hwg'). rewrite Hg in Hg'.
    destruct (groups s !! k) as [g|] eqn:Hgk; [simpl in Hg'|done].
    unfold reap_group in Hg'.
    destruct (filter _ (Group.processes g)) as [|a l] eqn:Hf; [done|].
    injection Hg' as <-. simpl in Hwg'. rewrite <- Hf in Hwg'.
    apply list_elem_of_filter in Hwg' as [Hn _]. by apply Hn.
Qed.

(** The theorem at the pool whose one record has been idle since time 7,
    looked at at time 1000. *)
Lemma C9_cleaner_pass_witness :
  reachable Demo.one_idle
  ∧ ∃ s', cleanerPass 1000 Demo.one_idle = Some s'
          ∧ active s' = active Demo.one_idle.
Proof.
  split; [exact reachable_one_idle|].
  destruct (C9_cleaner_pass 1000 Demo.one_idle reachable_one_idle)
    as (s' & Hrun & _ & _ & _ & _ & _ & Ha & _).
  exists s'. exact (conj Hrun Ha).
Defined.

(** At time 1000 the idle record of that pool is retired and its group
    goes; at time 100 it is kept. *)
Example cleaner_retires :
  (λ s, (map_to_list (groups s), count s, active s, inactiveApps s))
    <$> cleanerPass 1000 Demo.one_idle
  = Some ([], 0, 0, []).
Proof. vm_compute. reflexivity. Qed.

Example cleaner_keeps :
  (λ s, (map_to_list (groups s), count s, active s, inactiveApps s))
    <$> cleanerPass 100 Demo.one_idle
  = Some ([("/app/a", Group.mk [0%nat] 1 0)], 1, 0, [0%nat]).
Proof. vm_compute. reflexivity. Qed.

End cleaner_claim.

(** ** Retirement after [maxRequests] requests *)

Section max_requests.
Import StdList Pool Run.
Implicit Types (s : t) (g : Group.t) (k : string) (w x : nat) (l : list nat).



(** With [maxRequests = 3], record 0 is still there after two requests,
    having counted both, and is gone after the third. *)
Example three_requests :
  (λ s, (map_to_list (groups s), count s,
         ProcessInfo.processed <$> heap s !! 0%nat))
    <$> [Demo.serve (Demo.serve initial);
         Demo.serve (Demo.serve (Demo.serve initial))]
  = [([("/app/a", Group.mk [0%nat] 1 3)], 1, Some 2);
     ([], 0, Some 3)].
Proof. vm_compute. reflexivity. Qed.

End max_requests.

(** ** split *)

Section split.
Import StrIntUtils.
Implicit Types (s str : string) (sep c : ascii) (out ps : list string).

Lemma append_cons x (r b : string) : String x r +:+ b = String x (r +:+ b).
Proof. reflexivity. Qed.

Lemma append_nil (b : string) : EmptyString +:+ b = b.
Proof. reflexivity. Qed.

Lemma fmap_add_0 (x : option nat) : (λ p, 0 + p)%nat <$> x = x.
Proof. by destruct x. Qed.

Lemma find_drop sep : ∀ str start,
  find str sep start
  = (λ p, start + p)%nat <$> find (drop_str start str) sep 0.
Proof.
  induction str as [|c r IH]; intros [|k]; try done.
  - cbn [drop_str]. by rewrite fmap_add_0.
  - cbn [find drop_str]. rewrite IH. by destruct (find (drop_str k r) sep 0).
Qed.

Lemma drop_str_0 s : drop_str 0 s = s.
Proof. by destruct s. Qed.

Lemma drop_str_drop : ∀ s a b, drop_str a (drop_str b s) = drop_str (b + a) s.
Proof.
  induction s as [|c r IH]; intros a b.
  - by destruct a, b.
  - destruct b as [|b]; [done|]. apply IH.
Qed.

Lemma drop_str_length : ∀ s n,
  String.length (drop_str n s) = (String.length s - n)%nat.
Proof.
  induction s as [|c r IH]; intros [|n]; cbn [drop_str String.length]; try done;
    by rewrite IH.
Qed.

Lemma occurrences_app c : ∀ a b,
  occurrences c (a +:+ b) = (occurrences c a + occurrences c b)%nat.
Proof.
  induction a as [|x r IH]; intros b; [done|].
  rewrite append_cons. cbn [occurrences]. rewrite IH. lia.
Qed.

Lemma find_0_None sep : ∀ s, find s sep 0 = None → occurrences sep s = 0%nat.
Proof.
  induction s as [|c r IH]; [done|]. cbn [find occurrences].
  destruct (Ascii.eqb c sep); [done|].
  destruct (find r sep 0); [done|]. intros _. by rewrite IH.
Qed.

Lemma find_0_Some sep : ∀ s p,
  find s sep 0 = Some p →
  (p < String.length s)%nat
  ∧ s = take_str p s +:+ String sep (drop_str (S p) s)
  ∧ find (take_str p s) sep 0 = None.
Proof.
  induction s as [|c r IH]; intros p; [done|]. cbn [find].
  destruct (Ascii.eqb c sep) eqn:E.
  - intros [= <-]. apply Ascii.eqb_eq in E as ->.
    cbn [String.length take_str drop_str find]. rewrite append_nil.
    split; [lia|done].
  - destruct (find r sep 0) as [q|] eqn:F; [|done]. intros [= <-].
    destruct (IH q eq_refl) as (Hlt & Heq & Hno).
    cbn [String.length take_str drop_str find]. rewrite append_cons, E, Hno.
    split; [lia|]. split; [|done]. f_equal. exact Heq.
Qed.

Lemma split_loop_spec str sep : ∀ fuel start out,
  (start ≤ String.length str)%nat →
  (String.length str - start < fuel)%nat →
  ∃ ps, split_loop fuel str sep start out = Some (out ++ ps)
        ∧ join sep ps = drop_str start str
        ∧ Forall (λ p, find p sep 0 = None) ps
        ∧ length ps = S (occurrences sep (drop_str start str)).
Proof.
  induction fuel as [|fuel IH]; intros start out Hle Hfuel; [lia|].
  cbn [split_loop]. rewrite find_drop.
  destruct (find (drop_str start str) sep 0) as [p|] eqn:F; cbn [fmap option_fmap option_map].
  - destruct (find_0_Some sep _ p F) as (Hlt & Heq & Hno).
    rewrite drop_str_length in Hlt.
    unfold substr. rewrite decide_True by done. cbn [mbind option_bind].
    replace (start + p - start)%nat with p by lia.
    destruct (IH (start + p + 1)%nat
                (out ++ [take_str p (drop_str start str)]))
      as (ps & Hrun & Hjoin & Hsep & Hlen); [lia|lia|].
    exists (take_str p (drop_str start str) :: ps).
    rewrite Hrun, <- app_assoc. split; [done|].
    rewrite drop_str_drop in Heq.
    replace (start + S p)%nat with (start + p + 1)%nat in Heq by lia.
    split; [|split].
    + destruct ps as [|x ps']; [done|].
      change (join sep (?a :: x :: ps'))
        with (a +:+ String sep (join sep (x :: ps'))).
      by rewrite Hjoin, <- Heq.
    + by constructor.
    + cbn [length]. rewrite Hlen. f_equal.
      rewrite Heq at 1. rewrite occurrences_app. cbn [occurrences].
      rewrite (find_0_None sep _ Hno), Ascii.eqb_refl. lia.
  - unfold substr_from. rewrite decide_True by done. cbn [mbind option_bind].
    exists [drop_str start str]. split; [done|]. split; [done|].
    split; [by repeat constructor|].
    cbn [length]. by rewrite (find_0_None sep _ F).
Qed.

(** [split] returns (it never asks [substr] for a position behind the end
    of the string), and what it returns is the one way to cut [str] at
    its [sep]s: the pieces joined with [sep] give [str] back, no piece
    holds a [sep], and there is one piece more than [str] has [sep]s. *)
Theorem split_pieces (str : string) (sep : ascii) :
  ∃ out, split str sep = Some out
         ∧ join sep out = str
         ∧ Forall (λ p, find p sep 0 = None) out
         ∧ length out = S (occurrences sep str).
Proof.
  destruct (split_loop_spec str sep (S (String.length str)) 0 [])
    as (ps & Hrun & Hjoin & Hsep & Hlen); [lia|lia|].
  rewrite drop_str_0 in Hjoin, Hlen. by exists ps.
Qed.

Lemma join_cons sep x ps :
  ps ≠ [] → join sep (x :: ps) = x +:+ String sep (join sep ps).
Proof. by destruct ps. Qed.

Lemma find_app_None sep : ∀ a b,
  find a sep 0 = None → find (a +:+ String sep b) sep 0 = Some (String.length a).
Proof.
  induction a as [|c r IH]; intros b.
  - intros _. rewrite append_nil. cbn. by rewrite Ascii.eqb_refl.
  - rewrite append_cons. cbn [find String.length].
    destruct (Ascii.eqb c sep); [done|].
    destruct (find r sep 0) eqn:F; [done|]. intros _. by rewrite IH.
Qed.

Lemma take_str_app : ∀ a b, take_str (String.length a) (a +:+ b) = a.
Proof.
  induction a as [|c r IH]; intros b; [by destruct b|].
  rewrite append_cons. cbn. by rewrite IH.
Qed.

Lemma drop_str_app : ∀ a b, drop_str (String.length a) (a +:+ b) = b.
Proof.
  induction a as [|c r IH]; intros b; [by destruct b|].
  rewrite append_cons. cbn. by rewrite IH.
Qed.

Lemma find_app_no sep : ∀ a b,
  find a sep 0 = None → find (a +:+ b) sep 0
                        = (λ p, String.length a + p)%nat <$> find b sep 0.
Proof.
  induction a as [|c r IH]; intros b.
  - intros _. rewrite append_nil. cbn [String.length]. by rewrite fmap_add_0.
  - rewrite append_cons. cbn [find String.length].
    destruct (Ascii.eqb c sep); [done|].
    destruct (find r sep 0) eqn:F; [done|]. intros _. rewrite IH by done.
    by destruct (find b sep 0).
Qed.

Lemma join_inj sep : ∀ out pieces,
  out ≠ [] → pieces ≠ [] →
  Forall (λ p, find p sep 0 = None) out →
  Forall (λ p, find p sep 0 = None) pieces →
  join sep out = join sep pieces → out = pieces.
Proof.
  induction out as [|x out IH]; intros [|y ps] Hne1 Hne2 Ho Hp Hjoin;
    [done|done|done|].
  apply Forall_cons in Ho as [Hx Ho]. apply Forall_cons in Hp as [Hy Hp].
  destruct out as [|x' out']; destruct ps as [|y' ps'].
  - cbn in Hjoin. by subst.
  - exfalso. rewrite (join_cons sep y) in Hjoin by done.
    cbn [join] in Hjoin. subst x.
    rewrite find_app_None in Hx by done. done.
  - exfalso. rewrite (join_cons sep x) in Hjoin by done.
    cbn [join] in Hjoin. subst y.
    rewrite find_app_None in Hy by done. done.
  - rewrite (join_cons sep x), (join_cons sep y) in Hjoin by done.
    assert (String.length x = String.length y) as Hlen.
    { assert (find (x +:+ String sep (join sep (x' :: out'))) sep 0
              = Some (String.length x)) as H1 by (by apply find_app_None).
      rewrite Hjoin, find_app_None in H1 by done. congruence. }
    assert (x = y) as ->.
    { rewrite <- (take_str_app x (String sep (join sep (x' :: out')))).
      rewrite Hjoin, Hlen. apply take_str_app. }
    f_equal. apply IH; [done|done|done|done|].
    apply (f_equal (drop_str (String.length y))) in Hjoin.
    rewrite !drop_str_app in Hjoin. congruence.
Qed.

(** [split] undoes [join]: a nonempty list of pieces without [sep] is what
    [split] makes of the pieces joined with [sep]. *)
Theorem split_join (sep : ascii) (pieces : list string) :
  pieces ≠ [] →
  Forall (λ p, find p sep 0 = None) pieces →
  split (join sep pieces) sep = Some pieces.
Proof.
  intros Hne Hsep.
  destruct (split_loop_spec (join sep pieces) sep
              (S (String.length (join sep pieces))) 0 [])
    as (out & Hrun & Hjoin & Hno & Hlen); [lia|lia|].
  rewrite drop_str_0 in Hjoin. unfold split. rewrite Hrun. f_equal.
  apply (join_inj sep); try done. by destruct out.
Qed.

(** The theorem at the pieces of a path. *)
Lemma split_join_witness :
  split (join "/" ["usr"; "lib"; ""; "passenger"]) "/"
  = Some ["usr"; "lib"; ""; "passenger"].
Proof.
  apply (split_join "/" ["usr"; "lib"; ""; "passenger"]).
  - discriminate.
  - repeat constructor.
Defined.

End split.

(** ** toString of a vector *)

Section to_string.
Import StrIntUtils.

Lemma append_empty_r (a : string) : a +:+ EmptyString = a.
Proof. induction a as [|c a IH]; [done|]. rewrite append_cons. by rewrite IH. Qed.

Lemma quoted_items_cons x y rest :
  quoted_items (x :: y :: rest)
  = "'" +:+ x +:+ "', " +:+ quoted_items (y :: rest).
Proof. reflexivity. Qed.

Lemma toString_loop_spec size : ∀ rest i result,
  size <= UINT_MOD →
  i = size - Z.of_nat (length rest) →
  0 <= i →
  toString_loop size i rest result = result +:+ quoted_items rest.
Proof.
  induction rest as [|x rest IH]; intros i result Hsize Hi Hpos.
  - cbn [toString_loop quoted_items]. by rewrite append_empty_r.
  - cbn [toString_loop]. cbn [length] in Hi.
    destruct rest as [|y rest].
    + cbn [length] in Hi. rewrite (proj2 (Z.eqb_eq _ _)) by lia.
      cbn [toString_loop quoted_items]. by rewrite !append_assoc.
    + cbn [length] in Hi. rewrite (proj2 (Z.eqb_neq _ _)) by lia.
      rewrite IH; [|done| |].
      * rewrite quoted_items_cons. by rewrite !append_assoc.
      * rewrite wrap32_small by (rewrite UINT_MOD_val in *; cbn [length]; lia).
        cbn [length]. lia.
      * unfold wrap32. apply Z.mod_pos_bound. by rewrite UINT_MOD_val.
Qed.

(** For a vector of at most [2^32] strings, [toString] is ["["], the items
    each between single quotes with [", "] between them, and ["]"]; for
    the empty vector it is ["[]"].  (The counter the loop compares with
    [vec.size() - 1] is an [unsigned int].) *)
Theorem toString_items (vec : list string) :
  Z.of_nat (length vec) <= UINT_MOD →
  toString vec = "[" +:+ quoted_items vec +:+ "]".
Proof.
  intros Hsize. unfold toString.
  rewrite (toString_loop_spec _ vec 0 "[") by (try done; lia).
  by rewrite append_assoc.
Qed.

Lemma toString_items_witness :
  toString ["a"; "b c"; ""] = "['a', 'b c', '']".
Proof.
  apply (toString_items ["a"; "b c"; ""]). vm_compute. discriminate.
Defined.

End to_string.

(** ** stringToULL *)

Section string_to_ull.
Import StrIntUtils.

Lemma get_append_here : ∀ (pre : string) c tail,
  String.get (String.length pre) (pre +:+ String c tail) = Some c.
Proof.
  induction pre as [|x pre IH]; intros c tail; [done|].
  rewrite append_cons. cbn [String.length String.get]. apply IH.
Qed.

Lemma get_length_None : ∀ (s : string), String.get (String.length s) s = None.
Proof. induction s as [|x s IH]; [done|]. cbn [String.length String.get]. apply IH. Qed.

(** What a loop finds at the index where [pre] ends. *)
Lemma data_at_here str pre c tail :
  content str = pre +:+ String c tail →
  data_at str (String.length pre) = Some c
  ∧ (String.length pre <? String.length (content str))%nat = true.
Proof.
  intros E. unfold data_at. rewrite E, get_append_here. split; [done|].
  apply Nat.ltb_lt. rewrite length_append. cbn [String.length]. lia.
Qed.

Lemma data_at_end str :
  data_at str (String.length (content str)) = past str
  ∧ (String.length (content str) <? String.length (content str))%nat = false.
Proof.
  unfold data_at. rewrite get_length_None, decide_True by done.
  split; [done|]. apply Nat.ltb_irrefl.
Qed.

Lemma length_snoc (pre : string) c :
  String.length (pre +:+ String c EmptyString) = S (String.length pre).
Proof. rewrite length_append. cbn [String.length]. lia. Qed.

Lemma append_snoc (pre : string) c tail :
  pre +:+ String c tail = (pre +:+ String c EmptyString) +:+ tail.
Proof. by rewrite append_assoc. Qed.

Lemma skip_spaces_spec str tail : ∀ n pre fuel,
  content str = pre +:+ spaces n +:+ tail →
  stops (λ c, code c = 32) tail →
  (n < fuel)%nat →
  skip_spaces fuel str (String.length pre)
  = at_tail str tail (String.length pre + n)%nat.
Proof.
  induction n as [|n IH]; intros pre [|fuel] E Hstop Hfuel; try lia.
  - cbn [spaces] in E. rewrite append_nil in E. cbn [skip_spaces].
    rewrite Nat.add_0_r. destruct tail as [|c tail].
    + rewrite append_empty_r in E. rewrite <- E.
      destruct (data_at_end str) as [-> ->]. unfold at_tail.
      destruct (past str) as [c|]; [|done]. cbn [mbind option_bind].
      by rewrite andb_false_r.
    + destruct (data_at_here str pre c tail E) as [-> ->].
      cbn [mbind option_bind]. cbn [stops] in Hstop.
      by rewrite (proj2 (Z.eqb_neq _ _)).
  - cbn [spaces] in E. rewrite append_cons in E. cbn [skip_spaces].
    destruct (data_at_here str pre _ _ E) as [-> ->].
    cbn [mbind option_bind].
    change (code " " =? 32) with true. cbn [andb].
    rewrite append_snoc in E. rewrite <- length_snoc with (c := " "%char).
    rewrite (IH _ fuel E Hstop) by lia. rewrite length_snoc.
    by replace (S (String.length pre) + n)%nat
      with (String.length pre + S n)%nat by lia.
Qed.

Lemma wrap64_idem x : wrap64 (wrap64 x) = wrap64 x.
Proof. unfold wrap64. apply Z.mod_mod. done. Qed.

Lemma decimal_value_mod : ∀ digits a b,
  wrap64 a = wrap64 b →
  wrap64 (decimal_value a digits) = wrap64 (decimal_value b digits).
Proof.
  induction digits as [|c r IH]; intros a b E; [done|].
  cbn [decimal_value]. apply IH. unfold wrap64 in *.
  rewrite (Z.add_mod (10 * a)), (Z.add_mod (10 * b)) by done.
  rewrite (Z.mul_mod 10 a), (Z.mul_mod 10 b) by done. by rewrite E.
Qed.

Lemma read_digits_spec str rest : ∀ digits pre fuel result,
  content str = pre +:+ digits +:+ rest →
  all_chars is_digit digits →
  stops is_digit rest →
  (String.length digits < fuel)%nat →
  wrap64 result = result →
  read_digits fuel str (String.length pre) result
  = at_tail str rest (wrap64 (decimal_value result digits)).
Proof.
  induction digits as [|d digits IH];
    intros pre [|fuel] result E Hall Hstop Hfuel Hres;
    cbn [String.length] in Hfuel; try lia.
  - rewrite append_nil in E. cbn [read_digits decimal_value]. rewrite Hres.
    destruct rest as [|c rest].
    + rewrite append_empty_r in E. rewrite <- E.
      destruct (data_at_end str) as [-> ->]. unfold at_tail.
      destruct (past str) as [c|]; [|done]. cbn [mbind option_bind].
      by rewrite andb_false_r.
    + destruct (data_at_here str pre c rest E) as [-> ->].
      cbn [mbind option_bind]. cbn [stops] in Hstop. unfold is_digit in Hstop.
      destruct (48 <=? code c) eqn:H1; [|done].
      destruct (code c <=? 57) eqn:H2; [|done].
      apply Z.leb_le in H1, H2. lia.
  - rewrite append_cons in E. cbn [read_digits].
    destruct (data_at_here str pre _ _ E) as [-> ->].
    cbn [mbind option_bind]. destruct Hall as [Hd Hall]. unfold is_digit in Hd.
    rewrite (proj2 (Z.leb_le 48 _)), (proj2 (Z.leb_le _ 57)) by lia.
    cbn [andb].
    rewrite append_snoc in E. rewrite <- length_snoc with (c := d).
    rewrite (IH _ fuel _ E Hall Hstop) by (try lia; apply wrap64_idem).
    cbn [decimal_value]. f_equal. apply decimal_value_mod.
    rewrite wrap64_idem. unfold wrap64.
    rewrite Z.add_mod_idemp_l by done. f_equal. lia.
Qed.

(** [stringToULL] skips the leading spaces, reads the decimal digits that
    follow and stops at the first other character: the result is the
    number the digits denote, modulo [2^64].  When the digits run to the
    end of the string, the loop condition still reads [data[size]] before
    it looks at [i < size]: the result does not depend on that byte, but
    the byte has to be readable. *)
Theorem stringToULL_value (str : StaticString) (n : nat)
    (digits rest : string) :
  content str = spaces n +:+ digits +:+ rest →
  all_chars is_digit digits →
  stops is_digit rest →
  stops (λ c, code c = 32) (digits +:+ rest) →
  stringToULL str
  = match rest, past str with
    | EmptyString, None => None
    | _, _ => Some (decimal_value 0 digits mod ULL_MOD)
    end.
Proof.
  intros E Hall Hstop Hsp. unfold stringToULL.
  assert (String.length (spaces n) = n) as Hn
    by (clear; induction n as [|n IH]; [done|]; cbn; by rewrite IH).
  assert (String.length (content str)
          = (n + String.length digits + String.length rest)%nat) as Hlen.
  { rewrite E, !length_append, Hn. lia. }
  pose proof (skip_spaces_spec str (digits +:+ rest) n EmptyString
                (S (String.length (content str)))) as Hskip.
  rewrite append_nil in Hskip. cbn [String.length Nat.add] in Hskip.
  rewrite Hskip by (try done; lia). clear Hskip.
  assert (content str = spaces n +:+ digits +:+ rest) as E' by done.
  pose proof (read_digits_spec str rest digits (spaces n)
                (S (String.length (content str))) 0 E' Hall Hstop) as Hread.
  rewrite Hn in Hread.
  unfold at_tail at 1.
  destruct (digits +:+ rest) as [|c t] eqn:Hdr.
  - destruct digits; [|done]. rewrite append_nil in Hdr. subst rest.
    destruct (past str) as [c|] eqn:Hpast; [|done].
    cbn [mbind option_bind]. rewrite Hread by (try done; lia).
    unfold at_tail. by rewrite Hpast.
  - cbn [mbind option_bind]. rewrite Hread by (try done; lia). done.
Qed.

(** The theorem at ["  42abc"], with nothing readable behind it. *)
Lemma stringToULL_value_witness :
  stringToULL (mkStaticString "  42abc" None) = Some 42.
Proof.
  apply (stringToULL_value (mkStaticString "  42abc" None) 2 "42" "abc").
  - reflexivity.
  - cbn [all_chars]. unfold is_digit, code. cbn. lia.
  - cbn [stops]. unfold is_digit, code. cbn. lia.
  - vm_compute. discriminate.
Defined.

(** A number that runs to the end of a string with no readable byte behind
    it, and the same with a NUL behind it. *)
Example stringToULL_at_the_end :
  stringToULL (mkStaticString "42" None) = None
  ∧ stringToULL (mkStaticString "42" (Some "000"%char)) = Some 42.
Proof. split; reflexivity. Qed.

End string_to_ull.

(** ** toHex and hexToULL *)

Section hex.
Import StrIntUtils.

Lemma code_range c : 0 <= code c < 256.
Proof.
  unfold code. pose proof (N_ascii_bounded c). lia.
Qed.

Lemma toHex_loop_spec : ∀ bytes i pre post,
  length pre = (i * 2)%nat →
  length post = (String.length bytes * 2)%nat →
  toHex_loop bytes i (pre ++ post) = pre ++ hex_digits bytes.
Proof.
  induction bytes as [|c r IH]; intros i pre post Hpre Hpost.
  - destruct post; [done|]. cbn in Hpost. lia.
  - destruct post as [|a [|b post]]; cbn [String.length length] in Hpost;
      try lia.
    cbn [toHex_loop hex_digits].
    rewrite <- Hpre.
    rewrite (insert_app_r_alt pre _ (length pre)) by lia.
    rewrite Nat.sub_diag. cbn [list_insert insert].
    rewrite (insert_app_r_alt pre _ (length pre + 1)) by lia.
    replace (length pre + 1 - length pre)%nat with 1%nat by lia.
    cbn [list_insert insert].
    rewrite (cons_middle (hex_char (code c / 16))), app_assoc.
    rewrite (cons_middle (hex_char (code c mod 16))), app_assoc.
    rewrite IH.
    + by rewrite <- !app_assoc.
    + rewrite !length_app. cbn [length]. lia.
    + cbn [length] in Hpost. lia.
Qed.

Lemma hex_digits_length data :
  length (hex_digits data) = (2 * String.length data)%nat.
Proof. induction data as [|c r IH]; [done|]. cbn. rewrite IH. lia. Qed.

Lemma hex_char_in n : 0 <= n < 16 → hex_char n ∈ hex_chars.
Proof.
  intros Hn. unfold hex_char.
  destruct (lookup_lt_is_Some_2 hex_chars (Z.to_nat n)) as [x Hx].
  { unfold hex_chars. cbn [length]. lia. }
  rewrite (nth_lookup_Some _ _ "000"%char _ Hx).
  apply list_elem_of_lookup. by exists (Z.to_nat n).
Qed.

Lemma length_string_of_list l :
  String.length (String.string_of_list_ascii l) = length l.
Proof. induction l as [|c l IH]; [done|]. cbn. by rewrite IH. Qed.

(** [toHex] fills its buffer completely: the result is two characters of
    [hex_chars] for every byte of [data], the high half byte first, and
    nothing of the initial NULs is left. *)
Theorem toHex_digits (data : string) :
  toHex data = String.string_of_list_ascii (hex_digits data)
  ∧ String.length (toHex data) = (2 * String.length data)%nat
  ∧ Forall (λ c, c ∈ hex_chars) (String.list_ascii_of_string (toHex data)).
Proof.
  assert (toHex data = String.string_of_list_ascii (hex_digits data)) as E.
  { unfold toHex. f_equal.
    apply (toHex_loop_spec data 0 []); [done|]. by rewrite length_replicate. }
  split; [done|]. rewrite E. split.
  - by rewrite length_string_of_list, hex_digits_length.
  - rewrite String.list_ascii_of_string_of_list_ascii.
    clear E. induction data as [|c r IH]; [constructor|].
    pose proof (code_range c). cbn [hex_digits].
    apply Forall_cons. split; [|apply Forall_cons; split; [|done]];
      apply hex_char_in.
    + split; [apply Z.div_pos; lia|]. apply Z.div_lt_upper_bound; lia.
    + by apply Z.mod_pos_bound.
Qed.

Lemma hexToULL_loop_hex_char n rest result :
  0 <= n < 16 →
  hexToULL_loop (String (hex_char n) rest) result
  = hexToULL_loop rest (wrap64 (wrap64 (result * 16) + n)).
Proof.
  intros Hn.
  assert (n = 0 ∨ n = 1 ∨ n = 2 ∨ n = 3 ∨ n = 4 ∨ n = 5 ∨ n = 6 ∨ n = 7
          ∨ n = 8 ∨ n = 9 ∨ n = 10 ∨ n = 11 ∨ n = 12 ∨ n = 13 ∨ n = 14
          ∨ n = 15) as Hcases by lia.
  repeat (destruct Hcases as [->|Hcases]; [reflexivity|]).
  subst n. reflexivity.
Qed.

Lemma bytes_value_mod : ∀ data a b,
  wrap64 a = wrap64 b →
  wrap64 (bytes_value a data) = wrap64 (bytes_value b data).
Proof.
  induction data as [|c r IH]; intros a b E; [done|].
  cbn [bytes_value]. apply IH. unfold wrap64 in *.
  rewrite (Z.add_mod (256 * a)), (Z.add_mod (256 * b)) by done.
  rewrite (Z.mul_mod 256 a), (Z.mul_mod 256 b) by done. by rewrite E.
Qed.

Lemma hexToULL_loop_digits : ∀ data result,
  wrap64 result = result →
  hexToULL_loop (String.string_of_list_ascii (hex_digits data)) result
  = wrap64 (bytes_value result data).
Proof.
  induction data as [|c r IH]; intros result Hres; [done|].
  pose proof (code_range c) as Hc.
  cbn [hex_digits String.string_of_list_ascii bytes_value].
  rewrite hexToULL_loop_hex_char
    by (split; [apply Z.div_pos; lia|apply Z.div_lt_upper_bound; lia]).
  rewrite hexToULL_loop_hex_char by (by apply Z.mod_pos_bound).
  rewrite IH by apply wrap64_idem.
  apply bytes_value_mod. rewrite wrap64_idem. unfold wrap64.
  assert (code c = 16 * (code c / 16) + code c mod 16) as Hsplit
    by (by apply Z.div_mod).
  set (hi := code c / 16) in *. set (lo := code c mod 16) in *.
  set (M := ULL_MOD). assert (M ≠ 0) as HM by done.
  rewrite (Z.mod_eq (result * 16) M) by done.
  set (q1 := result * 16 / M).
  rewrite (Z.mod_eq (result * 16 - M * q1 + hi) M) by done.
  set (q2 := (result * 16 - M * q1 + hi) / M).
  rewrite (Z.mod_eq ((result * 16 - M * q1 + hi - M * q2) * 16) M) by done.
  set (q3 := (result * 16 - M * q1 + hi - M * q2) * 16 / M).
  replace ((result * 16 - M * q1 + hi - M * q2) * 16 - M * q3 + lo)
    with (256 * result + code c + (- (16 * q1) - 16 * q2 - q3) * M)
    by (rewrite Hsplit; ring).
  apply Z_mod_plus_full.
Qed.

(** [hexToULL] reads back what [toHex] writes: for every byte string
    [data], [hexToULL(toHex(data))] is the number whose base 256 digits
    are the bytes of [data], most significant first, modulo [2^64]. *)
Theorem hexToULL_toHex (data : string) :
  hexToULL (toHex data) = bytes_value 0 data mod ULL_MOD.
Proof.
  assert (toHex data = String.string_of_list_ascii (hex_digits data)) as ->.
  { unfold toHex. f_equal.
    apply (toHex_loop_spec data 0 []); [done|]. by rewrite length_replicate. }
  unfold hexToULL. by rewrite hexToULL_loop_digits.
Qed.

(** [hexToULL] takes every upper case letter for a digit, ['G'] to ['Z']
    with the values 16 to 35, and stops at the first character it does not
    take. *)
Example hexToULL_letters :
  hexToULL "ff" = 255 ∧ hexToULL "FF" = 255
  ∧ hexToULL "G" = 16 ∧ hexToULL "1Z" = 51 ∧ hexToULL "12 34" = 18.
Proof. repeat split; reflexivity. Qed.

Example toHex_bytes : toHex "Hi!" = "486921".
Proof. reflexivity. Qed.

End hex.

(** ** Control groups *)

Section cgroup.
Import Cgroup.

(** [setControlGroup] returns 0 or 1.  It returns 0 exactly when
    [cgroup_new_cgroup] gives a group and neither [cgroup_get_cgroup] nor
    [cgroup_attach_task] answers with a positive code (a negative code
    passes for success); it attaches the task only after the group has
    been read; it prints one message to [stderr] when it returns 1 and
    none when it returns 0; and it never frees the group it allocated. *)
Theorem setControlGroup_result (lib : Lib) (cgname : string) :
  let '(ret, events) := setControlGroup lib cgname in
  (ret = 0 ∨ ret = 1)
  ∧ (ret = 0 ↔ ∃ g, cgroup_new_cgroup lib cgname = Some g
                    ∧ cgroup_get_cgroup lib g <= 0
                    ∧ cgroup_attach_task lib g <= 0)
  ∧ (∀ g, Attach g ∈ events ↔ cgroup_new_cgroup lib cgname = Some g
                               ∧ cgroup_get_cgroup lib g <= 0)
  ∧ Z.of_nat (length (filter is_Stderr events)) = ret
  ∧ (∀ g, Free g ∉ events).
Proof.
  unfold setControlGroup.
  destruct (cgroup_new_cgroup lib cgname) as [g|] eqn:Hnew.
  - destruct (0 <? cgroup_get_cgroup lib g) eqn:Hget;
      [apply Z.ltb_lt in Hget|apply Z.ltb_ge in Hget].
    + split; [by right|]. split.
      { split; [done|]. intros (g' & [= <-] & ? & _). lia. }
      split.
      { intros g'. rewrite !elem_of_cons, elem_of_nil. split.
        - intros [?|[?|[?|?]]]; done.
        - intros [[= <-] ?]. lia. }
      split; [done|].
      intros g'. rewrite !elem_of_cons, elem_of_nil.
      intros [?|[?|[?|?]]]; done.
    + destruct (0 <? cgroup_attach_task lib g) eqn:Hatt;
        [apply Z.ltb_lt in Hatt|apply Z.ltb_ge in Hatt].
      * split; [by right|]. split.
        { split; [done|]. intros (g' & [= <-] & _ & ?). lia. }
        split.
        { intros g'. rewrite !elem_of_cons, elem_of_nil. split.
          - intros [?|[?|[[= <-]|[?|?]]]]; done.
          - intros [[= <-] ?]. right. right. by left. }
        split; [done|].
        intros g'. rewrite !elem_of_cons, elem_of_nil.
        intros [?|[?|[?|[?|?]]]]; done.
      * split; [by left|]. split.
        { split; [|done]. intros _. by exists g. }
        split.
        { intros g'. rewrite !elem_of_cons, elem_of_nil. split.
          - intros [?|[?|[[= <-]|?]]]; done.
          - intros [[= <-] ?]. right. right. by left. }
        split; [done|].
        intros g'. rewrite !elem_of_cons, elem_of_nil.
        intros [?|[?|[?|?]]]; done.
  - split; [by right|]. split.
    { split; [done|]. by intros (g' & ? & _). }
    split.
    { intros g'. rewrite !elem_of_cons, elem_of_nil. split.
      - intros [?|[?|?]]; done.
      - by intros [? _]. }
    split; [done|].
    intros g'. rewrite !elem_of_cons, elem_of_nil.
    intros [?|[?|?]]; done.
Qed.

(** [initializeControlGroup] returns [NULL] whatever libcgroup answers,
    and never allocates, reads or attaches to a group: when [cgroup_init]
    succeeds, all it does is to hand the uninitialised [mygroup] to
    [cgroup_free]. *)
Theorem initializeControlGroup_null (lib : Lib) (cgname : string)
    (mygroup : option nat) :
  let '(result, events) := initializeControlGroup lib cgname mygroup in
  result = None
  ∧ (∀ e, e ∈ events →
       e = Init ∨ e = Free mygroup ∨ is_Stderr e = true)
  ∧ (Free mygroup ∈ events ↔ cgroup_init lib <= 0).
Proof.
  unfold initializeControlGroup.
  destruct (0 <? cgroup_init lib) eqn:Hinit;
    [apply Z.ltb_lt in Hinit|apply Z.ltb_ge in Hinit].
  - split; [done|]. split.
    + intros e. rewrite !elem_of_cons, elem_of_nil.
      intros [->|[->|?]]; [by left|by right; right|done].
    + rewrite !elem_of_cons, elem_of_nil. split; [|lia].
      intros [?|[?|?]]; done.
  - split; [done|]. split.
    + intros e. rewrite !elem_of_cons, elem_of_nil.
      intros [->|[->|?]]; [by left|by right; left|done].
    + rewrite !elem_of_cons, elem_of_nil. split; [done|].
      intros _. right. by left.
Qed.

End cgroup.

(** ** The assertions of verifyState *)

Section verify.
Import StdList Pool Run.
Implicit Types (s : t) (g : Group.t) (k : string) (w x : nat) (l : list nat).










(** A state the check rejects: a busy record in front of an idle one. *)
Example verifyState_rejects :
  verifyState
    (mk {[ "/app/a" := Group.mk [0%nat; 1%nat] 2 0 ]} 20 2 1 0 [1%nat] 120 0
        {[ 0%nat := ProcessInfo.mk (Process.mk "/app/a" 100) 5 5 1 0;
           1%nat := ProcessInfo.mk (Process.mk "/app/a" 101) 6 6 0 0 ]}
        2%nat [] [0%nat])
  = Some false.
Proof. vm_compute. reflexivity. Qed.

End verify.

(** ** uptime *)

Section uptime.
Import Pool.

(** [uptime] prints the time since [startTime] as hours, minutes and
    seconds that add up to it: the hours only from one hour on, the
    minutes only from one minute on, and then minutes and seconds below
    60. *)
Theorem uptime_fields (now : Z) (p : ProcessInfo.t) :
  let elapsed := now - ProcessInfo.startTime p in
  ∃ hours minutes seconds,
    uptime now p
    = (if 3600 <=? elapsed then show hours +:+ "h " else EmptyString)
      +:+ (if 60 <=? elapsed then show minutes +:+ "m " else EmptyString)
      +:+ show seconds +:+ "s"
    ∧ elapsed = 3600 * hours + 60 * minutes + seconds
    ∧ (60 <= elapsed → 0 <= seconds < 60)
    ∧ (3600 <= elapsed → 0 <= minutes < 60 ∧ 0 < hours)
    ∧ (elapsed < 3600 → hours = 0)
    ∧ (elapsed < 60 → minutes = 0).
Proof.
  intros elapsed. unfold uptime. fold elapsed.
  destruct (60 <=? elapsed) eqn:H60;
    [apply Z.leb_le in H60|apply Z.leb_gt in H60].
  - pose proof (Z.quot_rem' elapsed 60) as Hqr.
    pose proof (Z.rem_bound_pos elapsed 60 ltac:(lia) ltac:(lia)) as Hr.
    rewrite (Z.quot_div_nonneg elapsed 60) in * by lia.
    assert (1 <= elapsed / 60) as Hq1
      by (apply Z.div_le_lower_bound; lia).
    destruct (60 <=? elapsed / 60) eqn:H3600;
      [apply Z.leb_le in H3600|apply Z.leb_gt in H3600].
    + pose proof (Z.quot_rem' (elapsed / 60) 60) as Hqr2.
      pose proof (Z.rem_bound_pos (elapsed / 60) 60 ltac:(lia) ltac:(lia)) as Hr2.
      rewrite (Z.quot_div_nonneg (elapsed / 60) 60) in * by lia.
      assert (1 <= elapsed / 60 / 60) as Hq2
        by (apply Z.div_le_lower_bound; lia).
      exists (elapsed / 60 / 60), (Z.rem (elapsed / 60) 60), (Z.rem elapsed 60).
      rewrite (proj2 (Z.leb_le 3600 elapsed)) by lia.
      split; [by rewrite !append_nil, !append_assoc|].
      repeat split; lia.
    + exists 0, (elapsed / 60), (Z.rem elapsed 60).
      rewrite (proj2 (Z.leb_gt 3600 elapsed)) by lia.
      split; [by rewrite !append_nil, !append_assoc|].
      repeat split; lia.
  - exists 0, 0, elapsed.
    rewrite (proj2 (Z.leb_gt 3600 elapsed)) by lia.
    split; [by rewrite !append_nil|]. repeat split; lia.
Qed.

Example uptime_texts :
  uptime 1000 (ProcessInfo.mk (Process.mk "/app/a" 1) 955 0 0 0) = "45s"
  ∧ uptime 1000 (ProcessInfo.mk (Process.mk "/app/a" 1) 400 0 0 0) = "10m 0s"
  ∧ uptime 10000 (ProcessInfo.mk (Process.mk "/app/a" 1) 100 0 0 0)
    = "2h 45m 0s"
  ∧ uptime 100 (ProcessInfo.mk (Process.mk "/app/a" 1) 105 0 0 0) = "-5s".
Proof. repeat split; vm_compute; reflexivity. Qed.

End uptime.

(** ** Close callbacks of records that have left the pool *)

Section stale_callbacks.
Import StdList Pool Run.
Implicit Types (s : t) (g : Group.t) (k : string) (w x : nat) (l : list nat).



(** [clear] empties the pool whatever it held, sessions in use included:
    no group and no inactive record is left, [count] and [active] are 0,
    [activeOrMaxChanged] is notified, the limits stay as they were, and
    every close callback that arrives afterwards leaves the cleared pool
    as it is. *)
Theorem clear_forgets (s : t) :
  groups (clear s) = ∅
  ∧ inactiveApps (clear s) = []
  ∧ count (clear s) = 0 ∧ active (clear s) = 0
  ∧ trace (clear s) = trace s ++ [NotifyAll]
  ∧ (max (clear s), maxPerApp (clear s), maxIdleTime (clear s))
    = (max s, maxPerApp s, maxIdleTime s)
  ∧ ∀ now w, sessionClose now w (clear s) = Some (clear s).
Proof.
  repeat (split; [reflexivity|]).
  intros now w. unfold sessionClose, weak_lock.
  rewrite decide_False; [done|].
  intros [Hin|Hex].
  - by apply elem_of_nil in Hin.
  - apply map_Exists_lookup in Hex as (k & g & Hg & _).
    change (groups (clear s)) with (∅ : gmap string Group.t) in Hg.
    by rewrite lookup_empty in Hg.
Qed.

End stale_callbacks.

(** ** The pool size limit *)

Section limit.
Import StdList Pool Run.
Implicit Types (s : t) (g : Group.t) (k : string) (w x : nat) (l : list nat).

Lemma select_count env w k s s1 r :
  select env w k s = Some (s1, r) → count s1 = count s ∧ max s1 = max s.
Proof.
  unfold select. destruct (heap s !! w); [|done].
  cbn [mbind option_bind]. by intros [= <- _].
Qed.

Lemma use_group_limit env options s s1 r :
  Inv s → headroom s → count s <= max s →
  use_group env options s = Some (s1, r) →
  count s1 <= max s1 ∧ max s1 = max s.
Proof.
  intros HI [Hroom _] Hlim. unfold use_group.
  pose proof (inv_active s HI). pose proof (active_le_count s HI).
  destruct (groups s !! _) as [g|]; [|done]. cbn [mbind option_bind].
  destruct (head _) as [front|]; [|done]. cbn [mbind option_bind].
  destruct (heap s !! front) as [fp|]; [|done]. cbn [mbind option_bind].
  destruct (ProcessInfo.sessions fp =? 0).
  { intros [E1 E2]%select_count. cbn in E1, E2. lia. }
  destruct (_ || _) eqn:Hsat.
  { destruct (PoolOptions.useGlobalQueue options).
    - intros [= <- _]. by cbn.
    - destruct (scan_smallest _ _ _); [|done]. cbn [mbind option_bind].
      intros [E1 E2]%select_count. cbn in E1, E2. lia. }
  apply orb_false_iff in Hsat as [Hfull%Z.leb_gt _].
  destruct (spawn env options) as [e|pid].
  { intros [= <- _]. by cbn. }
  unfold alloc. intros [E1 E2]%select_count. cbn in E1, E2.
  rewrite uincr_small in E1 by lia. lia.
Qed.

Lemma spawn_new_limit env options s s1 r :
  0 <= count s → count s + 1 < UINT_MOD → count s < max s →
  spawn_new env options s = Some (s1, r) →
  count s1 <= max s1 ∧ max s1 = max s.
Proof.
  intros Hpos Hroom Hlim. unfold spawn_new.
  destruct (spawn env options) as [e|pid].
  { intros [= <- _]. cbn. lia. }
  unfold alloc. intros [E1 E2]%select_count. cbn in E1, E2.
  rewrite uincr_small in E1 by lia. lia.
Qed.

Lemma new_group_limit env options s s1 r :
  Inv s → headroom s → count s <= max s →
  new_group env options s = Some (s1, r) →
  count s1 <= max s1 ∧ max s1 = max s.
Proof.
  intros HI [Hroom _] Hlim. unfold new_group.
  pose proof (inv_active s HI). pose proof (active_le_count s HI).
  pose proof (inv_inactive_len s HI) as Hlen.
  destruct (max s <=? active s) eqn:Hfull.
  { by intros [= <- _]. }
  apply Z.leb_gt in Hfull.
  destruct (count s =? max s) eqn:Hmax;
    [apply Z.eqb_eq in Hmax|apply Z.eqb_neq in Hmax].
  - destruct (evict_spec s HI) as (w & p & g & _ & _ & _ & _ & -> & _).
    { intros E. rewrite E in Hlen. cbn in Hlen. lia. }
    cbn [mbind option_bind]. intros Hrun.
    apply spawn_new_limit in Hrun; cbn; [by cbn in Hrun|lia|lia|lia].
  - cbn [mbind option_bind]. apply spawn_new_limit; lia.
Qed.

Lemma after_restart_max s k : max (after_restart s k) = max s.
Proof. unfold after_restart. cbn. by destruct (groups s !! k). Qed.

Lemma spawnOrUseExisting_limit env options s s1 r :
  Inv s → headroom s → count s <= max s →
  spawnOrUseExisting env options s = Some (s1, r) →
  count s1 <= max s1 ∧ max s1 = max s.
Proof.
  intros HI Hroom Hlim. unfold spawnOrUseExisting.
  rewrite restart_prestep_eq by done. cbn [mbind option_bind].
  destruct (needsRestart _ _ _).
  - intros Hrun. pose proof (after_restart_count s (PoolOptions.appRoot options) HI).
    apply new_group_limit in Hrun.
    + by rewrite after_restart_max in Hrun.
    + by apply after_restart_Inv.
    + destruct Hroom as [H1 H2]. split; [lia|by rewrite after_restart_open].
    + rewrite after_restart_max. lia.
  - destruct (bool_decide _).
    + by apply use_group_limit.
    + by apply new_group_limit.
Qed.

Lemma get_loop_limit envs options : ∀ fuel attempt i s s' r,
  Inv s → headroom s → count s <= max s →
  get_loop fuel envs i options attempt s = Some (s', r) →
  count s' <= max s' ∧ max s' = max s.
Proof.
  induction fuel as [|fuel IH]; intros attempt i s s' r HI Hroom Hlim; [done|].
  cbn [get_loop].
  destruct (spawnOrUseExisting_Inv (envs i) options s HI Hroom)
    as (s1 & pr & Hrun & Hpost).
  rewrite Hrun. cbn [mbind option_bind].
  destruct (spawnOrUseExisting_limit _ _ _ _ _ HI Hroom Hlim Hrun) as [Hl1 Hm1].
  destruct pr as [w k|gq|e].
  - destruct (connect (envs i) w) as [e|[]].
    + destruct (connect_failed_Inv options s w k s1 Hpost)
        as (s2 & Hcf & HI2 & Hc2 & Ho2).
      rewrite Hcf. cbn [mbind option_bind].
      assert (max s2 = max s1) as Hm2.
      { clear -Hcf. unfold connect_failed in Hcf.
        destruct (heap s1 !! w); [|done]. cbn [mbind option_bind] in Hcf.
        destruct (groups _ !! k) as [g|]; [|done].
        cbn [mbind option_bind] in Hcf. injection Hcf as <-.
        by destruct (erase w (Group.processes g)). }
      destruct (attempt =? MAX_GET_ATTEMPTS).
      * intros [= <- _]. lia.
      * intros Hrest. apply IH in Hrest; [lia|done| |lia].
        destruct Hpost as (Hopen & _ & _ & _ & Hc). destruct Hroom as [Hr1 Hr2].
        split; [lia|]. by rewrite Ho2, Hopen.
    + intros [= <- _]. by cbn.
  - by intros [= <- _].
  - by intros [= <- _].
Qed.

Lemma cleaner_loop_max now : ∀ fuel s it s',
  cleaner_loop fuel now s it = Some s' → max s' = max s.
Proof.
  induction fuel as [|fuel IH]; intros s [w|] s' H; cbn [cleaner_loop] in H;
    try (by simplify_eq).
  destruct (heap s !! w) as [p|]; [cbn [mbind option_bind] in H|done].
  destruct (groups s !! _) as [g|]; [cbn [mbind option_bind] in H|done].
  destruct (idle_too_long s now p).
  - apply IH in H. rewrite H. by destruct (erase w (Group.processes g)).
  - apply IH in H. rewrite H. by destruct (Group.processes g).
Qed.

(** No operation but [setMax] lets the pool grow beyond [max]: when
    [count <= max] holds before a [get], a close callback, [clear],
    [setMaxPerApp], [setMaxIdleTime] or a cleaner pass, it holds
    afterwards, and [max] is the same. *)
Theorem pool_size_limit (op : Op) (s s' : t) :
  reachable s →
  enabled s op →
  (∀ n, op ≠ OpSetMax n) →
  count s <= max s →
  run op s = Some s' →
  count s' <= max s' ∧ max s' = max s.
Proof.
  intros HI%reachable_Inv Hen Hop Hlim Hrun.
  pose proof (inv_active s HI). pose proof (active_le_count s HI).
  destruct op as [envs options|envs options attempt gq|now w| |n|n|n|now];
    cbn [run enabled] in *.
  - unfold get in Hrun.
    destruct (get_loop _ _ _ _ _ _) as [[s1 r]|] eqn:Hg; [|done].
    injection Hrun as <-. by apply get_loop_limit in Hg.
  - unfold get_resume in Hrun. destruct Hen as [Hroom Hatt].
    destruct (get_loop _ _ _ _ _ _) as [[s1 r]|] eqn:Hg; [|done].
    injection Hrun as <-. apply get_loop_limit in Hg.
    + by destruct gq.
    + destruct gq; [|done]. by apply (Inv_core s).
    + by destruct gq.
    + by destruct gq.
  - unfold close in Hrun.
    set (s0 := with_sessions_open (erase w (sessions_open s)) s) in *.
    destruct (decide (pooled s w)) as [Hpool|Hgone].
    + destruct Hpool as (k & g & Hg & Hw).
      destruct (record_of s k g w HI Hg Hw) as (p & Hp & Hk & Hs).
      pose proof (count_occ_erase_eq w _ Hen) as Hocc.
      pose proof (inv_count_lt s HI). pose proof (count_pos s k g HI Hg).
      unfold sessionClose, weak_lock in Hrun.
      rewrite decide_True in Hrun
        by (change (owned s w); apply owned_pooled; [done|by exists k, g]).
      cbn [heap groups s0 with_sessions_open] in Hrun.
      rewrite Hp, Hk, Hg in Hrun.
      destruct (_ && _).
      * injection Hrun as <-. destruct (erase w (Group.processes g)); cbn;
          rewrite udecr_small by lia; lia.
      * destruct (_ =? 0); injection Hrun as <-; by cbn.
    + unfold sessionClose, weak_lock in Hrun.
      rewrite decide_False in Hrun
        by (change (¬ owned s w); by rewrite owned_pooled).
      by injection Hrun as <-.
  - injection Hrun as <-. cbn. lia.
  - by destruct (Hop n).
  - by injection Hrun as <-.
  - by injection Hrun as <-.
  - destruct (cleanerPass_spec now s HI) as (s1 & Hrun1 & _ & _ & _ & Hc & _).
    rewrite Hrun in Hrun1. injection Hrun1 as <-.
    unfold cleanerPass in Hrun. apply cleaner_loop_max in Hrun. lia.
Qed.

(** The theorem at the full pool of capacity 1, with a [get] for another
    application: the idle record is evicted to make room. *)
Lemma pool_size_limit_witness :
  ∃ s', run (OpGet (λ _, Demo.env_ok 101 9) Demo.optsB) Demo.one_idle = Some s'
        ∧ count s' <= max s'.
Proof.
  assert (∃ s', run (OpGet (λ _, Demo.env_ok 101 9) Demo.optsB) Demo.one_idle
                = Some s') as [s' Hrun]
    by (vm_compute; eexists; reflexivity).
  exists s'. split; [exact Hrun|].
  refine (proj1 (pool_size_limit _ Demo.one_idle s' reachable_one_idle _ _ _ Hrun)).
  - vm_compute. split; reflexivity.
  - intros n. discriminate.
  - vm_compute. discriminate.
Defined.

End limit.

(** ** How get ends *)

Section get_outcome.
Import StdList Pool Run.
Implicit Types (s : t) (g : Group.t) (k : string) (w x : nat) (l : list nat).


Lemma select_not_wait env w k s s1 gq :
  select env w k s = Some (s1, Wait gq) → False.
Proof. intros H. by apply select_result in H. Qed.



Lemma use_group_wait env options s s1 gq :
  use_group env options s = Some (s1, Wait gq) →
  gq = true ∧ PoolOptions.useGlobalQueue options = true
  ∧ s1 = with_waitingOnGlobalQueue (uincr (waitingOnGlobalQueue s)) s.
Proof.
  unfold use_group.
  destruct (groups s !! _) as [g|]; [|done]. cbn [mbind option_bind].
  destruct (head _) as [front|]; [|done]. cbn [mbind option_bind].
  destruct (heap s !! front) as [fp|]; [|done]. cbn [mbind option_bind].
  destruct (ProcessInfo.sessions fp =? 0).
  { by intros ?%select_not_wait. }
  destruct (_ || _).
  { destruct (PoolOptions.useGlobalQueue options).
    - by intros [= <- <-].
    - destruct (scan_smallest _ _ _); [|done]. cbn [mbind option_bind].
      by intros ?%select_not_wait. }
  destruct (spawn env options) as [e|pid]; [done|].
  unfold alloc. by intros ?%select_not_wait.
Qed.

Lemma new_group_wait env options s s1 gq :
  new_group env options s = Some (s1, Wait gq) →
  gq = false ∧ max s <= active s ∧ s1 = s.
Proof.
  unfold new_group. destruct (max s <=? active s) eqn:Hfull.
  { intros [= <- <-]. by apply Z.leb_le in Hfull. }
  assert (∀ s0, spawn_new env options s0 = Some (s1, Wait gq) → False) as Hsp.
  { intros s0. unfold spawn_new.
    destruct (spawn env options) as [e|pid]; [done|].
    unfold alloc. by intros ?%select_not_wait. }
  destruct (count s =? max s).
  - destruct (evict s) as [s0|]; [|done]. cbn [mbind option_bind].
    by intros ?%Hsp.
  - cbn [mbind option_bind]. by intros ?%Hsp.
Qed.





End get_outcome.

(** ** Reuse *)

Section reuse.
Import StdList Pool Run.
Implicit Types (s : t) (g : Group.t) (k : string) (w x : nat) (l : list nat).

(** L1.  When the only session on a record is closed and the record is
    not due for retirement, the next [get] for the same application (no
    restart requested, the process accepts the connection) gets a session
    on that same record: nothing is spawned or reloaded, the pool holds
    the same records as before the close, and the record has counted one
    more request. *)
Theorem reuse_after_close (now : Z) (envs : nat → Env)
    (options : PoolOptions.t) (w : nat) (s : t) (p : ProcessInfo.t)
    (g : Group.t) :
  let k := PoolOptions.appRoot options in
  reachable s →
  headroom s →
  w ∈ sessions_open s →
  groups s !! k = Some g →
  w ∈ Group.processes g →
  heap s !! w = Some p →
  ProcessInfo.sessions p = 1 →
  ¬ (0 < Group.maxRequests g
     ∧ Group.maxRequests g <= uincr (ProcessInfo.processed p)) →
  needsRestart (envs 0%nat) k options = false →
  connect (envs 0%nat) w = inr tt →
  ∃ s1 s2,
    close now w s = Some s1
    ∧ get envs options s1 = Some (s2, Session w)
    ∧ trace s2 = trace s ++ [NotifyAll; NotifyAll]
    ∧ count s2 = count s ∧ active s2 = active s
    ∧ inactiveApps s2 = inactiveApps s
    ∧ groups s2
      = <[k := set_processes (erase w (Group.processes g) ++ [w]) g]> (groups s)
    ∧ heap s2
      = <[w := ProcessInfo.mk (ProcessInfo.process p)
                 (ProcessInfo.startTime p) (time_now (envs 0%nat)) 1
                 (uincr (ProcessInfo.processed p))]> (heap s).
Proof.
  intros k Hreach Hroom Hopen Hg Hw Hp Hone Hkeep Hnr Hconn.
  pose proof (reachable_Inv s Hreach) as HI.
  assert (pooled s w) as Hpool by (by exists k, g).
  destruct (record_of s k g w HI Hg Hw) as (p' & Hp' & Hk & Hs).
  assert (p' = p) as -> by congruence.
  assert (busy s w) as Hbusy by (exists p; split; [done|lia]).
  pose proof (busy_active_pos s w HI Hpool Hbusy) as Hapos.
  pose proof (active_le_count s HI) as Hale.
  pose proof (inv_count_lt s HI) as Hclt.
  assert (w ∉ inactiveApps s) as Hnin.
  { intros Hin. apply (inv_inactive s HI) in Hin as [_ (q & Hq & Hq0)].
    assert (q = p) as -> by congruence. lia. }
  (* the close callback *)
  destruct (close_Inv now w s HI Hopen) as (s1 & Hclose & HI1).
  assert (s1 = emit NotifyAll
            (with_active (active s - 1)
               (with_inactiveApps (inactiveApps s ++ [w])
                  (put_group k
                     (set_processes (w :: erase w (Group.processes g)) g)
                     (put_info w
                        (ProcessInfo.mk (ProcessInfo.process p)
                           (ProcessInfo.startTime p) now 0
                           (uincr (ProcessInfo.processed p)))
                        (put_info w
                           (set_processed (uincr (ProcessInfo.processed p)) p)
                           (with_sessions_open (erase w (sessions_open s))
                              s))))))) as Hs1.
  { revert Hclose. unfold close, sessionClose, weak_lock.
    rewrite decide_True by (change (owned s w); by apply owned_pooled).
    cbn [heap groups with_sessions_open]. rewrite Hp, Hk.
    fold k. rewrite Hg.
    cbn [ProcessInfo.processed set_processed].
    assert ((0 <? Group.maxRequests g)
            && (Group.maxRequests g <=? uincr (ProcessInfo.processed p))
            = false) as ->.
    { apply andb_false_iff.
      destruct (0 <? Group.maxRequests g) eqn:H1; [|by left]. right.
      apply Z.ltb_lt in H1. apply Z.leb_gt. lia. }
    cbn [ProcessInfo.sessions set_sessions set_lastUsed set_processed].
    rewrite Hone. change (udecr 1) with 0. rewrite Z.eqb_refl.
    intros [= <-]. unfold push_back, push_front.
    cbn [active with_inactiveApps put_group put_info with_heap with_groups].
    by rewrite udecr_small by lia. }
  exists s1. 
  (* the next get *)
  assert (headroom s1) as Hroom1.
  { destruct Hroom as [H1 H2]. rewrite Hs1. split; cbn; [lia|].
    pose proof (erase_length_le w (sessions_open s)). lia. }
  assert (groups s1 !! k
          = Some (set_processes (w :: erase w (Group.processes g)) g)) as Hg1
    by (rewrite Hs1; cbn; apply lookup_insert_eq).
  assert (heap s1 !! w
          = Some (ProcessInfo.mk (ProcessInfo.process p)
                    (ProcessInfo.startTime p) now 0
                    (uincr (ProcessInfo.processed p)))) as Hp1
    by (rewrite Hs1; cbn; apply lookup_insert_eq).
  eexists. split; [done|]. split.
  { unfold get. change (Z.to_nat MAX_GET_ATTEMPTS) with 10%nat.
    cbn [get_loop]. unfold spawnOrUseExisting.
    rewrite restart_prestep_eq by done.
    fold k. rewrite Hnr. cbn [mbind option_bind].
    rewrite bool_decide_eq_true_2 by (rewrite Hg1; eauto).
    unfold use_group. fold k. rewrite Hg1. cbn [mbind option_bind].
    cbn [Group.processes set_processes head]. cbn [mbind option_bind].
    rewrite Hp1. cbn [mbind option_bind ProcessInfo.sessions].
    change (0 =? 0) with true. cbv iota.
    unfold select. cbn [heap emit with_active with_inactiveApps put_group
                        with_groups].
    rewrite Hp1. cbn [mbind option_bind]. rewrite Hconn. reflexivity. }
  rewrite Hs1.
  cbn [trace count active inactiveApps groups heap emit with_active
       with_inactiveApps put_group put_info with_groups with_heap
       with_sessions_open session_opened set_processes Group.processes
       Group.size Group.maxRequests pop_front push_back tail].
  split; [by rewrite <- app_assoc|]. split; [done|]. split.
  { rewrite uincr_small by lia. lia. }
  split.
  { unfold push_back. rewrite erase_app_notin by done.
    cbn. destruct (decide (w = w)); [|done]. by rewrite app_nil_r. }
  split.
  { by rewrite insert_insert_eq. }
  by rewrite !insert_insert_eq.
Qed.

(** The theorem at the pool with one busy record. *)
Lemma reuse_after_close_witness :
  ∃ s1 s2,
    close 7 0%nat Demo.one_busy = Some s1
    ∧ get (λ _, Demo.env_ok 101 9) Demo.optsA s1 = Some (s2, Session 0%nat)
    ∧ count s2 = count Demo.one_busy.
Proof.
  destruct (reuse_after_close 7 (λ _, Demo.env_ok 101 9) Demo.optsA 0%nat
              Demo.one_busy
              (ProcessInfo.mk (Process.mk "/app/a" 100) 5 5 1 0)
              (Group.mk [0%nat] 1 0))
    as (s1 & s2 & H1 & H2 & _ & H3 & _).
  - exact reachable_one_busy.
  - vm_compute. split; reflexivity.
  - vm_compute. left.
  - vm_compute. reflexivity.
  - vm_compute. left.
  - vm_compute. reflexivity.
  - reflexivity.
  - vm_compute. intros [H _]. discriminate H.
  - vm_compute. reflexivity.
  - reflexivity.
  - exists s1, s2. exact (conj H1 (conj H2 H3)).
Defined.

End reuse.

(** ** What the cleaner leaves alone *)

Section cleaner_spares.
Import StdList Pool Run.
Implicit Types (s : t) (g : Group.t) (k : string) (w x : nat) (l : list nat).

Lemma cleaner_loop_idle now s : ∀ post pre fuel,
  Inv s → inactiveApps s = pre ++ post →
  (∀ w, w ∈ post → stale s now w = false) →
  (length post < fuel)%nat →
  cleaner_loop fuel now s (head post) = Some s.
Proof.
  induction post as [|w post IH]; intros pre fuel HI Hina Hfresh Hfuel.
  - by destruct fuel.
  - destruct fuel as [|fuel]; [cbn in Hfuel; lia|].
    assert (w ∈ inactiveApps s) as Hin.
    { rewrite Hina. apply elem_of_app. right. left. }
    pose proof (inv_inactive_nodup s HI) as Hnd. rewrite Hina in Hnd.
    apply NoDup_app in Hnd as (_ & Hdisj & _).
    assert (w ∉ pre) as Hwpre.
    { intros Hw. apply (Hdisj w Hw). left. }
    destruct (proj1 (inv_inactive s HI w) Hin) as [Hpool (p & Hp & _)].
    destruct (pooled_group s w p HI Hpool Hp) as (g & Hg & Hw).
    assert (idle_too_long s now p = false) as Hlong.
    { specialize (Hfresh w ltac:(left)). unfold stale in Hfresh.
      by rewrite Hp in Hfresh. }
    change (head (w :: post)) with (Some w).
    rewrite (cleaner_loop_keep fuel now s w p g); try done.
    + rewrite Hina, incr_after by done.
      apply (IH (pre ++ [w])).
      * done.
      * by rewrite <- app_assoc.
      * intros x Hx. apply Hfresh. by right.
      * cbn in Hfuel. lia.
    + by apply (g_nonempty s _ g (inv_groups s HI _ g Hg)).
Qed.

(** A cleaner pass that finds no record idle for longer than
    [maxIdleTime] changes nothing at all; this is so for every pass while
    [maxIdleTime] is 0, which switches the cleaning off.  Records with a
    session are never looked at. *)
Theorem cleaner_spares (now : Z) (s : t) :
  reachable s →
  maxIdleTime s = 0
  ∨ (∀ w p, w ∈ inactiveApps s → heap s !! w = Some p →
       now - ProcessInfo.lastUsed p <= maxIdleTime s) →
  cleanerPass now s = Some s.
Proof.
  intros HI%reachable_Inv Hcase. unfold cleanerPass, begin.
  apply (cleaner_loop_idle now s (inactiveApps s) []); [done|done| |lia].
  intros w Hw. unfold stale, idle_too_long.
  destruct (heap s !! w) as [p|] eqn:Hp; [|done].
  destruct Hcase as [Hoff|Hyoung].
  - by rewrite Hoff.
  - apply andb_false_iff. right. apply Z.ltb_ge. by apply (Hyoung w p).
Qed.

(** The theorem at the pool whose idle record was used at time 7, looked
    at at time 100. *)
Lemma cleaner_spares_witness :
  cleanerPass 100 Demo.one_idle = Some Demo.one_idle.
Proof.
  apply (cleaner_spares 100 Demo.one_idle reachable_one_idle).
  right. intros w p Hw Hp.
  vm_compute in Hw. apply list_elem_of_singleton in Hw as ->.
  vm_compute in Hp. injection Hp as <-. vm_compute. discriminate.
Defined.

End cleaner_spares.

(** ** The bookkeeping behind the invariants *)

Section bookkeeping.
Import StdList Pool Run.
Implicit Types (s : t) (g : Group.t) (k : string) (w x : nat) (l : list nat).






End bookkeeping.

(** ** What count and active count *)

Section counting.
Import StdList Pool Run.
Implicit Types (s : t) (g : Group.t) (k : string) (w x : nat) (l : list nat)
  (m : gmap string Group.t).








End counting.

(** ** The limit on the records of one application *)

Section per_app.
Import StdList Pool Run.
Implicit Types (s : t) (g : Group.t) (k : string) (w x : nat) (l : list nat).

Lemma shrunk_refl s : shrunk s s.
Proof. intros k g Hg. exists g. split; [done|lia]. Qed.

Lemma shrunk_eq s s' : groups s' = groups s → shrunk s s'.
Proof. intros E k g Hg. exists g. rewrite <- E. split; [done|lia]. Qed.

Lemma shrunk_trans s1 s2 s3 : shrunk s1 s2 → shrunk s2 s3 → shrunk s1 s3.
Proof.
  intros H12 H23 k g3 Hg3.
  destruct (H23 k g3 Hg3) as (g2 & Hg2 & ?).
  destruct (H12 k g2 Hg2) as (g1 & Hg1 & ?).
  exists g1. split; [done|lia].
Qed.

Lemma shrunk_delete s s' k : groups s' = delete k (groups s) → shrunk s s'.
Proof.
  intros E k' g' Hg'. rewrite E in Hg'.
  apply lookup_delete_Some in Hg' as [_ Hg']. exists g'. split; [done|lia].
Qed.

Lemma shrunk_insert s s' k g g' :
  groups s !! k = Some g → Group.size g' <= Group.size g →
  groups s' = <[k := g']> (groups s) → shrunk s s'.
Proof.
  intros Hg Hle E k' g'' Hg''. rewrite E in Hg''.
  destruct (decide (k' = k)) as [->|Hne].
  - rewrite lookup_insert_eq in Hg''. injection Hg'' as <-. by exists g.
  - rewrite lookup_insert_ne in Hg'' by done. exists g''. split; [done|lia].
Qed.

(** A record leaves its group: the group gets smaller or goes. *)
Lemma shrunk_remove s s' k g l sz :
  groups s !! k = Some g → sz <= Group.size g →
  groups s' = match l with
              | [] => delete k (groups s)
              | _ => <[k := Group.mk l sz (Group.maxRequests g)]> (groups s)
              end →
  shrunk s s'.
Proof.
  intros Hg Hle E. destruct l.
  - by apply (shrunk_delete s s' k).
  - by apply (shrunk_insert s s' k g (Group.mk (n :: l) sz (Group.maxRequests g))).
Qed.

Lemma per_app_shrunk s s' :
  shrunk s s' → maxPerApp s' = maxPerApp s → per_app_ok s → per_app_ok s'.
Proof.
  intros Hsh Hm [Hzero|Hok]; [left; congruence|right].
  intros k g' Hg'. destruct (Hsh k g' Hg') as (g & Hg & Hle).
  specialize (Hok k g Hg). lia.
Qed.

Lemma select_groups env w k s s1 r :
  select env w k s = Some (s1, r) →
  groups s1 = groups s ∧ maxPerApp s1 = maxPerApp s.
Proof.
  unfold select. destruct (heap s !! w); [|done].
  cbn [mbind option_bind]. by intros [= <- _].
Qed.

Lemma after_restart_shrunk s k :
  shrunk s (after_restart s k)
  ∧ maxPerApp (after_restart s k) = maxPerApp s.
Proof.
  unfold after_restart. destruct (groups s !! k) as [g|]; cbn.
  - split; [|done]. by apply (shrunk_delete _ _ k).
  - split; [by apply shrunk_eq|done].
Qed.

Lemma use_group_per_app env options s s1 r :
  Inv s → headroom s → per_app_ok s →
  use_group env options s = Some (s1, r) →
  per_app_ok s1 ∧ maxPerApp s1 = maxPerApp s.
Proof.
  intros HI [Hroom _] Hok. unfold use_group.
  set (k := PoolOptions.appRoot options).
  destruct (groups s !! k) as [g|] eqn:Hg; [|done]. cbn [mbind option_bind].
  pose proof (group_size_pos s k g HI Hg) as Hgpos.
  pose proof (group_size_le_count s k g HI Hg) as Hgle.
  destruct (head _) as [front|]; [|done]. cbn [mbind option_bind].
  destruct (heap s !! front) as [fp|]; [|done]. cbn [mbind option_bind].
  destruct (ProcessInfo.sessions fp =? 0).
  { intros [E1 E2]%select_groups. cbn in E1, E2. split; [|done].
    apply (per_app_shrunk s); [|done|done].
    eapply shrunk_insert; [exact Hg| |exact E1]. cbn. lia. }
  destruct (_ || _) eqn:Hsat.
  { destruct (PoolOptions.useGlobalQueue options).
    - intros [= <- _]. split; [|done]. by apply (per_app_shrunk s), Hok;
        [apply shrunk_eq|].
    - destruct (scan_smallest _ _ _); [|done]. cbn [mbind option_bind].
      intros [E1 E2]%select_groups. cbn in E1, E2. split; [|done].
      apply (per_app_shrunk s); [|done|done].
      eapply shrunk_insert; [exact Hg| |exact E1]. cbn. lia. }
  apply orb_false_iff in Hsat as [_ Hper].
  destruct (spawn env options) as [e|pid].
  { intros [= <- _]. split; [|done]. by apply (per_app_shrunk s), Hok;
      [apply shrunk_eq|]. }
  unfold alloc. intros [E1 E2]%select_groups. cbn in E1, E2. split; [|done].
  destruct Hok as [Hzero|Hok]; [left; congruence|right].
  intros k' g' Hg'. rewrite E1 in Hg'. rewrite E2.
  destruct (decide (k' = k)) as [->|Hne].
  - rewrite lookup_insert_eq in Hg'. injection Hg' as <-. cbn.
    rewrite uincr_small by lia.
    apply andb_false_iff in Hper as [Hper|Hper].
    + apply negb_false_iff, Z.eqb_eq in Hper.
      specialize (Hok k g Hg). lia.
    + apply Z.leb_gt in Hper. lia.
  - rewrite lookup_insert_ne in Hg' by done. by apply (Hok k').
Qed.

Lemma spawn_new_per_app env options s s1 r :
  0 <= maxPerApp s →
  per_app_ok s →
  spawn_new env options s = Some (s1, r) →
  per_app_ok s1 ∧ maxPerApp s1 = maxPerApp s.
Proof.
  intros Hpos Hok. unfold spawn_new.
  set (k := PoolOptions.appRoot options) in *.
  destruct (spawn env options) as [e|pid].
  { intros [= <- _]. split; [|done]. by apply (per_app_shrunk s), Hok;
      [apply shrunk_eq|]. }
  unfold alloc. intros [E1 E2]%select_groups. cbn in E1, E2. split; [|done].
  destruct (decide (maxPerApp s = 0)) as [Hz|Hnz]; [left; congruence|].
  destruct Hok as [Hzero|Hok]; [done|right].
  intros k' g' Hg'. rewrite E1 in Hg'. rewrite E2.
  destruct (decide (k' = k)) as [->|Hne].
  - rewrite lookup_insert_eq in Hg'. injection Hg' as <-. cbn. lia.
  - rewrite lookup_insert_ne in Hg' by done. by apply (Hok k').
Qed.

Lemma reaped_shrunk s k g w :
  Inv s → groups s !! k = Some g →
  shrunk s (reaped s k g w) ∧ maxPerApp (reaped s k g w) = maxPerApp s.
Proof.
  intros HI Hg. split; [|done].
  apply (shrunk_remove s _ k g (erase w (Group.processes g))
           (Group.size g - 1)); [done|lia|done].
Qed.

Lemma new_group_per_app env options s s1 r :
  Inv s → 0 <= maxPerApp s → per_app_ok s →
  new_group env options s = Some (s1, r) →
  per_app_ok s1 ∧ maxPerApp s1 = maxPerApp s.
Proof.
  intros HI Hpos Hok. unfold new_group.
  pose proof (inv_active s HI). pose proof (active_le_count s HI).
  pose proof (inv_inactive_len s HI) as Hlen.
  destruct (max s <=? active s) eqn:Hfull.
  { by intros [= <- _]. }
  apply Z.leb_gt in Hfull.
  destruct (count s =? max s) eqn:Hmax;
    [apply Z.eqb_eq in Hmax|apply Z.eqb_neq in Hmax].
  - destruct (evict_spec s HI) as (w & p & g & _ & _ & Hg & _ & -> & _).
    { intros E. rewrite E in Hlen. cbn in Hlen. lia. }
    cbn [mbind option_bind]. intros Hrun.
    destruct (reaped_shrunk s _ g w HI Hg) as [Hsh Hm].
    apply spawn_new_per_app in Hrun.
    + by rewrite Hm in Hrun.
    + by rewrite Hm.
    + by apply (per_app_shrunk s).
  - cbn [mbind option_bind]. by apply spawn_new_per_app.
Qed.

Lemma spawnOrUseExisting_per_app env options s s1 r :
  Inv s → headroom s → 0 <= maxPerApp s → per_app_ok s →
  spawnOrUseExisting env options s = Some (s1, r) →
  per_app_ok s1 ∧ maxPerApp s1 = maxPerApp s.
Proof.
  intros HI Hroom Hpos Hok. unfold spawnOrUseExisting.
  rewrite restart_prestep_eq by done. cbn [mbind option_bind].
  destruct (needsRestart _ _ _).
  - intros Hrun.
    destruct (after_restart_shrunk s (PoolOptions.appRoot options)) as [Hsh Hm].
    apply new_group_per_app in Hrun.
    + by rewrite Hm in Hrun.
    + by apply after_restart_Inv.
    + by rewrite Hm.
    + by apply (per_app_shrunk s).
  - destruct (bool_decide _).
    + by apply use_group_per_app.
    + by apply new_group_per_app.
Qed.

Lemma connect_failed_shrunk options s w k s1 s2 :
  pass_post options s (Selected w k) s1 →
  connect_failed options w k s1 = Some s2 →
  shrunk s1 s2 ∧ maxPerApp s2 = maxPerApp s1.
Proof.
  intros (Hopen & -> & HI & (g & Hg & Hw) & Hc).
  set (k := PoolOptions.appRoot options) in *.
  set (sI := session_opened w s1) in *.
  pose proof (group_size_pos sI k g HI Hg) as Hgpos.
  pose proof (group_size_le_count sI k g HI Hg) as Hgle.
  pose proof (inv_count_lt sI HI) as Hclt.
  unfold connect_failed.
  destruct (heap s1 !! w) as [p|]; [|done]. cbn [mbind option_bind].
  change (groups (put_info w _ s1)) with (groups s1).
  change (groups sI) with (groups s1) in Hg. rewrite Hg.
  cbn [mbind option_bind]. intros [= <-]. split.
  - apply (shrunk_remove s1 _ k g (erase w (Group.processes g))
             (udecr (Group.size g))); [done| |].
    + rewrite udecr_small by (cbn in *; lia). lia.
    + destruct (erase w (Group.processes g)); cbn.
      * by rewrite delete_insert_eq.
      * done.
  - by destruct (erase w (Group.processes g)).
Qed.

Lemma get_loop_per_app envs options : ∀ fuel attempt i s s' r,
  Inv s → headroom s → 0 <= maxPerApp s → per_app_ok s →
  get_loop fuel envs i options attempt s = Some (s', r) →
  per_app_ok s' ∧ maxPerApp s' = maxPerApp s.
Proof.
  induction fuel as [|fuel IH]; intros attempt i s s' r HI Hroom Hpos Hok;
    [done|].
  cbn [get_loop].
  destruct (spawnOrUseExisting_Inv (envs i) options s HI Hroom)
    as (s1 & pr & Hrun & Hpost).
  rewrite Hrun. cbn [mbind option_bind].
  destruct (spawnOrUseExisting_per_app _ _ _ _ _ HI Hroom Hpos Hok Hrun)
    as [Hok1 Hm1].
  destruct pr as [w k|gq|e].
  - destruct (connect (envs i) w) as [e|[]].
    + destruct (connect_failed_Inv options s w k s1 Hpost)
        as (s2 & Hcf & HI2 & Hc2 & Ho2).
      rewrite Hcf. cbn [mbind option_bind].
      destruct (connect_failed_shrunk _ _ _ _ _ _ Hpost Hcf) as [Hsh2 Hm2].
      pose proof (per_app_shrunk s1 s2 Hsh2 Hm2 Hok1) as Hok2.
      destruct (attempt =? MAX_GET_ATTEMPTS).
      * intros [= <- _]. split; [done|congruence].
      * intros Hrest. apply IH in Hrest; [|done| |lia|done].
        -- split; [tauto|]. destruct Hrest as [_ ->]. congruence.
        -- destruct Hpost as (Hopen & _ & _ & _ & Hc). destruct Hroom as [Hr1 Hr2].
           split; [lia|]. by rewrite Ho2, Hopen.
    + intros [= <- _]. split; [|done].
      apply (per_app_shrunk s1); [by apply shrunk_eq|done|done].
  - by intros [= <- _].
  - by intros [= <- _].
Qed.

(** No operation but [setMaxPerApp] lets a group grow beyond [maxPerApp]:
    when the limit is respected (it is 0, for no limit, or no group is
    larger) before a [get], a close callback, [clear], [setMax],
    [setMaxIdleTime] or a cleaner pass, it is respected afterwards. *)
Theorem per_app_limit (op : Op) (s s' : t) :
  reachable s →
  enabled s op →
  (∀ n, op ≠ OpSetMaxPerApp n) →
  0 <= maxPerApp s →
  per_app_ok s →
  run op s = Some s' →
  per_app_ok s' ∧ maxPerApp s' = maxPerApp s.
Proof.
  intros HI%reachable_Inv Hen Hop Hpos Hok Hrun.
  destruct op as [envs options|envs options attempt gq|now w| |n|n|n|now];
    cbn [run enabled] in *.
  - unfold get in Hrun.
    destruct (get_loop _ _ _ _ _ _) as [[s1 r]|] eqn:Hg; [|done].
    injection Hrun as <-. by apply get_loop_per_app in Hg.
  - unfold get_resume in Hrun. destruct Hen as [Hroom Hatt].
    destruct (get_loop _ _ _ _ _ _) as [[s1 r]|] eqn:Hg; [|done].
    injection Hrun as <-. apply get_loop_per_app in Hg.
    + by destruct gq.
    + destruct gq; [|done]. by apply (Inv_core s).
    + by destruct gq.
    + by destruct gq.
    + destruct gq; [|done].
      apply (per_app_shrunk s); [by apply shrunk_eq|done|done].
  - unfold close in Hrun.
    set (s0 := with_sessions_open (erase w (sessions_open s)) s) in *.
    assert (shrunk s s' ∧ maxPerApp s' = maxPerApp s) as [Hsh Hm];
      [|split; [by apply (per_app_shrunk s)|done]].
    destruct (decide (pooled s w)) as [Hpool|Hgone].
    + destruct Hpool as (k & g & Hg & Hw).
      destruct (record_of s k g w HI Hg Hw) as (p & Hp & Hk & Hs).
      pose proof (group_size_pos s k g HI Hg) as Hgpos.
      pose proof (group_size_le_count s k g HI Hg) as Hgle.
      pose proof (inv_count_lt s HI).
      unfold sessionClose, weak_lock in Hrun.
      rewrite decide_True in Hrun
        by (change (owned s w); apply owned_pooled; [done|by exists k, g]).
      cbn [heap groups s0 with_sessions_open] in Hrun.
      rewrite Hp, Hk, Hg in Hrun.
      destruct (_ && _).
      * injection Hrun as <-. split.
        -- apply (shrunk_remove s _ k g (erase w (Group.processes g))
                    (udecr (Group.size g))); [done| |].
           ++ rewrite udecr_small by lia. lia.
           ++ destruct (erase w (Group.processes g)); cbn.
              ** by rewrite delete_insert_eq.
              ** done.
        -- by destruct (erase w (Group.processes g)).
      * destruct (_ =? 0); injection Hrun as <-.
        -- split; [|done].
           by apply (shrunk_insert s _ k g
                       (set_processes (push_front w (erase w (Group.processes g))) g)).
        -- split; [by apply shrunk_eq|done].
    + unfold sessionClose, weak_lock in Hrun.
      rewrite decide_False in Hrun
        by (change (¬ owned s w); by rewrite owned_pooled).
      injection Hrun as <-. split; [by apply shrunk_eq|done].
  - injection Hrun as <-. split; [|done].
    apply (per_app_shrunk s); [|done|done].
    intros k g' Hg'. cbn in Hg'. by rewrite lookup_empty in Hg'.
  - injection Hrun as <-. split; [|done].
    apply (per_app_shrunk s); [by apply shrunk_eq|done|done].
  - by destruct (Hop n).
  - injection Hrun as <-. split; [|done].
    apply (per_app_shrunk s); [by apply shrunk_eq|done|done].
  - destruct (cleanerPass_spec now s HI) as (s1 & Hrun1 & _ & _ & Hgr & _).
    rewrite Hrun in Hrun1. injection Hrun1 as <-.
    assert (maxPerApp s' = maxPerApp s) as Hm.
    { clear -Hrun. unfold cleanerPass in Hrun.
      revert Hrun. generalize (begin (inactiveApps s)).
      generalize (S (length (inactiveApps s))). intros fuel. revert s.
      induction fuel as [|fuel IH]; intros s [w|] H;
        cbn [cleaner_loop] in H; try (by simplify_eq).
      destruct (heap s !! w) as [p|]; [cbn [mbind option_bind] in H|done].
      destruct (groups s !! _) as [g|]; [cbn [mbind option_bind] in H|done].
      destruct (idle_too_long s now p).
      - apply IH in H. rewrite H. by destruct (erase w (Group.processes g)).
      - apply IH in H. rewrite H. by destruct (Group.processes g). }
    split; [|done]. apply (per_app_shrunk s); [|done|done].
    intros k g' Hg'. rewrite Hgr in Hg'.
    destruct (groups s !! k) as [g|]; [|done]. cbn in Hg'.
    exists g. split; [done|]. unfold reap_group in Hg'.
    destruct (filter _ _) as [|a l] eqn:Hf; [done|]. injection Hg' as <-.
    assert (length (a :: l) ≤ length (Group.processes g))%nat as Hlen
      by (rewrite <- Hf; apply length_filter).
    cbn [Group.size length] in *. lia.
Qed.

(** The theorem at a pool that allows one record for each application and
    holds a busy one: a second [get] for the application shares it. *)
Lemma per_app_limit_witness :
  ∃ s', run (OpGet (λ _, Demo.env_ok 101 6) Demo.optsA) Demo.one_per_app
        = Some s'
        ∧ per_app_ok s'.
Proof.
  assert (∃ s', run (OpGet (λ _, Demo.env_ok 101 6) Demo.optsA)
                  Demo.one_per_app = Some s') as [s' Hrun]
    by (vm_compute; eexists; reflexivity).
  exists s'. split; [exact Hrun|].
  refine (proj1 (per_app_limit _ Demo.one_per_app s'
                   reachable_one_per_app _ _ _ _ Hrun)).
  - vm_compute. split; reflexivity.
  - intros n. discriminate.
  - vm_compute. discriminate.
  - right. intros k g Hg.
    destruct (decide (k = "/app/a")) as [->|Hne].
    + vm_compute in Hg. injection Hg as <-. vm_compute. discriminate.
    + exfalso. revert Hg. unfold Demo.one_per_app.
      change (groups _) with ({[ "/app/a" := Group.mk [0%nat] 1 0 ]}
                               : gmap string Group.t).
      by rewrite lookup_singleton_ne.
Defined.

End per_app.

(** ** Records in use stay *)

Section in_use.
Import StdList Pool Run.
Implicit Types (s : t) (g : Group.t) (k : string) (w x y : nat) (l : list nat).

Lemma elem_of_erase_ne w l x : x ∈ l → x ≠ w → x ∈ erase w l.
Proof.
  induction l as [|y l IH]; [by intros ?%elem_of_nil|].
  intros Hx Hne. cbn [erase]. apply elem_of_cons in Hx as [->|Hx].
  - rewrite decide_False by done. left.
  - destruct (decide (y = w)); [done|]. right. by apply IH.
Qed.

Lemma pooled_eq s s' x : groups s' = groups s → pooled s x → pooled s' x.
Proof. intros E (k & g & Hg & Hx). exists k, g. by rewrite E. Qed.

(** The list of a group is replaced by one that holds at least the same
    records. *)
Lemma pooled_grow s s' k g g' x :
  groups s !! k = Some g →
  groups s' = <[k := g']> (groups s) →
  (∀ y, y ∈ Group.processes g → y ∈ Group.processes g') →
  pooled s x → pooled s' x.
Proof.
  intros Hg E Hsub (kx & gx & Hgx & Hx).
  destruct (decide (kx = k)) as [->|Hne].
  - exists k, g'. rewrite E, lookup_insert_eq. split; [done|].
    apply Hsub. congruence.
  - exists kx, gx. by rewrite E, lookup_insert_ne.
Qed.

(** Another record leaves its group. *)
Lemma pooled_remove s s' k g w sz x :
  groups s !! k = Some g →
  groups s' = match erase w (Group.processes g) with
              | [] => delete k (groups s)
              | _ => <[k := Group.mk (erase w (Group.processes g)) sz
                              (Group.maxRequests g)]> (groups s)
              end →
  x ≠ w → pooled s x → pooled s' x.
Proof.
  intros Hg E Hne (kx & gx & Hgx & Hx).
  destruct (decide (kx = k)) as [->|Hk].
  - assert (gx = g) as -> by congruence.
    pose proof (elem_of_erase_ne w _ x Hx Hne) as Hin.
    destruct (erase w (Group.processes g)) as [|a l] eqn:He.
    + by apply elem_of_nil in Hin.
    + eexists k, _. rewrite E, lookup_insert_eq. split; [done|]. done.
  - exists kx, gx. split; [|done]. rewrite E.
    destruct (erase w (Group.processes g)).
    + by rewrite lookup_delete_ne.
    + by rewrite lookup_insert_ne.
Qed.

(** A group is founded for an application that had none. *)
Lemma pooled_found s s' k g' x :
  groups s !! k = None →
  groups s' = <[k := g']> (groups s) →
  pooled s x → pooled s' x.
Proof.
  intros Hnone E (kx & gx & Hgx & Hx). exists kx, gx. split; [|done].
  rewrite E, lookup_insert_ne; [done|]. intros ->. congruence.
Qed.

Lemma select_keeps env w k s s1 r x :
  select env w k s = Some (s1, r) → pooled s x → pooled s1 x.
Proof.
  intros [E _]%select_groups. by apply pooled_eq.
Qed.

Lemma use_group_keeps env options s s1 r x :
  use_group env options s = Some (s1, r) → pooled s x → pooled s1 x.
Proof.
  unfold use_group. set (k := PoolOptions.appRoot options).
  destruct (groups s !! k) as [g|] eqn:Hg; [|done]. cbn [mbind option_bind].
  destruct (Group.processes g) as [|front tl] eqn:Hps; [done|].
  cbn [head mbind option_bind].
  destruct (heap s !! front) as [fp|]; [|done]. cbn [mbind option_bind].
  destruct (ProcessInfo.sessions fp =? 0).
  { intros [E _]%select_groups Hx. cbn [groups emit with_active with_inactiveApps with_count put_group
         with_groups with_nextId put_info with_heap] in E.
    apply (pooled_grow s s1 k g _ x Hg E); [|done].
    intros y. rewrite ?Hps. cbn [Group.processes set_processes pop_front tail].
    unfold push_back.
    rewrite elem_of_cons, elem_of_app, list_elem_of_singleton. tauto. }
  destruct (_ || _).
  { destruct (PoolOptions.useGlobalQueue options).
    - intros [= <- _]. by apply pooled_eq.
    - destruct (scan_smallest _ _ _) as [sm|]; [|done].
      cbn [mbind option_bind].
      intros [E _]%select_groups Hx. cbn [groups emit with_active with_inactiveApps with_count put_group
         with_groups with_nextId put_info with_heap] in E.
      apply (pooled_grow s s1 k g _ x Hg E); [|done].
      intros y Hy. cbn [Group.processes set_processes]. unfold push_back.
      rewrite elem_of_app.
      destruct (decide (y = sm)) as [->|Hne].
      + right. by apply list_elem_of_singleton.
      + left. rewrite ?Hps in *. by apply elem_of_erase_ne. }
  destruct (spawn env options) as [e|pid].
  { intros [= <- _]. by apply pooled_eq. }
  unfold alloc. intros [E _]%select_groups Hx. cbn [groups emit with_active with_inactiveApps with_count put_group
         with_groups with_nextId put_info with_heap] in E.
  apply (pooled_grow s s1 k g _ x Hg E); [|done].
  intros y Hy. cbn [Group.processes set_processes set_size]. unfold push_back.
  rewrite elem_of_app. left. by rewrite ?Hps in *.
Qed.

Lemma spawn_new_keeps env options s s1 r x :
  groups s !! PoolOptions.appRoot options = None →
  spawn_new env options s = Some (s1, r) → pooled s x → pooled s1 x.
Proof.
  intros Hnone. unfold spawn_new.
  destruct (spawn env options) as [e|pid].
  { intros [= <- _]. by apply pooled_eq. }
  unfold alloc. intros [E _]%select_groups Hx. cbn in E.
  by apply (pooled_found s s1 _ _ x Hnone E).
Qed.

Lemma new_group_keeps env options s s1 r x :
  Inv s → groups s !! PoolOptions.appRoot options = None →
  new_group env options s = Some (s1, r) →
  in_use s x → pooled s1 x.
Proof.
  intros HI Hnone. unfold new_group.
  pose proof (inv_active s HI). pose proof (active_le_count s HI).
  pose proof (inv_inactive_len s HI) as Hlen.
  destruct (max s <=? active s) eqn:Hfull.
  { by intros [= <- _] [? _]. }
  apply Z.leb_gt in Hfull.
  destruct (count s =? max s) eqn:Hmax;
    [apply Z.eqb_eq in Hmax|apply Z.eqb_neq in Hmax].
  - destruct (evict_spec s HI) as (w & p & g & Hhd & Hp & Hg & Hw & -> & _).
    { intros E. rewrite E in Hlen. cbn in Hlen. lia. }
    cbn [mbind option_bind]. intros Hrun [Hx Hbusy].
    set (kw := Process.getAppRoot (ProcessInfo.process p)) in *.
    assert (x ≠ w) as Hne.
    { intros ->. apply (idle_not_busy s w); [|done].
      assert (w ∈ inactiveApps s) as Hin.
      { destruct (inactiveApps s); [done|]. injection Hhd as ->. left. }
      by apply (inv_inactive s HI) in Hin as [_ ?]. }
    apply (spawn_new_keeps _ _ _ _ _ x) in Hrun; [done| |].
    + assert (kw ≠ PoolOptions.appRoot options) as Hk by congruence.
      cbn. destruct (erase w (Group.processes g)).
      * by rewrite lookup_delete_ne.
      * by rewrite lookup_insert_ne.
    + by apply (pooled_remove s _ kw g w (Group.size g - 1) x).
  - cbn [mbind option_bind]. intros Hrun [Hx _].
    by apply (spawn_new_keeps _ _ _ _ _ x) in Hrun.
Qed.

Lemma spawnOrUseExisting_keeps env options s s1 r x :
  Inv s →
  needsRestart env (PoolOptions.appRoot options) options = false →
  spawnOrUseExisting env options s = Some (s1, r) →
  in_use s x → pooled s1 x.
Proof.
  intros HI Hnr. unfold spawnOrUseExisting.
  rewrite restart_prestep_eq by done. rewrite Hnr. cbn [mbind option_bind].
  destruct (groups s !! PoolOptions.appRoot options) as [g|] eqn:Hg.
  - rewrite bool_decide_eq_true_2 by eauto.
    intros Hrun [Hx _]. by apply (use_group_keeps _ _ _ _ _ x) in Hrun.
  - rewrite bool_decide_eq_false_2 by (by intros [? ?]).
    by apply new_group_keeps.
Qed.

Lemma cleaner_loop_open now : ∀ fuel s it s',
  cleaner_loop fuel now s it = Some s' → sessions_open s' = sessions_open s.
Proof.
  induction fuel as [|fuel IH]; intros s [w|] s' H; cbn [cleaner_loop] in H;
    try (by simplify_eq).
  destruct (heap s !! w) as [p|]; [cbn [mbind option_bind] in H|done].
  destruct (groups s !! _) as [g|]; [cbn [mbind option_bind] in H|done].
  destruct (idle_too_long s now p).
  - apply IH in H. rewrite H. by destruct (erase w (Group.processes g)).
  - apply IH in H. rewrite H. by destruct (Group.processes g).
Qed.

(** A record that is still pooled and on which no session has been closed
    is still in use. *)
Lemma in_use_next s s' x :
  Inv s → Inv s' → in_use s x → pooled s' x →
  (count_occ Nat.eq_dec (sessions_open s) x
   ≤ count_occ Nat.eq_dec (sessions_open s') x)%nat →
  in_use s' x.
Proof.
  intros HI HI' [(k & g & Hg & Hx) (p & Hp & Hs)] Hpool' Hocc.
  split; [done|].
  destruct (record_of s k g x HI Hg Hx) as (q & Hq & _ & Hqs).
  assert (q = p) as -> by congruence.
  destruct Hpool' as (k' & g' & Hg' & Hx').
  destruct (record_of s' k' g' x HI' Hg' Hx') as (p' & Hp' & _ & Hps').
  exists p'. split; [done|]. lia.
Qed.

Lemma get_loop_keeps envs options x : ∀ fuel attempt s s' r,
  Inv s → headroom s →
  needsRestart (envs 0%nat) (PoolOptions.appRoot options) options = false →
  (∀ w, connect (envs 0%nat) w = inr tt) →
  get_loop fuel envs 0 options attempt s = Some (s', r) →
  in_use s x →
  pooled s' x
  ∧ (count_occ Nat.eq_dec (sessions_open s) x
     ≤ count_occ Nat.eq_dec (sessions_open s') x)%nat.
Proof.
  intros [|fuel] attempt s s' r HI Hroom Hnr Hconn; [done|].
  cbn [get_loop].
  destruct (spawnOrUseExisting_Inv (envs 0%nat) options s HI Hroom)
    as (s1 & pr & Hrun & Hpost).
  rewrite Hrun. cbn [mbind option_bind]. intros Hres Hx.
  pose proof (spawnOrUseExisting_keeps _ _ _ _ _ x HI Hnr Hrun Hx) as Hx1.
  destruct Hpost as [Hopen _].
  destruct pr as [w k|gq|e].
  - rewrite Hconn in Hres. injection Hres as <- _. split.
    + by apply (pooled_eq s1).
    + cbn. rewrite Hopen. destruct (Nat.eq_dec w x); lia.
  - injection Hres as <- _. split; [done|]. by rewrite Hopen.
  - injection Hres as <- _. split; [done|]. by rewrite Hopen.
Qed.

(** The pool does not drop a record that has a session, unless it has a
    reason the operation names: a [get] that finds no restart requested
    and connects, the close callback of a session on another record, the
    setters and a cleaner pass leave every record with a session in its
    group, with its sessions.  (A restart purge, a failed [connect], the
    close callback that reaches [maxRequests], and [clear] do drop records
    in use.) *)
Theorem in_use_stays (op : Op) (s s' : t) (x : nat) :
  reachable s →
  enabled s op →
  spares op x →
  run op s = Some s' →
  in_use s x →
  in_use s' x.
Proof.
  intros HI%reachable_Inv Hen Hsp Hrun Hx.
  destruct (run_Inv op s HI Hen) as (s'' & Hrun' & HI').
  assert (s'' = s') as -> by congruence. clear Hrun'.
  assert (pooled s' x
          ∧ (count_occ Nat.eq_dec (sessions_open s) x
             ≤ count_occ Nat.eq_dec (sessions_open s') x)%nat) as [Hp Hocc];
    [|by apply (in_use_next s s' x)].
  destruct op as [envs options|envs options attempt gq|now w| |n|n|n|now];
    cbn [run enabled spares] in *.
  - destruct Hsp as [Hnr Hconn]. unfold get in Hrun.
    destruct (get_loop _ _ _ _ _ _) as [[s1 r]|] eqn:Hg; [|done].
    injection Hrun as <-. by apply get_loop_keeps with (x := x) in Hg.
  - destruct Hsp as [Hnr Hconn]. destruct Hen as [Hroom Hatt].
    unfold get_resume in Hrun.
    destruct (get_loop _ _ _ _ _ _) as [[s1 r]|] eqn:Hg; [|done].
    injection Hrun as <-. apply get_loop_keeps with (x := x) in Hg.
    + by destruct gq.
    + destruct gq; [|done]. by apply (Inv_core s).
    + by destruct gq.
    + done.
    + done.
    + destruct gq; [|done]. destruct Hx as [Hx1 Hx2]. split; [|done].
      by apply (pooled_eq s).
  - destruct Hx as [Hx Hbusy]. unfold close in Hrun.
    set (s0 := with_sessions_open (erase w (sessions_open s)) s) in *.
    assert (sessions_open s' = erase w (sessions_open s)) as Hopen'.
    { revert Hrun. unfold sessionClose.
      destruct (weak_lock s0 w) as [p|]; [|by intros [= <-]].
      destruct (groups s0 !! _) as [g|]; [|by intros [= <-]].
      destruct (_ && _).
      - intros [= <-]. by destruct (erase w (Group.processes g)).
      - destruct (_ =? 0); by intros [= <-]. }
    split.
    2:{ rewrite Hopen'.
        rewrite (count_occ_erase_ne w x (sessions_open s));
          [lia|by apply not_eq_sym]. }
    destruct (decide (pooled s w)) as [Hpool|Hgone].
    + destruct Hpool as (k & g & Hg & Hw).
      destruct (record_of s k g w HI Hg Hw) as (p & Hp & Hk & Hs).
      unfold sessionClose, weak_lock in Hrun.
      rewrite decide_True in Hrun
        by (change (owned s w); apply owned_pooled; [done|by exists k, g]).
      cbn [heap groups s0 with_sessions_open] in Hrun.
      rewrite Hp, Hk, Hg in Hrun.
      destruct (_ && _).
      * injection Hrun as <-.
        apply (pooled_remove s _ k g w (udecr (Group.size g)) x);
          [done| |by apply not_eq_sym|done].
        destruct (erase w (Group.processes g)); cbn.
        -- by rewrite delete_insert_eq.
        -- done.
      * destruct (_ =? 0); injection Hrun as <-.
        -- apply (pooled_grow s _ k g
                    (set_processes (push_front w (erase w (Group.processes g))) g)
                    x); [done|done| |done].
           intros y Hy. cbn. unfold push_front.
           destruct (decide (y = w)) as [->|Hne]; [left|right].
           by apply elem_of_erase_ne.
        -- by apply (pooled_eq s).
    + unfold sessionClose, weak_lock in Hrun.
      rewrite decide_False in Hrun
        by (change (¬ owned s w); by rewrite owned_pooled).
      injection Hrun as <-. by apply (pooled_eq s).
  - done.
  - injection Hrun as <-. destruct Hx as [Hx _]. split; [|done].
    by apply (pooled_eq s).
  - injection Hrun as <-. destruct Hx as [Hx _]. split; [|done].
    by apply (pooled_eq s).
  - injection Hrun as <-. destruct Hx as [Hx _]. split; [|done].
    by apply (pooled_eq s).
  - destruct (cleanerPass_spec now s HI) as (s1 & Hrun1 & _ & _ & Hgr & _).
    rewrite Hrun in Hrun1. injection Hrun1 as <-.
    split; [|unfold cleanerPass in Hrun; apply cleaner_loop_open in Hrun;
             by rewrite Hrun].
    destruct Hx as [(k & g & Hg & Hx) Hbusy].
    assert (x ∉ inactiveApps s) as Hnin.
    { intros Hin. apply (inv_inactive s HI) in Hin as [_ Hidle].
      by apply (idle_not_busy s x). }
    assert (x ∈ filter (λ w, ¬ (w ∈ inactiveApps s ∧ stale s now w = true))
                  (Group.processes g)) as Hin.
    { apply list_elem_of_filter. split; [|done]. by intros [? _]. }
    exists k. specialize (Hgr k). rewrite Hg in Hgr. cbn in Hgr.
    unfold reap_group in Hgr.
    destruct (filter _ (Group.processes g)) as [|a l] eqn:Hf.
    + by apply elem_of_nil in Hin.
    + eexists. split; [exact Hgr|]. done.
Qed.

(** The theorem at the full pool with an idle and a busy record: a [get]
    for another application evicts the idle one and leaves the busy one. *)
Lemma in_use_stays_witness :
  ∃ s', run (OpGet (λ _, Demo.env_ok 102 9) Demo.optsB) Demo.idle_and_busy_full
        = Some s'
        ∧ in_use s' 1%nat.
Proof.
  assert (∃ s', run (OpGet (λ _, Demo.env_ok 102 9) Demo.optsB)
                  Demo.idle_and_busy_full = Some s') as [s' Hrun]
    by (vm_compute; eexists; reflexivity).
  exists s'. split; [exact Hrun|].
  refine (in_use_stays _ Demo.idle_and_busy_full s' 1%nat
            reachable_idle_and_busy_full _ _ Hrun _).
  - vm_compute. split; reflexivity.
  - split; [reflexivity|]. intros w. reflexivity.
  - split.
    + exists "/app/a", (Group.mk [0%nat; 1%nat] 2 0).
      split; [vm_compute; reflexivity|]. right. left.
    + exists (ProcessInfo.mk (Process.mk "/app/a" 101) 6 6 1 0).
      split; [vm_compute; reflexivity|]. vm_compute. reflexivity.
Defined.

End in_use.

(** ** inactiveApps is in the order of last use *)

Section lru.
Import StdList Pool Run.
Implicit Types (s : t) (g : Group.t) (k : string) (w x y : nat) (l : list nat).

Lemma ordered_ext f f' l :
  (∀ x, x ∈ l → f' x = f x) → ordered f l → ordered f' l.
Proof.
  induction l as [|a l IH]; [done|]. intros Hext [Ha Hl]. split.
  - rewrite Forall_forall in Ha |- *. intros b Hb.
    rewrite (Hext a), (Hext b); [by apply Ha|by right|left].
  - apply IH; [|done]. intros x Hx. apply Hext. by right.
Qed.

Lemma ordered_sublist f l1 l2 : l1 `sublist_of` l2 → ordered f l2 → ordered f l1.
Proof.
  induction 1 as [|a l1 l2 Hsub IH|a l1 l2 Hsub IH]; [done| |].
  - intros [Ha Hl]. split; [|by apply IH].
    rewrite Forall_forall in Ha |- *. intros b Hb. apply Ha.
    by apply (elem_of_sublist l1).
  - intros [_ Hl]. by apply IH.
Qed.

Lemma ordered_snoc f l w :
  ordered f l → Forall (λ a, f a <= f w) l → ordered f (l ++ [w]).
Proof.
  induction l as [|a l IH]; [by repeat constructor|].
  intros [Ha Hl] Hle. apply Forall_cons in Hle as [Haw Hle].
  split; [|by apply IH]. apply Forall_app. split; [done|by constructor].
Qed.

Lemma erase_sublist w l : erase w l `sublist_of` l.
Proof.
  induction l as [|a l IH]; [done|]. cbn [erase].
  destruct (decide (a = w)); [by apply sublist_cons|by apply sublist_skip].
Qed.

Lemma idle_frame_refl s : idle_frame s s.
Proof. split; done. Qed.

Lemma idle_frame_eq s s' :
  inactiveApps s' = inactiveApps s → heap s' = heap s → idle_frame s s'.
Proof. intros E1 E2. split; [by rewrite E1|]. intros x _. by rewrite E2. Qed.

Lemma idle_frame_trans s1 s2 s3 :
  idle_frame s1 s2 → idle_frame s2 s3 → idle_frame s1 s3.
Proof.
  intros [S12 H12] [S23 H23]. split; [by etrans|].
  intros x Hx. rewrite H23 by done. apply H12. by apply (elem_of_sublist _ _ x Hx).
Qed.

Lemma idle_frame_lru T s s' : idle_frame s s' → lru T s → lru T s'.
Proof.
  intros [Hsub Hheap] [Hord Hle].
  assert (∀ x, x ∈ inactiveApps s' → last_used s' x = last_used s x) as Hext.
  { intros x Hx. unfold last_used. by rewrite Hheap. }
  split.
  - apply (ordered_ext (last_used s)); [done|]. by apply (ordered_sublist _ _ _ Hsub).
  - rewrite Forall_forall in Hle |- *. intros x Hx. rewrite Hext by done.
    apply Hle. by apply (elem_of_sublist _ _ x Hx).
Qed.

(** The record at [w] is written, and [w] is not inactive afterwards. *)
Lemma idle_frame_put s s' w p :
  inactiveApps s' `sublist_of` inactiveApps s →
  w ∉ inactiveApps s' →
  heap s' = <[w := p]> (heap s) →
  idle_frame s s'.
Proof.
  intros Hsub Hw E. split; [done|]. intros x Hx. rewrite E.
  apply lookup_insert_ne. by intros ->.
Qed.

Lemma scan_smallest_in h : ∀ rest sm w,
  scan_smallest h sm rest = Some w → w ∈ sm :: rest.
Proof.
  induction rest as [|it rest IH]; intros sm w; cbn [scan_smallest].
  - intros [= <-]. left.
  - destruct (h !! it) as [pi|]; [|done]. cbn [mbind option_bind].
    destruct (h !! sm) as [ps|]; [|done]. cbn [mbind option_bind].
    destruct (_ <? _); intros Hrun%IH.
    + by right.
    + apply elem_of_cons in Hrun as [->|Hrun]; [left|by do 2 right].
Qed.

Lemma inactive_fresh s x : Inv s → x ∈ inactiveApps s → x ≠ nextId s.
Proof.
  intros HI Hx. apply (inv_inactive s HI) in Hx as [Hp _].
  pose proof (inv_fresh s HI x Hp). lia.
Qed.

Lemma select_frame env w k s s1 r :
  w ∉ inactiveApps s →
  select env w k s = Some (s1, r) → idle_frame s s1.
Proof.
  intros Hw. unfold select. destruct (heap s !! w) as [p|]; [|done].
  cbn [mbind option_bind]. intros [= <- _].
  by eapply (idle_frame_put s _ w).
Qed.

Lemma use_group_frame env options s s1 r :
  Inv s → use_group env options s = Some (s1, r) → idle_frame s s1.
Proof.
  intros HI. unfold use_group. set (k := PoolOptions.appRoot options).
  destruct (groups s !! k) as [g|] eqn:Hg; [|done]. cbn [mbind option_bind].
  destruct (Group.processes g) as [|front tl] eqn:Hps; [done|].
  cbn [head mbind option_bind].
  destruct (heap s !! front) as [fp|] eqn:Hfp; [|done].
  cbn [mbind option_bind].
  pose proof (inv_inactive_nodup s HI) as Hnd.
  destruct (ProcessInfo.sessions fp =? 0) eqn:Hidle.
  { intros Hsel.
    eapply idle_frame_trans; [|eapply select_frame; [|exact Hsel]].
    - split; [apply erase_sublist|done].
    - cbn. intros Hin. by apply elem_of_erase in Hin as [_ ?]. }
  apply Z.eqb_neq in Hidle.
  assert (∀ x, x ∈ Group.processes g → x ∉ inactiveApps s) as Hbusy.
  { intros x Hx Hin.
    apply (idle_not_busy s x); [by apply (inv_inactive s HI) in Hin as [_ ?]|].
    by apply (all_busy_of_front s k g front tl fp). }
  destruct (_ || _).
  { destruct (PoolOptions.useGlobalQueue options).
    - intros [= <- _]. by apply idle_frame_eq.
    - destruct (scan_smallest _ _ _) as [sm|] eqn:Hscan; [|done].
      cbn [mbind option_bind]. intros Hsel.
      eapply idle_frame_trans; [|eapply select_frame; [|exact Hsel]].
      + by apply idle_frame_eq.
      + cbn. apply Hbusy. rewrite Hps. by apply scan_smallest_in in Hscan. }
  destruct (spawn env options) as [e|pid].
  { intros [= <- _]. by apply idle_frame_eq. }
  unfold alloc. intros Hsel.
  eapply idle_frame_trans; [|eapply select_frame; [|exact Hsel]].
  - eapply (idle_frame_put s _ (nextId s)); [done| |done].
    cbn. intros Hin. by apply (inactive_fresh s (nextId s)).
  - cbn. intros Hin. by apply (inactive_fresh s (nextId s)).
Qed.

Lemma spawn_new_frame env options s s1 r :
  Inv s → spawn_new env options s = Some (s1, r) → idle_frame s s1.
Proof.
  intros HI. unfold spawn_new.
  destruct (spawn env options) as [e|pid].
  { intros [= <- _]. by apply idle_frame_eq. }
  unfold alloc. intros Hsel.
  eapply idle_frame_trans; [|eapply select_frame; [|exact Hsel]].
  - eapply (idle_frame_put s _ (nextId s)); [done| |done].
    cbn. intros Hin. by apply (inactive_fresh s (nextId s)).
  - cbn. intros Hin. by apply (inactive_fresh s (nextId s)).
Qed.

Lemma new_group_frame env options s s1 r :
  Inv s → new_group env options s = Some (s1, r) → idle_frame s s1.
Proof.
  intros HI. unfold new_group.
  pose proof (inv_active s HI). pose proof (active_le_count s HI).
  pose proof (inv_inactive_len s HI) as Hlen.
  destruct (max s <=? active s) eqn:Hfull.
  { intros [= <- _]. by apply idle_frame_eq. }
  apply Z.leb_gt in Hfull.
  destruct (count s =? max s) eqn:Hmax;
    [apply Z.eqb_eq in Hmax|apply Z.eqb_neq in Hmax].
  - destruct (evict_spec s HI) as (w & p & g & Hhd & Hp & Hg & Hw & -> & HI0).
    { intros E. rewrite E in Hlen. cbn in Hlen. lia. }
    cbn [mbind option_bind]. intros Hrun.
    eapply idle_frame_trans; [|by eapply spawn_new_frame].
    split; [apply erase_sublist|done].
  - cbn [mbind option_bind]. by apply spawn_new_frame.
Qed.

Lemma after_restart_frame s k : idle_frame s (after_restart s k).
Proof.
  unfold after_restart. destruct (groups s !! k) as [g|]; cbn.
  - split; [apply sublist_filter|done].
  - by apply idle_frame_eq.
Qed.

Lemma spawnOrUseExisting_frame env options s s1 r :
  Inv s → spawnOrUseExisting env options s = Some (s1, r) → idle_frame s s1.
Proof.
  intros HI. unfold spawnOrUseExisting.
  rewrite restart_prestep_eq by done. cbn [mbind option_bind].
  destruct (needsRestart _ _ _).
  - intros Hrun. eapply idle_frame_trans; [apply after_restart_frame|].
    eapply new_group_frame; [|exact Hrun]. by apply after_restart_Inv.
  - destruct (bool_decide _).
    + by apply use_group_frame.
    + by apply new_group_frame.
Qed.

Lemma connect_failed_frame options s w k s1 s2 :
  pass_post options s (Selected w k) s1 →
  connect_failed options w k s1 = Some s2 →
  idle_frame s1 s2.
Proof.
  intros (Hopen & -> & HI & (g & Hg & Hw) & Hc).
  set (sI := session_opened w s1) in *.
  destruct (record_of sI _ g w HI Hg Hw) as (p & Hp & _ & Hs).
  assert (w ∉ inactiveApps s1) as Hnin.
  { intros Hin. apply (inv_inactive sI HI) in Hin as [_ (q & Hq & Hq0)].
    assert (q = p) as -> by congruence. rewrite Hs in Hq0. cbn in Hq0.
    destruct (Nat.eq_dec w w); [lia|done]. }
  unfold connect_failed.
  destruct (heap s1 !! w) as [p1|]; [|done]. cbn [mbind option_bind].
  destruct (groups _ !! _) as [g1|]; [|done]. cbn [mbind option_bind].
  intros [= <-].
  eapply (idle_frame_put s1 _ w); by destruct (erase w (Group.processes g1)).
Qed.

Lemma get_loop_frame envs options : ∀ fuel attempt i s s' r,
  Inv s → headroom s →
  get_loop fuel envs i options attempt s = Some (s', r) →
  idle_frame s s'.
Proof.
  induction fuel as [|fuel IH]; intros attempt i s s' r HI Hroom; [done|].
  cbn [get_loop].
  destruct (spawnOrUseExisting_Inv (envs i) options s HI Hroom)
    as (s1 & pr & Hrun & Hpost).
  rewrite Hrun. cbn [mbind option_bind].
  pose proof (spawnOrUseExisting_frame _ _ _ _ _ HI Hrun) as Hf1.
  destruct pr as [w k|gq|e].
  - destruct (connect (envs i) w) as [e|[]].
    + destruct (connect_failed_Inv options s w k s1 Hpost)
        as (s2 & Hcf & HI2 & Hc2 & Ho2).
      rewrite Hcf. cbn [mbind option_bind].
      pose proof (connect_failed_frame _ _ _ _ _ _ Hpost Hcf) as Hf2.
      destruct (attempt =? MAX_GET_ATTEMPTS).
      * intros [= <- _]. by eapply idle_frame_trans.
      * intros Hrest. apply IH in Hrest; [| done |].
        -- eapply idle_frame_trans; [|exact Hrest]. by eapply idle_frame_trans.
        -- destruct Hpost as (Hopen & _ & _ & _ & Hc). destruct Hroom as [Hr1 Hr2].
           split; [lia|]. by rewrite Ho2, Hopen.
    + intros [= <- _]. eapply idle_frame_trans; [exact Hf1|]. by split.
  - by intros [= <- _].
  - by intros [= <- _].
Qed.

(** A record used at [now] goes to the back of [inactiveApps]. *)
Lemma lru_push s s' w p' now :
  lru now s → w ∉ inactiveApps s →
  inactiveApps s' = inactiveApps s ++ [w] →
  (∀ x, x ≠ w → heap s' !! x = heap s !! x) →
  heap s' !! w = Some p' → ProcessInfo.lastUsed p' = now →
  lru now s'.
Proof.
  intros [Hord Hle] Hnin Hina Hheap Hw Hnow.
  assert (∀ x, x ∈ inactiveApps s → last_used s' x = last_used s x) as Hext.
  { intros x Hx. unfold last_used. rewrite Hheap; [done|]. by intros ->. }
  assert (last_used s' w = now) as Hw'.
  { unfold last_used. by rewrite Hw. }
  unfold lru. rewrite Hina. split.
  - apply ordered_snoc.
    + by apply (ordered_ext (last_used s)).
    + rewrite Forall_forall in Hle |- *. intros x Hx.
      rewrite Hext, Hw' by done. by apply Hle.
  - apply Forall_app. split.
    + rewrite Forall_forall in Hle |- *. intros x Hx.
      rewrite Hext by done. by apply Hle.
    + constructor; [|done]. rewrite Hw'. lia.
Qed.

(** [inactiveApps] is kept in the order of last use, as long as the clock
    the close callbacks read does not run backwards: if the inactive
    records are in the order of [lastUsed] and none was used after [T],
    this is still so after any operation, where a close callback reads a
    time [now >= T] and moves [T] to [now].  So the front of
    [inactiveApps], which is what [get] evicts, is an inactive record that
    was used least recently. *)
Theorem inactive_in_lru_order (op : Op) (s s' : t) (T : Z) :
  reachable s →
  enabled s op →
  (∀ now w, op = OpClose now w → T <= now) →
  lru T s →
  run op s = Some s' →
  lru (match op with OpClose now _ => now | _ => T end) s'
  ∧ ∀ w x, head (inactiveApps s') = Some w → x ∈ inactiveApps s' →
      last_used s' w <= last_used s' x.
Proof.
  intros HI%reachable_Inv Hen Htime Hlru Hrun.
  assert (lru (match op with OpClose now _ => now | _ => T end) s') as Hlru';
    [|split; [done|]].
  2:{ intros w x Hhd Hx. destruct Hlru' as [Hord _].
      destruct (inactiveApps s') as [|a l]; [done|]. injection Hhd as ->.
      destruct Hord as [Ha _]. apply elem_of_cons in Hx as [->|Hx]; [lia|].
      rewrite Forall_forall in Ha. by apply Ha. }
  destruct op as [envs options|envs options attempt gq|now w| |n|n|n|now];
    cbn [run enabled] in *.
  - unfold get in Hrun.
    destruct (get_loop _ _ _ _ _ _) as [[s1 r]|] eqn:Hg; [|done].
    injection Hrun as <-. apply get_loop_frame in Hg; [|done|done].
    by apply (idle_frame_lru T s).
  - unfold get_resume in Hrun. destruct Hen as [Hroom Hatt].
    destruct (get_loop _ _ _ _ _ _) as [[s1 r]|] eqn:Hg; [|done].
    injection Hrun as <-. apply get_loop_frame in Hg.
    + apply (idle_frame_lru T s); [|done].
      eapply idle_frame_trans; [|exact Hg]. by destruct gq.
    + destruct gq; [|done]. by apply (Inv_core s).
    + by destruct gq.
  - specialize (Htime now w eq_refl). unfold close in Hrun.
    set (s0 := with_sessions_open (erase w (sessions_open s)) s) in *.
    assert (lru now s) as Hnow.
    { destruct Hlru as [Hord Hle]. split; [done|].
      eapply Forall_impl; [exact Hle|]. intros x Hx. cbn in Hx. lia. }
    destruct (decide (pooled s w)) as [Hpool|Hgone].
    + destruct Hpool as (k & g & Hg & Hw).
      destruct (record_of s k g w HI Hg Hw) as (p & Hp & Hk & Hs).
      pose proof (count_occ_erase_eq w _ Hen) as Hocc.
      assert (w ∉ inactiveApps s) as Hnin.
      { intros Hin. apply (inv_inactive s HI) in Hin as [_ (q & Hq & Hq0)].
        assert (q = p) as -> by congruence. lia. }
      unfold sessionClose, weak_lock in Hrun.
      rewrite decide_True in Hrun
        by (change (owned s w); apply owned_pooled; [done|by exists k, g]).
      cbn [heap groups s0 with_sessions_open] in Hrun.
      rewrite Hp, Hk, Hg in Hrun.
      destruct (_ && _).
      * injection Hrun as <-. apply (idle_frame_lru now s); [|done].
        eapply (idle_frame_put s _ w);
          by destruct (erase w (Group.processes g)).
      * destruct (_ =? 0); injection Hrun as <-.
        -- (* the record becomes inactive, at the back *)
           eapply (lru_push s _ w _ now); [done|done|reflexivity| | |].
           ++ intros x Hx. cbn. by rewrite !lookup_insert_ne.
           ++ cbn. apply lookup_insert_eq.
           ++ done.
        -- apply (idle_frame_lru now s); [|done].
           eapply (idle_frame_put s _ w); [done|done|].
           cbn. by rewrite insert_insert_eq.
    + unfold sessionClose, weak_lock in Hrun.
      rewrite decide_False in Hrun
        by (change (¬ owned s w); by rewrite owned_pooled).
      injection Hrun as <-. by apply (idle_frame_lru now s).
  - injection Hrun as <-. split; cbn; [done|constructor].
  - injection Hrun as <-. by apply (idle_frame_lru T s).
  - injection Hrun as <-. by apply (idle_frame_lru T s).
  - injection Hrun as <-. by apply (idle_frame_lru T s).
  - destruct (cleanerPass_spec now s HI)
      as (s1 & Hrun1 & _ & Hina & _ & _ & _ & Hheap & _).
    rewrite Hrun in Hrun1. injection Hrun1 as <-.
    apply (idle_frame_lru T s); [|done]. split.
    + rewrite Hina. apply sublist_filter.
    + intros x _. by rewrite Hheap.
Qed.

(** The theorem at the close, at time 7, of the session on the one busy
    record. *)
Lemma inactive_in_lru_order_witness : lru 7 Demo.one_idle.
Proof.
  refine (proj1 (inactive_in_lru_order (OpClose 7 0%nat) Demo.one_busy
                   Demo.one_idle 5 reachable_one_busy _ _ _ _)).
  - vm_compute. left.
  - intros now w [= <- _]. lia.
  - split; vm_compute; constructor.
  - vm_compute. reflexivity.
Defined.

End lru.

(** ** When the spawn service is called *)

Section spawn_decision.
Import StdList Pool Run.
Implicit Types (s : t) (g : Group.t) (k : string) (w x y : nat) (l : list nat).

(** In a pass that finds no restart requested, the spawn service is called
    at most once, and it is called exactly in two situations: the
    application has a group whose front record is busy, and neither the
    pool ([count >= max]) nor the group ([maxPerApp != 0] and
    [size >= maxPerApp]) is full; or the application has no group and
    [active < max].  The pass calls nothing else but [notify_all], at most
    once and after [spawn]. *)
Theorem spawn_decision (env : Env) (options : PoolOptions.t) (s s1 : t)
    (r : PassResult) :
  let k := PoolOptions.appRoot options in
  let spawns :=
    match groups s !! k with
    | Some g =>
        (∀ w, head (Group.processes g) = Some w → busy s w)
        ∧ count s < max s
        ∧ (maxPerApp s = 0 ∨ Group.size g < maxPerApp s)
    | None => active s < max s
    end in
  reachable s →
  needsRestart env k options = false →
  spawnOrUseExisting env options s = Some (s1, r) →
  ∃ tl, trace s1 = trace s ++ tl
        ∧ (spawns → tl = [Spawn k] ∨ tl = [Spawn k; NotifyAll])
        ∧ (¬ spawns → tl = [] ∨ tl = [NotifyAll]).
Proof.
  intros k spawns HI%reachable_Inv Hnr. unfold spawnOrUseExisting.
  rewrite restart_prestep_eq by done. fold k. rewrite Hnr.
  cbn [mbind option_bind]. subst spawns.
  destruct (groups s !! k) as [g|] eqn:Hg.
  - rewrite bool_decide_eq_true_2 by eauto.
    unfold use_group. fold k. rewrite Hg. cbn [mbind option_bind].
    destruct (Group.processes g) as [|front tl] eqn:Hps; [done|].
    cbn [head mbind option_bind].
    destruct (heap s !! front) as [fp|] eqn:Hfp; [|done].
    cbn [mbind option_bind].
    destruct (record_of s k g front HI Hg) as (fp' & Hfp' & _ & Hs);
      [rewrite Hps; left|].
    assert (fp' = fp) as -> by congruence.
    destruct (ProcessInfo.sessions fp =? 0) eqn:Hidle;
      [apply Z.eqb_eq in Hidle|apply Z.eqb_neq in Hidle].
    { intros Hsel%select_trace. exists [NotifyAll]. split; [done|]. split.
      - intros [Hbusy _]. destruct (Hbusy front eq_refl) as (q & Hq & Hq0).
        assert (q = fp) as -> by congruence. lia.
      - intros _. by right. }
    assert (∀ w, Some front = Some w → busy s w) as Hbusy.
    { intros w [= <-]. exists fp. split; [done|lia]. }
    destruct (_ || _) eqn:Hsat.
    { assert (¬ (count s < max s
                 ∧ (maxPerApp s = 0 ∨ Group.size g < maxPerApp s))) as Hno.
      { intros [H1 H2]. apply orb_true_iff in Hsat as [H|H].
        - apply Z.leb_le in H. lia.
        - apply andb_true_iff in H as [Hz Hsz].
          apply negb_true_iff, Z.eqb_neq in Hz. apply Z.leb_le in Hsz. lia. }
      assert (trace s1 = trace s →
        ∃ tl0, trace s1 = trace s ++ tl0
          ∧ ((∀ w, Some front = Some w → busy s w)
             ∧ count s < max s
             ∧ (maxPerApp s = 0 ∨ Group.size g < maxPerApp s) →
             tl0 = [Spawn k] ∨ tl0 = [Spawn k; NotifyAll])
          ∧ (¬ ((∀ w, Some front = Some w → busy s w)
                ∧ count s < max s
                ∧ (maxPerApp s = 0 ∨ Group.size g < maxPerApp s)) →
             tl0 = [] ∨ tl0 = [NotifyAll])) as Hquiet.
      { intros E. exists []. split; [by rewrite app_nil_r|]. split.
        - intros [_ H]. by destruct Hno.
        - intros _. by left. }
      destruct (PoolOptions.useGlobalQueue options).
      - intros [= <- _]. by apply Hquiet.
      - destruct (scan_smallest _ _ _); [|done]. cbn [mbind option_bind].
        intros Hsel%select_trace. by apply Hquiet. }
    assert (count s < max s
            ∧ (maxPerApp s = 0 ∨ Group.size g < maxPerApp s)) as Hyes.
    { apply orb_false_iff in Hsat as [H1 H2]. apply Z.leb_gt in H1.
      split; [done|]. apply andb_false_iff in H2 as [H|H].
      - apply negb_false_iff, Z.eqb_eq in H. by left.
      - apply Z.leb_gt in H. by right. }
    destruct (spawn env options) as [e|pid].
    + intros [= <- _]. exists [Spawn k]. split; [done|]. split.
      * intros _. by left.
      * intros Hn. destruct Hn. by split.
    + unfold alloc. intros Hsel%select_trace. cbn in Hsel.
      exists [Spawn k; NotifyAll]. split; [by rewrite Hsel, <- app_assoc|].
      split.
      * intros _. by right.
      * intros Hn. destruct Hn. by split.
  - rewrite bool_decide_eq_false_2 by (by intros [? ?]).
    unfold new_group.
    destruct (max s <=? active s) eqn:Hfull;
      [apply Z.leb_le in Hfull|apply Z.leb_gt in Hfull].
    { intros [= <- _]. exists []. split; [by rewrite app_nil_r|]. split.
      - lia.
      - intros _. by left. }
    assert (∀ s0, trace s0 = trace s →
              spawn_new env options s0 = Some (s1, r) →
              ∃ tl, trace s1 = trace s ++ tl
                    ∧ (active s < max s →
                       tl = [Spawn k] ∨ tl = [Spawn k; NotifyAll])
                    ∧ (¬ active s < max s → tl = [] ∨ tl = [NotifyAll]))
      as Hnew.
    { intros s0 Ht. unfold spawn_new. fold k.
      destruct (spawn env options) as [e|pid].
      - intros [= <- _]. exists [Spawn k]. cbn. rewrite Ht.
        split; [done|]. split; [by left|done].
      - unfold alloc. intros Hsel%select_trace. cbn in Hsel.
        exists [Spawn k; NotifyAll]. rewrite Hsel, Ht, <- app_assoc.
        split; [done|]. split; [by right|done]. }
    destruct (count s =? max s).
    + destruct (evict s) as [s0|] eqn:Hev; [|done]. cbn [mbind option_bind].
      apply Hnew. by apply evict_trace.
    + cbn [mbind option_bind]. by apply Hnew.
Qed.

(** The theorem at the pool of capacity 1 with one busy record, with a
    [get] for the same application: the group is saturated, nothing is
    spawned. *)
Lemma spawn_decision_witness :
  ∃ s1 r,
    spawnOrUseExisting (Demo.env_ok 101 6) Demo.optsA Demo.one_busy
    = Some (s1, r)
    ∧ ∃ tl, trace s1 = trace Demo.one_busy ++ tl.
Proof.
  assert (∃ s1 r,
            spawnOrUseExisting (Demo.env_ok 101 6) Demo.optsA Demo.one_busy
            = Some (s1, r)) as (s1 & r & Hrun)
    by (vm_compute; eexists _, _; reflexivity).
  exists s1, r. split; [exact Hrun|].
  destruct (spawn_decision (Demo.env_ok 101 6) Demo.optsA Demo.one_busy s1 r
              reachable_one_busy eq_refl Hrun) as (tl & Htl & _).
  by exists tl.
Defined.

End spawn_decision.

(** ** Waiting *)

Section waiting.
Import StdList Pool Run.
Implicit Types (s : t) (g : Group.t) (k : string) (w x y : nat) (l : list nat).

(** A pass that ends in a wait on [activeOrMaxChanged] has changed nothing
    but what the restart purge did before: it waits on the global queue,
    counted in [waitingOnGlobalQueue], only for an application that has a
    group and with [useGlobalQueue] set, and otherwise only for an
    application without a group when [active >= max].  When [get] wakes
    up, [waitingOnGlobalQueue] is counted down again and the pass starts
    over from that same state, with the attempt number it had. *)
Theorem wait_changes_nothing (env : Env) (options : PoolOptions.t)
    (s s1 : t) (gq : bool) :
  let k := PoolOptions.appRoot options in
  let s0 := if needsRestart env k options then after_restart s k else s in
  reachable s →
  spawnOrUseExisting env options s = Some (s1, Wait gq) →
  s1 = (if gq
        then with_waitingOnGlobalQueue (uincr (waitingOnGlobalQueue s0)) s0
        else s0)
  ∧ (if gq
     then needsRestart env k options = false
          ∧ PoolOptions.useGlobalQueue options = true
          ∧ is_Some (groups s !! k)
     else groups s0 !! k = None ∧ max s0 <= active s0)
  ∧ ∀ envs attempt,
      get_resume envs options attempt gq s1
      = get_loop (S (Z.to_nat (MAX_GET_ATTEMPTS - attempt))) envs 0 options
          attempt
          (if gq
           then with_waitingOnGlobalQueue (wrap32 (waitingOnGlobalQueue s0)) s0
           else s0).
Proof.
  intros k s0 HI%reachable_Inv. unfold spawnOrUseExisting.
  rewrite restart_prestep_eq by done. fold k. cbn [mbind option_bind].
  subst s0. destruct (needsRestart env k options).
  - intros (-> & Hfull & ->)%new_group_wait.
    split; [done|]. split; [|done]. split; [apply after_restart_lookup|done].
  - destruct (groups s !! k) as [g|] eqn:Hg.
    + rewrite bool_decide_eq_true_2 by eauto.
      intros (-> & Hq & ->)%use_group_wait.
      split; [done|]. split; [by eauto|].
      intros envs attempt. unfold get_resume. f_equal.
      unfold with_waitingOnGlobalQueue. cbn. f_equal.
      unfold udecr, uincr, wrap32.
      rewrite <- Zminus_mod_idemp_l. rewrite Z.mod_mod by done.
      rewrite Zminus_mod_idemp_l. f_equal. lia.
    + rewrite bool_decide_eq_false_2 by (by intros [? ?]).
      intros (-> & Hfull & ->)%new_group_wait. done.
Qed.

(** The theorem at the pool of capacity 1 with one busy record and a
    [get] for another application. *)
Lemma wait_changes_nothing_witness :
  spawnOrUseExisting (Demo.env_ok 101 9) Demo.optsB Demo.one_busy
  = Some (Demo.one_busy, Wait false)
  ∧ max Demo.one_busy <= active Demo.one_busy.
Proof.
  assert (spawnOrUseExisting (Demo.env_ok 101 9) Demo.optsB Demo.one_busy
          = Some (Demo.one_busy, Wait false)) as Hrun
    by (vm_compute; reflexivity).
  split; [exact Hrun|].
  destruct (wait_changes_nothing (Demo.env_ok 101 9) Demo.optsB Demo.one_busy
              Demo.one_busy false reachable_one_busy Hrun)
    as (_ & [_ Hfull] & _).
  exact Hfull.
Defined.

End waiting.

(** ** What hexToULL reads *)

Section hex_value.
Import StrIntUtils.

Lemma hex_value_mod : ∀ digits a b,
  wrap64 a = wrap64 b →
  wrap64 (hex_value a digits) = wrap64 (hex_value b digits).
Proof.
  induction digits as [|c r IH]; intros a b E; [done|].
  cbn [hex_value]. apply IH. unfold wrap64 in *.
  rewrite (Z.add_mod (16 * a)), (Z.add_mod (16 * b)) by done.
  rewrite (Z.mul_mod 16 a), (Z.mul_mod 16 b) by done. by rewrite E.
Qed.

Lemma hexToULL_loop_step c rest result :
  is_hex_char c →
  hexToULL_loop (String c rest) result
  = hexToULL_loop rest (wrap64 (wrap64 (result * 16) + hex_digit_value c)).
Proof.
  intros Hc. cbn [hexToULL_loop]. unfold hex_digit_value.
  destruct Hc as [[H1 H2]|[[H1 H2]|[H1 H2]]].
  - by rewrite (proj2 (Z.leb_le 48 _)), (proj2 (Z.leb_le _ 57)) by lia.
  - rewrite (proj2 (Z.leb_gt _ 57)) by lia. rewrite andb_false_r.
    by rewrite (proj2 (Z.leb_le 97 _)), (proj2 (Z.leb_le _ 102)) by lia.
  - rewrite (proj2 (Z.leb_gt _ 57)) by lia. rewrite andb_false_r.
    rewrite (proj2 (Z.leb_gt 97 _)) by lia. rewrite andb_false_l.
    by rewrite (proj2 (Z.leb_le 65 _)), (proj2 (Z.leb_le _ 90)) by lia.
Qed.

Lemma hexToULL_loop_stop c rest result :
  ¬ is_hex_char c → hexToULL_loop (String c rest) result = result.
Proof.
  intros Hc. cbn [hexToULL_loop]. unfold is_hex_char in Hc.
  destruct ((48 <=? code c) && (code c <=? 57)) eqn:H1.
  { apply andb_true_iff in H1 as [?%Z.leb_le ?%Z.leb_le]. lia. }
  destruct ((97 <=? code c) && (code c <=? 102)) eqn:H2.
  { apply andb_true_iff in H2 as [?%Z.leb_le ?%Z.leb_le]. lia. }
  destruct ((65 <=? code c) && (code c <=? 90)) eqn:H3.
  { apply andb_true_iff in H3 as [?%Z.leb_le ?%Z.leb_le]. lia. }
  done.
Qed.

Lemma hexToULL_loop_spec rest : ∀ digits result,
  all_chars is_hex_char digits →
  stops is_hex_char rest →
  wrap64 result = result →
  hexToULL_loop (digits +:+ rest) result = wrap64 (hex_value result digits).
Proof.
  induction digits as [|c digits IH]; intros result Hall Hstop Hres.
  - rewrite append_nil. cbn [hex_value]. rewrite Hres.
    destruct rest as [|c rest]; [done|]. by apply hexToULL_loop_stop.
  - destruct Hall as [Hc Hall]. rewrite append_cons.
    rewrite hexToULL_loop_step by done.
    rewrite IH by (try done; apply wrap64_idem).
    cbn [hex_value]. apply hex_value_mod. rewrite wrap64_idem. unfold wrap64.
    rewrite Z.add_mod_idemp_l by done. f_equal. lia.
Qed.

(** [hexToULL] reads the longest prefix of characters it takes for digits
    and gives the number they denote in base 16, modulo [2^64].  It takes
    ['0'..'9'], ['a'..'f'] and every upper case letter ['A'..'Z'], so
    that ['G'] to ['Z'] count 16 to 35. *)
Theorem hexToULL_value (digits rest : string) :
  all_chars is_hex_char digits →
  stops is_hex_char rest →
  hexToULL (digits +:+ rest) = hex_value 0 digits mod ULL_MOD.
Proof.
  intros Hall Hstop. unfold hexToULL. by rewrite hexToULL_loop_spec.
Qed.

(** The theorem at ["1Z rest"]: 1 * 16 + 35. *)
Lemma hexToULL_value_witness : hexToULL "1Z rest" = 51.
Proof.
  apply (hexToULL_value "1Z" " rest").
  - cbn [all_chars]. unfold is_hex_char, code. cbn. lia.
  - cbn [stops]. unfold is_hex_char, code. cbn. lia.
Defined.

End hex_value.

(** ** activeOrMaxChanged *)

Section signalled.
Import StdList Pool Run.
Implicit Types (s : t) (g : Group.t) (k : string) (w x y : nat) (l : list nat).

Lemma signalled_quiet s s' :
  trace s' = trace s → active s' = active s → max s' = max s →
  signalled s s'.
Proof.
  intros Ht Ha Hm. exists []. split; [by rewrite app_nil_r|]. by left.
Qed.

Lemma signalled_notify s s' tl :
  trace s' = trace s ++ tl → NotifyAll ∈ tl → signalled s s'.
Proof. intros Ht Hin. exists tl. split; [done|by right]. Qed.

Lemma signalled_trans s1 s2 s3 :
  signalled s1 s2 → signalled s2 s3 → signalled s1 s3.
Proof.
  intros (tl1 & Ht1 & H1) (tl2 & Ht2 & H2). exists (tl1 ++ tl2).
  split; [by rewrite Ht2, Ht1, app_assoc|].
  destruct H1 as [[Ha1 Hm1]|Hin1]; [|right; apply elem_of_app; by left].
  destruct H2 as [[Ha2 Hm2]|Hin2]; [|right; apply elem_of_app; by right].
  left. split; congruence.
Qed.

Lemma select_signalled env w k s s1 r :
  select env w k s = Some (s1, r) → signalled s s1.
Proof.
  unfold select. destruct (heap s !! w); [|done].
  cbn [mbind option_bind]. intros [= <- _]. by apply signalled_quiet.
Qed.

Lemma use_group_signalled env options s s1 r :
  use_group env options s = Some (s1, r) → signalled s s1.
Proof.
  unfold use_group. set (k := PoolOptions.appRoot options).
  destruct (groups s !! k) as [g|]; [|done]. cbn [mbind option_bind].
  destruct (head _) as [front|]; [|done]. cbn [mbind option_bind].
  destruct (heap s !! front) as [fp|]; [|done]. cbn [mbind option_bind].
  destruct (ProcessInfo.sessions fp =? 0).
  { intros Hsel%select_signalled.
    eapply signalled_trans; [|exact Hsel].
    apply (signalled_notify _ _ [NotifyAll]); [done|left]. }
  destruct (_ || _).
  { destruct (PoolOptions.useGlobalQueue options).
    - intros [= <- _]. by apply signalled_quiet.
    - destruct (scan_smallest _ _ _); [|done]. cbn [mbind option_bind].
      intros Hsel%select_signalled.
      eapply signalled_trans; [|exact Hsel]. by apply signalled_quiet. }
  destruct (spawn env options) as [e|pid].
  { intros [= <- _]. exists [Spawn k]. split; [done|]. by left. }
  unfold alloc. intros Hsel%select_signalled.
  eapply signalled_trans; [|exact Hsel].
  apply (signalled_notify _ _ [Spawn k; NotifyAll]).
  - cbn. by rewrite <- app_assoc.
  - right. left.
Qed.

Lemma spawn_new_signalled env options s s1 r :
  spawn_new env options s = Some (s1, r) → signalled s s1.
Proof.
  unfold spawn_new. set (k := PoolOptions.appRoot options).
  destruct (spawn env options) as [e|pid].
  { intros [= <- _]. exists [Spawn k]. split; [done|]. by left. }
  unfold alloc. intros Hsel%select_signalled.
  eapply signalled_trans; [|exact Hsel].
  apply (signalled_notify _ _ [Spawn k; NotifyAll]).
  - cbn. by rewrite <- app_assoc.
  - right. left.
Qed.

Lemma evict_signalled s s0 : evict s = Some s0 → signalled s s0.
Proof.
  unfold evict. destruct (head _) as [w|]; [|done]. cbn [mbind option_bind].
  destruct (heap _ !! w) as [p|]; [|done]. cbn [mbind option_bind].
  destruct (groups _ !! _) as [g|]; [|done]. cbn [mbind option_bind].
  intros [= <-]. apply signalled_quiet;
    by destruct (erase w (Group.processes g)).
Qed.

Lemma new_group_signalled env options s s1 r :
  new_group env options s = Some (s1, r) → signalled s s1.
Proof.
  unfold new_group. destruct (max s <=? active s).
  { intros [= <- _]. by apply signalled_quiet. }
  destruct (count s =? max s).
  - destruct (evict s) as [s0|] eqn:Hev; [|done]. cbn [mbind option_bind].
    intros Hrun%spawn_new_signalled.
    eapply signalled_trans; [by apply evict_signalled|done].
  - cbn [mbind option_bind]. apply spawn_new_signalled.
Qed.

Lemma after_restart_signalled s k : signalled s (after_restart s k).
Proof.
  apply (signalled_notify _ _ [Reload k; NotifyAll]).
  - unfold after_restart. cbn. rewrite <- app_assoc.
    by destruct (groups s !! k).
  - right. left.
Qed.

Lemma spawnOrUseExisting_signalled env options s s1 r :
  Inv s → spawnOrUseExisting env options s = Some (s1, r) → signalled s s1.
Proof.
  intros HI. unfold spawnOrUseExisting.
  rewrite restart_prestep_eq by done. cbn [mbind option_bind].
  destruct (needsRestart _ _ _).
  - intros Hrun%new_group_signalled.
    eapply signalled_trans; [apply after_restart_signalled|done].
  - destruct (bool_decide _).
    + apply use_group_signalled.
    + apply new_group_signalled.
Qed.

Lemma connect_failed_signalled options w k s s2 :
  connect_failed options w k s = Some s2 → signalled s s2.
Proof.
  unfold connect_failed.
  destruct (heap s !! w) as [p|]; [|done]. cbn [mbind option_bind].
  destruct (groups _ !! k) as [g|]; [|done]. cbn [mbind option_bind].
  intros [= <-]. apply (signalled_notify _ _ [NotifyAll]); [|left].
  by destruct (erase w (Group.processes g)).
Qed.

Lemma get_loop_signalled envs options : ∀ fuel attempt i s s' r,
  Inv s → headroom s →
  get_loop fuel envs i options attempt s = Some (s', r) →
  signalled s s'.
Proof.
  induction fuel as [|fuel IH]; intros attempt i s s' r HI Hroom; [done|].
  cbn [get_loop].
  destruct (spawnOrUseExisting_Inv (envs i) options s HI Hroom)
    as (s1 & pr & Hrun & Hpost).
  rewrite Hrun. cbn [mbind option_bind].
  pose proof (spawnOrUseExisting_signalled _ _ _ _ _ HI Hrun) as H1.
  destruct pr as [w k|gq|e].
  - destruct (connect (envs i) w) as [e|[]].
    + destruct (connect_failed_Inv options s w k s1 Hpost)
        as (s2 & Hcf & HI2 & Hc2 & Ho2).
      rewrite Hcf. cbn [mbind option_bind].
      pose proof (connect_failed_signalled _ _ _ _ _ Hcf) as H2.
      destruct (attempt =? MAX_GET_ATTEMPTS).
      * intros [= <- _]. by eapply signalled_trans.
      * intros Hrest. apply IH in Hrest; [|done|].
        -- eapply signalled_trans; [|exact Hrest]. by eapply signalled_trans.
        -- destruct Hpost as (Hopen & _ & _ & _ & Hc). destruct Hroom as [Hr1 Hr2].
           split; [lia|]. by rewrite Ho2, Hopen.
    + intros [= <- _]. eapply signalled_trans; [exact H1|].
      by apply signalled_quiet.
  - by intros [= <- _].
  - by intros [= <- _].
Qed.

Lemma cleaner_loop_quiet now : ∀ fuel s it s',
  cleaner_loop fuel now s it = Some s' →
  trace s' = trace s ∧ active s' = active s ∧ max s' = max s.
Proof.
  induction fuel as [|fuel IH]; intros s [w|] s' H; cbn [cleaner_loop] in H;
    try (by simplify_eq).
  destruct (heap s !! w) as [p|]; [cbn [mbind option_bind] in H|done].
  destruct (groups s !! _) as [g|]; [cbn [mbind option_bind] in H|done].
  destruct (idle_too_long s now p).
  - apply IH in H as (-> & -> & ->). by destruct (erase w (Group.processes g)).
  - apply IH in H as (-> & -> & ->). by destruct (Group.processes g).
Qed.

(** The condition variable is true to its name: whenever an operation
    leaves [active] or [max] different from what it was, it has called
    [activeOrMaxChanged.notify_all()].  (A change of [count] alone, as
    the cleaner makes, is not signalled.) *)
Theorem active_or_max_changed (op : Op) (s s' : t) :
  reachable s →
  enabled s op →
  run op s = Some s' →
  ∃ tl, trace s' = trace s ++ tl
        ∧ (active s' ≠ active s ∨ max s' ≠ max s → NotifyAll ∈ tl).
Proof.
  intros HI%reachable_Inv Hen Hrun.
  assert (signalled s s') as (tl & Ht & Hcase).
  { destruct op as [envs options|envs options attempt gq|now w| |n|n|n|now];
      cbn [run enabled] in *.
    - unfold get in Hrun.
      destruct (get_loop _ _ _ _ _ _) as [[s1 r]|] eqn:Hg; [|done].
      injection Hrun as <-. by apply get_loop_signalled in Hg.
    - unfold get_resume in Hrun. destruct Hen as [Hroom Hatt].
      destruct (get_loop _ _ _ _ _ _) as [[s1 r]|] eqn:Hg; [|done].
      injection Hrun as <-. apply get_loop_signalled in Hg.
      + eapply signalled_trans; [|exact Hg].
        apply signalled_quiet; by destruct gq.
      + destruct gq; [|done]. by apply (Inv_core s).
      + by destruct gq.
    - revert Hrun. unfold close, sessionClose.
      destruct (weak_lock _ w) as [p|];
        [|intros [= <-]; by apply signalled_quiet].
      destruct (groups _ !! _) as [g|];
        [|intros [= <-]; by apply signalled_quiet].
      destruct (_ && _).
      + intros [= <-]. apply (signalled_notify _ _ [NotifyAll]); [|left].
        by destruct (erase w (Group.processes g)).
      + destruct (_ =? 0); intros [= <-].
        * apply (signalled_notify _ _ [NotifyAll]); [done|left].
        * by apply signalled_quiet.
    - injection Hrun as <-. apply (signalled_notify _ _ [NotifyAll]); [done|left].
    - injection Hrun as <-. apply (signalled_notify _ _ [NotifyAll]); [done|left].
    - injection Hrun as <-. apply (signalled_notify _ _ [NotifyAll]); [done|left].
    - injection Hrun as <-. exists [NotifyCleaner]. split; [done|]. by left.
    - unfold cleanerPass in Hrun.
      apply cleaner_loop_quiet in Hrun as (? & ? & ?). by apply signalled_quiet. }
  exists tl. split; [done|]. intros Hchg.
  destruct Hcase as [[Ha Hm]|Hin]; [|done]. by destruct Hchg.
Qed.

(** The theorem at the close of the session on the one busy record. *)
Lemma active_or_max_changed_witness :
  ∃ tl, trace Demo.one_idle = trace Demo.one_busy ++ tl
        ∧ (active Demo.one_idle ≠ active Demo.one_busy
           ∨ max Demo.one_idle ≠ max Demo.one_busy → NotifyAll ∈ tl).
Proof.
  apply (active_or_max_changed (OpClose 7 0%nat) Demo.one_busy Demo.one_idle
           reachable_one_busy).
  - vm_compute. left.
  - vm_compute. reflexivity.
Defined.

(** A cleaner pass that retires the idle record lowers [count] and calls
    nothing. *)
Example cleaner_is_silent :
  (λ s, (count s, trace s)) <$> cleanerPass 1000 Demo.one_idle
  = Some (0, trace Demo.one_idle).
Proof. vm_compute. reflexivity. Qed.

End signalled.
